(** * Easegress / easegateway: cluster gateway, HTTP server runtime and
      duration sampler

    A shallow embedding of

    - [pkg/cluster/gateway/gateway.go]   (module [Gateway]),
    - [pkg/object/httpserver/runtime.go] (module [HTTPServer]),
    - the duration sampler, package [sampler] (module [Sampler]),

    followed by the theorems that relate the embedding to the written
    specification, and by further properties of the code: its edge cases,
    the invariants of its loops and the way its operations compose.
    Part I holds the definitions, Part II the proofs. *)

From Stdlib Require Import ZArith Lia List Bool Ascii String.
From Stdlib Require Import PrimFloat Uint63 SpecFloat FloatOps FloatAxioms.
From stdpp Require Import gmap strings list sorting.

(** * Part I: the embedding *)

(** ** Machine integers

    Go's fixed-width integers, as [Z] with the wrap-around written out. *)

Module GoInt.
Local Open Scope Z_scope.

Definition wrap_uint32 (x : Z) : Z := x mod 2 ^ 32.
Definition wrap_uint64 (x : Z) : Z := x mod 2 ^ 64.
Definition wrap_int64 (x : Z) : Z := (x + 2 ^ 63) mod 2 ^ 64 - 2 ^ 63.

Definition in_int64 (x : Z) : Prop := - 2 ^ 63 <= x < 2 ^ 63.

(** [int] and [int64] (so [time.Duration]) are 64-bit two's complement;
    [/] truncates towards zero, which is [Z.quot]. *)
Definition add64 (x y : Z) : Z := wrap_int64 (x + y).
Definition sub64 (x y : Z) : Z := wrap_int64 (x - y).
Definition mul64 (x y : Z) : Z := wrap_int64 (x * y).
Definition quot64 (x y : Z) : Z := wrap_int64 (x ÷ y).

End GoInt.

(** ** IEEE 754 binary64

    [float64] is Rocq's primitive [float].  The conversions from integers
    round to nearest even, as Go's do. *)

Module GoFloat.
Local Open Scope Z_scope.

(** [float64(c)] for a [uint64] [c].  Below [2^63] the primitive conversion
    applies; above, halve with a sticky low bit (which keeps the rounding
    decision) and double the result, which is exact. *)
Definition float64_of_uint64 (c : Z) : float :=
  if c <? 2 ^ 63 then PrimFloat.of_uint63 (Uint63.of_Z c)
  else PrimFloat.mul (PrimFloat.of_uint63 (Uint63.of_Z 2))
         (PrimFloat.of_uint63 (Uint63.of_Z (Z.lor (Z.shiftr c 1) (Z.land c 1)))).

(** [float64(x)] for an [int64] [x]. *)
Definition float64_of_int64 (x : Z) : float :=
  if x <? 0 then PrimFloat.opp (float64_of_uint64 (- x)) else float64_of_uint64 x.

(** [x >= y] on [float64]: false as soon as one side is NaN. *)
Definition geb (x y : float) : bool := PrimFloat.leb y x.

End GoFloat.

(** ** Package [sampler] *)

Module Sampler.
Import GoInt GoFloat.
Local Open Scope Z_scope.

(** [time.Duration] counts nanoseconds in an [int64]. *)
Abbreviation Duration := Z.
Definition Millisecond : Duration := 1000000.

Record DurationSegment := {
  resolution : Duration;
  slots : Z
}.

Record DurationSampler := {
  count : Z;              (* uint64 *)
  durations : list Z      (* []uint32 *)
}.

Definition segments : list DurationSegment := [
  {| resolution := Millisecond;                 slots := 500 |};
  {| resolution := mul64 Millisecond 2;    slots := 250 |};
  {| resolution := mul64 Millisecond 4;    slots := 250 |};
  {| resolution := mul64 Millisecond 8;    slots := 125 |};
  {| resolution := mul64 Millisecond 16;   slots := 125 |};
  {| resolution := mul64 Millisecond 32;   slots := 125 |};
  {| resolution := mul64 Millisecond 64;   slots := 125 |};
  {| resolution := mul64 Millisecond 128;  slots := 125 |};
  {| resolution := mul64 Millisecond 256;  slots := 125 |};
  {| resolution := mul64 Millisecond 512;  slots := 125 |};
  {| resolution := mul64 Millisecond 1024; slots := 125 |}
].

(** [NewDurationSampler]: one slot more than the segments have together. *)
Definition NewDurationSampler : DurationSampler :=
  let slots := fold_left (fun acc s => add64 acc (slots s)) segments 1 in
  {| count := 0; durations := replicate (Z.to_nat slots) 0 |}.

(** The [for _, s := range segments] loop of [Update], with its [break]. *)
Fixpoint Update_loop (segs : list DurationSegment) (d : Duration) (idx : Z) : Z :=
  match segs with
  | [] => idx
  | s :: rest =>
      let bound := mul64 (resolution s) (slots s) in
      if d <? sub64 bound (quot64 (resolution s) 2) then
        add64 idx (quot64 (add64 d (quot64 (resolution s) 2)) (resolution s))
      else
        Update_loop rest (sub64 d bound) (add64 idx (slots s))
  end.

(** The slot index [Update] computes for [d]. *)
Definition Update_index (d : Duration) : Z := Update_loop segments d 0.

(** [Update]: [None] is the run-time panic of an index out of range. *)
Definition Update (ds : DurationSampler) (d : Duration) : option DurationSampler :=
  let idx := Update_index d in
  if (0 <=? idx) && (idx <? Z.of_nat (length (durations ds))) then
    Some {| count := wrap_uint64 (count ds + 1);
            durations := alter (fun c => wrap_uint32 (c + 1)) (Z.to_nat idx) (durations ds) |}
  else None.

(** A sequence of [Update] calls, in order. *)
Fixpoint Update_all (ds : DurationSampler) (l : list Duration) : option DurationSampler :=
  match l with
  | [] => Some ds
  | d :: l' =>
      match Update ds d with
      | Some ds' => Update_all ds' l'
      | None => None
      end
  end.

Definition Reset (ds : DurationSampler) : DurationSampler :=
  {| count := 0; durations := replicate (length (durations ds)) 0 |}.

#[warnings="-inexact-float"]
Definition percentiles : list float :=
  [0.25; 0.5; 0.75; 0.95; 0.98; 0.99; 0.999]%float.

(** State of the scan in [Percentiles]. *)
Record scan := {
  sc_count : Z;            (* uint64 *)
  sc_di : nat;
  sc_pi : nat;
  sc_result : list float
}.

Inductive flow (A : Type) :=
  | Next (st : A)                    (* keep looping *)
  | Return (result : list float)     (* [return result] *)
  | Panic.                           (* index out of range *)
Arguments Next {A} st.
Arguments Return {A} result.
Arguments Panic {A}.

(** [for p >= percentiles[pi] { ... }].  Every round increments [pi] and
    the loop returns when [pi] reaches [len(percentiles)], so it is run with
    [fuel = len(percentiles) - pi]: no fuel left means that [pi] is past the
    end, where [percentiles[pi]] panics. *)
Fixpoint emit_loop (fuel : nat) (p : float) (d : Duration) (pi : nat)
    (result : list float) : flow (nat * list float) :=
  match fuel with
  | O => Panic
  | S fuel' =>
      match percentiles !! pi with
      | None => Panic
      | Some q =>
          if geb p q then
            let result := <[pi := float64_of_int64 (quot64 d Millisecond)]> result in
            let pi := S pi in
            if Nat.eqb pi (length percentiles) then Return result
            else emit_loop fuel' p d pi result
          else Next (pi, result)
      end
  end.

(** [for i := 0; i < s.slots; i++ { ... }], over the values [ixs] of [i]. *)
Fixpoint slot_loop (ds : DurationSampler) (total : float) (base : Duration)
    (s : DurationSegment) (ixs : list Z) (st : scan) : flow scan :=
  match ixs with
  | [] => Next st
  | i :: ixs' =>
      match durations ds !! sc_di st with
      | None => Panic
      | Some c =>
          let count := wrap_uint64 (sc_count st + c) in
          let di := S (sc_di st) in
          let p := PrimFloat.div (float64_of_uint64 count) total in
          let d := add64 base (mul64 (resolution s) i) in
          match emit_loop (length percentiles - sc_pi st) p d (sc_pi st) (sc_result st) with
          | Next (pi, result) =>
              slot_loop ds total base s ixs'
                {| sc_count := count; sc_di := di; sc_pi := pi; sc_result := result |}
          | Return result => Return result
          | Panic => Panic
          end
      end
  end.

Definition slot_range (s : DurationSegment) : list Z :=
  map Z.of_nat (seq 0 (Z.to_nat (slots s))).

(** [for _, s := range segments { ... }]. *)
Fixpoint segment_loop (ds : DurationSampler) (total : float)
    (segs : list DurationSegment) (base : Duration) (st : scan) : flow scan :=
  match segs with
  | [] => Next st
  | s :: rest =>
      match slot_loop ds total base s (slot_range s) st with
      | Next st' =>
          segment_loop ds total rest (add64 base (mul64 (resolution s) (slots s))) st'
      | other => other
      end
  end.

Definition sentinel : float := 9999999%float.

(** [for pi < len(percentiles) { result[pi] = 9999999; pi++ }]. *)
Fixpoint fill_loop (fuel : nat) (pi : nat) (result : list float) : list float :=
  match fuel with
  | O => result
  | S fuel' =>
      if Nat.ltb pi (length percentiles)
      then fill_loop fuel' (S pi) (<[pi := sentinel]> result)
      else result
  end.

(** [Percentiles]: [None] is a run-time panic. *)
Definition Percentiles (ds : DurationSampler) : option (list float) :=
  let result := replicate (length percentiles) 0%float in
  let total := float64_of_uint64 (count ds) in
  match segment_loop ds total segments 0
          {| sc_count := 0; sc_di := 0; sc_pi := 0; sc_result := result |} with
  | Next st => Some (fill_loop (length percentiles - sc_pi st) (sc_pi st) (sc_result st))
  | Return result => Some result
  | Panic => None
  end.

(** *** Vocabulary of the proofs and of the specification *)

(** A segment the loop of [Update] handles without overflow. *)
Definition segment_ok (s : DurationSegment) : Prop :=
  0 < resolution s /\ 0 < slots s /\ resolution s * slots s < 2 ^ 60.

(** The slots and the coverage of a list of segments. *)
Definition total_slots (segs : list DurationSegment) : Z :=
  foldr (fun s acc => slots s + acc) 0 segs.

Definition total_bound (segs : list DurationSegment) : Z :=
  foldr (fun s acc => resolution s * slots s + acc) 0 segs.

(** Half the resolution of the last segment. *)
Definition last_half (segs : list DurationSegment) : Z :=
  match last segs with
  | Some s => resolution s ÷ 2
  | None => 0
  end.

(** The least duration that falls into the last slot, the one past the
    table: 256.488 s. *)
Definition overflow_from : Duration := 256488 * Millisecond.

(** *** Vocabulary of the specification and of the proofs: percentiles *)

(** The slots of the table in order, each with the duration [Percentiles]
    reports for it and the resolution of its segment. *)
Fixpoint cells (segs : list DurationSegment) (base : Duration)
    : list (Duration * Duration) :=
  match segs with
  | [] => []
  | s :: rest =>
      map (fun i => (base + resolution s * i, resolution s)) (slot_range s)
      ++ cells rest (base + resolution s * slots s)
  end.

(** How many durations of [l] satisfy [P]. *)
Fixpoint count_if (P : Duration -> bool) (l : list Duration) : Z :=
  match l with
  | [] => 0
  | d :: l' => (if P d then 1 else 0) + count_if P l'
  end.

(** The percentiles [0.25 ... 0.999] as fractions. *)
Definition percentile_ratios : list (Z * Z) :=
  [(1, 4); (1, 2); (3, 4); (19, 20); (49, 50); (99, 100); (999, 1000)].

(** [v] is the percentile [a/b] of the durations [l] by the nearest-rank
    definition: the element of rank [ceil (a/b * n)] of [l] in ascending
    order, that is an element with fewer than [a/b * n] elements below it
    and at least [a/b * n] elements up to it. *)
Definition nearest_rank (l : list Duration) (a b : Z) (v : Duration) : Prop :=
  v ∈ l /\
  b * count_if (fun d => d <? v) l < a * Z.of_nat (length l) /\
  a * Z.of_nat (length l) <= b * count_if (fun d => d <=? v) l.

(** [float64(c) / float64(n) >= q], the test of [Percentiles]. *)
Definition frac_geb (c n : Z) (q : float) : bool :=
  geb (PrimFloat.div (float64_of_uint64 c) (float64_of_uint64 n)) q.

(** For a population of [n], the test in [float64] decides [c/n >= a/b]
    for every count [c] up to [n] and each of the seven percentiles. *)
Definition cmp_exact (n : Z) : bool :=
  forallb (fun c =>
    forallb (fun qr : float * (Z * Z) =>
      Bool.eqb (frac_geb c n qr.1) (qr.2.1 * n <=? qr.2.2 * c))
      (zip percentiles percentile_ratios))
    (map Z.of_nat (seq 0 (S (Z.to_nat n)))).

Definition sum_Z (l : list Z) : Z := foldr Z.add 0 l.

(** The count [Percentiles] has accumulated when it reaches slot [di]. *)
Definition cum (ds : DurationSampler) (di : nat) : Z :=
  sum_Z (take di (durations ds)).

(** With the count [c] accumulated, the test of [Percentiles] holds for
    the percentile of index [k]. *)
Definition hit (total : float) (c : Z) (k : nat) : Prop :=
  exists q, percentiles !! k = Some q /\
    geb (PrimFloat.div (float64_of_uint64 c) total) q = true.

(** Slot [j] is the first at which the test holds for percentile [k]. *)
Definition first_hit (ds : DurationSampler) (total : float) (k j : nat) : Prop :=
  hit total (cum ds (S j)) k /\
  forall j', (j' < j)%nat -> ~ hit total (cum ds (S j')) k.

(** What [Percentiles] stores for a slot whose duration is [val]. *)
Definition reported (val : Duration) : float :=
  float64_of_int64 (quot64 val Millisecond).

(** The invariant of the scan, [C] being the table of slots. *)
Definition scan_inv (ds : DurationSampler) (total : float)
    (C : list (Duration * Duration)) (st : scan) : Prop :=
  sc_count st = cum ds (sc_di st) /\
  (sc_pi st < 7)%nat /\
  length (sc_result st) = 7%nat /\
  (forall k, (k < sc_pi st)%nat ->
     exists j val r, (j < sc_di st)%nat /\ C !! j = Some (val, r) /\
       first_hit ds total k j /\ sc_result st !! k = Some (reported val)) /\
  (forall k j, (sc_pi st <= k < 7)%nat -> (j < sc_di st)%nat ->
     ~ hit total (cum ds (S j)) k).

(** What holds of a result returned from within the scan. *)
Definition scan_final (ds : DurationSampler) (total : float)
    (C : list (Duration * Duration)) (res : list float) : Prop :=
  length res = 7%nat /\
  forall k, (k < 7)%nat ->
    exists j val r, C !! j = Some (val, r) /\
      first_hit ds total k j /\ res !! k = Some (reported val).

(** The durations of [l] that [Update] puts into slot [j], and those it
    puts before slot [j]. *)
Definition hits (l : list Duration) (j : Z) : Z :=
  count_if (fun d => Update_index d =? j) l.

Definition below (l : list Duration) (j : Z) : Z :=
  count_if (fun d => Update_index d <? j) l.

(** The counters of a sampler are within their types. *)
Definition sampler_ok (ds : DurationSampler) : Prop :=
  0 <= count ds < 2 ^ 64 /\
  Forall (fun c => 0 <= c < 2 ^ 32) (durations ds) /\
  length (durations ds) = 2001%nat.

(** A cell of the table is well formed. *)
Definition cell_ok (c : Duration * Duration) : bool :=
  (c.1 `rem` Millisecond =? 0) && (0 <=? c.1) && (c.1 <? 2 ^ 62)
  && (0 <? c.2) && (c.2 <=? 1024 * Millisecond).

(** A sample population, in milliseconds. *)
Definition sample_population : list Duration :=
  map (fun ms => ms * Millisecond) [1; 2; 3; 4; 5; 600; 700; 1003; 250000; 300000].

(** *** Vocabulary of the properties of the scan *)

(** The values emitted so far are whole milliseconds in ascending order,
    none beyond the duration [D] of the slot the scan has reached. *)
Definition scan_sorted (D : Duration) (pi : nat) (result : list float) : Prop :=
  length result = 7%nat /\
  exists ms : list Z,
    length ms = pi /\
    (forall k m, ms !! k = Some m -> result !! k = Some (float64_of_int64 m)) /\
    StronglySorted Z.le ms /\
    Forall (fun m => 0 <= m /\ m * Millisecond <= D) ms.

End Sampler.

(** ** Package [httpserver]: the runtime and its event loop *)

Module HTTPServer.
Import GoInt.
Local Open Scope Z_scope.

Inductive stateType := stateNil | stateFailed | stateRunning | stateClosed.

#[global] Instance stateType_eq_dec : EqDecision stateType.
Proof. solve_decision. Defined.

(** Go's [error]: [nil], or a value with its message. *)
Definition error := option string.

(** [errNil = fmt.Errorf("")]. *)
Definition errNil : error := Some ""%string.

(** An opaque handle for [context.MuxMapper]. *)
Definition MuxMapper := nat.

Section WithSpecTypes.
(** The specifications of tracing and IP filtering and the routing rules
    are declared in other packages; they stay abstract, with the equality
    [reflect.DeepEqual] decides on them. *)
Context {TracingSpec IPFilterSpec Rule : Type}.
Context `{!EqDecision TracingSpec, !EqDecision IPFilterSpec, !EqDecision Rule}.

(** Modelled from the spec: the struct [Spec] of package [httpserver]
    (declared in a file that is not among the sources), as the tuple
    ServerSpec of the data model: [{port, httpsEnabled, http3Enabled,
    keepAlive, keepAliveTimeout, maxConnections, cacheSize, xForwardedFor,
    tracing, ipFilter, rules}], under the field names [runtime.go] reads
    them by.  Pointers and slices are [option]s: [None] is [nil]. *)
Record Spec := {
  Port : Z;                           (* uint16 *)
  HTTPS : bool;
  HTTP3 : bool;
  KeepAlive : bool;
  KeepAliveTimeout : string;
  MaxConnections : Z;                 (* uint32 *)
  CacheSize : Z;                      (* uint32 *)
  XForwardedFor : bool;
  Tracing : option TracingSpec;
  IPFilter : option IPFilterSpec;
  Rules : option (list Rule)
}.

(** [reflect.DeepEqual] on two [Spec] values: field by field, through
    pointers and slices. *)
Definition DeepEqual (x y : Spec) : bool :=
  bool_decide (Port x = Port y) &&
  bool_decide (HTTPS x = HTTPS y) &&
  bool_decide (HTTP3 x = HTTP3 y) &&
  bool_decide (KeepAlive x = KeepAlive y) &&
  bool_decide (KeepAliveTimeout x = KeepAliveTimeout y) &&
  bool_decide (MaxConnections x = MaxConnections y) &&
  bool_decide (CacheSize x = CacheSize y) &&
  bool_decide (XForwardedFor x = XForwardedFor y) &&
  bool_decide (Tracing x = Tracing y) &&
  bool_decide (IPFilter x = IPFilter y) &&
  bool_decide (Rules x = Rules y).

(** What [runtime.go] uses of [supervisor.Spec]: [Name()] and
    [ObjectSpec().( *Spec)]. *)
Record SuperSpec := {
  Name : string;
  ObjectSpec : option Spec
}.

(** [http.Server] and [http3.Server], as far as the runtime drives them. *)
Record Server := {
  srv_port : Z;
  srv_keepAlive : bool;
  srv_idleTimeout : option string;    (* [None]: defaultKeepAliveTimeout *)
  srv_shutdown : bool
}.

Record Server3 := {
  srv3_port : Z;
  srv3_maxIdleTimeout : option string;
  srv3_keepAlivePeriod : option (option string);
  srv3_closed : bool
}.

(** The [mux]: the spec it was last reloaded with, and whether it is closed. *)
Record Mux := {
  mux_superSpec : option SuperSpec;
  mux_mapper : MuxMapper;
  mux_closed : bool
}.

Record runtime := {
  superSpec : SuperSpec;
  spec : option Spec;
  server : option Server;
  server3 : option Server3;
  mux : Mux;
  roundNum : Z;                       (* uint64 *)
  state : stateType;
  err : error;
  limitListener : option Z;           (* its connection limit *)
  health : Z;                         (* the gauge [metrics.Health] *)
  listens : nat;                      (* calls of [gnet.Listen] so far *)
  doneClosed : list nat               (* [done] channels closed so far *)
}.

Inductive event :=
  | eventCheckFailed
  | eventServeFailed (e_roundNum : Z) (e_err : error)
  | eventReload (nextSuperSpec : SuperSpec) (muxMapper : MuxMapper)
  | eventClose (done : nat)
  | eventOther.                       (* any other value sent on the channel *)

(** The environment: what the [n]-th call of [gnet.Listen] returns. *)
Record env := { listen : nat -> error }.

Definition with_state (v : stateType) (r : runtime) : runtime :=
  {| superSpec := superSpec r; spec := spec r; server := server r;
     server3 := server3 r; mux := mux r; roundNum := roundNum r;
     state := v; err := err r; limitListener := limitListener r;
     health := health r; listens := listens r; doneClosed := doneClosed r |}.

Definition with_err (v : error) (r : runtime) : runtime :=
  {| superSpec := superSpec r; spec := spec r; server := server r;
     server3 := server3 r; mux := mux r; roundNum := roundNum r;
     state := state r; err := v; limitListener := limitListener r;
     health := health r; listens := listens r; doneClosed := doneClosed r |}.

Definition with_health (v : Z) (r : runtime) : runtime :=
  {| superSpec := superSpec r; spec := spec r; server := server r;
     server3 := server3 r; mux := mux r; roundNum := roundNum r;
     state := state r; err := err r; limitListener := limitListener r;
     health := v; listens := listens r; doneClosed := doneClosed r |}.

Definition with_roundNum (v : Z) (r : runtime) : runtime :=
  {| superSpec := superSpec r; spec := spec r; server := server r;
     server3 := server3 r; mux := mux r; roundNum := v;
     state := state r; err := err r; limitListener := limitListener r;
     health := health r; listens := listens r; doneClosed := doneClosed r |}.

Definition with_spec (v : option Spec) (r : runtime) : runtime :=
  {| superSpec := superSpec r; spec := v; server := server r;
     server3 := server3 r; mux := mux r; roundNum := roundNum r;
     state := state r; err := err r; limitListener := limitListener r;
     health := health r; listens := listens r; doneClosed := doneClosed r |}.

Definition with_superSpec (v : SuperSpec) (r : runtime) : runtime :=
  {| superSpec := v; spec := spec r; server := server r;
     server3 := server3 r; mux := mux r; roundNum := roundNum r;
     state := state r; err := err r; limitListener := limitListener r;
     health := health r; listens := listens r; doneClosed := doneClosed r |}.

Definition with_server (v : option Server) (r : runtime) : runtime :=
  {| superSpec := superSpec r; spec := spec r; server := v;
     server3 := server3 r; mux := mux r; roundNum := roundNum r;
     state := state r; err := err r; limitListener := limitListener r;
     health := health r; listens := listens r; doneClosed := doneClosed r |}.

Definition with_server3 (v : option Server3) (r : runtime) : runtime :=
  {| superSpec := superSpec r; spec := spec r; server := server r;
     server3 := v; mux := mux r; roundNum := roundNum r;
     state := state r; err := err r; limitListener := limitListener r;
     health := health r; listens := listens r; doneClosed := doneClosed r |}.

Definition with_mux (v : Mux) (r : runtime) : runtime :=
  {| superSpec := superSpec r; spec := spec r; server := server r;
     server3 := server3 r; mux := v; roundNum := roundNum r;
     state := state r; err := err r; limitListener := limitListener r;
     health := health r; listens := listens r; doneClosed := doneClosed r |}.

Definition with_limitListener (v : option Z) (r : runtime) : runtime :=
  {| superSpec := superSpec r; spec := spec r; server := server r;
     server3 := server3 r; mux := mux r; roundNum := roundNum r;
     state := state r; err := err r; limitListener := v;
     health := health r; listens := listens r; doneClosed := doneClosed r |}.

Definition with_listens (v : nat) (r : runtime) : runtime :=
  {| superSpec := superSpec r; spec := spec r; server := server r;
     server3 := server3 r; mux := mux r; roundNum := roundNum r;
     state := state r; err := err r; limitListener := limitListener r;
     health := health r; listens := v; doneClosed := doneClosed r |}.

Definition with_doneClosed (v : list nat) (r : runtime) : runtime :=
  {| superSpec := superSpec r; spec := spec r; server := server r;
     server3 := server3 r; mux := mux r; roundNum := roundNum r;
     state := state r; err := err r; limitListener := limitListener r;
     health := health r; listens := listens r; doneClosed := v |}.

(** [exportState]: the health gauge is 1 when running, else 0. *)
Definition exportState (st : stateType) (r : runtime) : runtime :=
  match st with
  | stateRunning => with_health 1 r
  | _ => with_health 0 r
  end.

Definition setState (st : stateType) (r : runtime) : runtime :=
  with_state st (exportState st r).

Definition getState (r : runtime) : stateType := state r.

(** [setError]: [nil] is stored as [errNil], any other error as
    [fmt.Errorf("%v", err)], an error with the same message. *)
Definition setError (e : error) (r : runtime) : runtime :=
  match e with
  | None => with_err errNil r
  | Some msg => with_err (Some msg) r
  end.

Definition getError (r : runtime) : error := err r.

(** The copies [x] and [y] of [needRestartServer] after the six assignments. *)
Definition clear_hot_fields (x : Spec) : Spec :=
  {| Port := Port x; HTTPS := HTTPS x; HTTP3 := HTTP3 x;
     KeepAlive := KeepAlive x; KeepAliveTimeout := KeepAliveTimeout x;
     MaxConnections := 0; CacheSize := 0; XForwardedFor := false;
     Tracing := None; IPFilter := None; Rules := None |}.

(** [needRestartServer]: [None] is the panic of dereferencing [nil]. *)
Definition needRestartServer (r : runtime) (nextSpec : option Spec) : option bool :=
  match spec r, nextSpec with
  | Some x, Some y => Some (negb (DeepEqual (clear_hot_fields x) (clear_hot_fields y)))
  | _, _ => None
  end.

Definition keepAliveTimeout_of (sp : Spec) : option string :=
  if decide (KeepAliveTimeout sp = ""%string) then None else Some (KeepAliveTimeout sp).

(** [startHTTP3Server]; the goroutine it starts reports a failure later,
    as an [eventServeFailed] carrying the [roundNum] read here. *)
Definition startHTTP3Server (sp : Spec) (r : runtime) : runtime :=
  let t := keepAliveTimeout_of sp in
  with_server3
    (Some {| srv3_port := Port sp; srv3_maxIdleTimeout := t;
             srv3_keepAlivePeriod := if KeepAlive sp then Some t else None;
             srv3_closed := false |}) r.

Definition startHTTP1And2Server (E : env) (sp : Spec) (r : runtime) : runtime :=
  let r := with_server
    (Some {| srv_port := Port sp; srv_keepAlive := KeepAlive sp;
             srv_idleTimeout := keepAliveTimeout_of sp; srv_shutdown := false |}) r in
  let outcome := listen E (listens r) in
  let r := with_listens (S (listens r)) r in
  match outcome with
  | Some msg => setError (Some msg) (setState stateFailed r)
  | None => with_limitListener (Some (MaxConnections sp)) r
  end.

(** [startServer]: [None] is the panic of reading [r.spec.HTTP3] through a
    [nil] [r.spec]. *)
Definition startServer (E : env) (r : runtime) : option runtime :=
  let r := with_roundNum (wrap_uint64 (roundNum r + 1)) r in
  let r := setState stateRunning r in
  let r := setError None r in
  match spec r with
  | None => None
  | Some sp =>
      if HTTP3 sp then Some (startHTTP3Server sp r)
      else Some (startHTTP1And2Server E sp r)
  end.

Definition closeServer (r : runtime) : runtime :=
  match server3 r with
  | Some s3 =>
      with_server3
        (Some {| srv3_port := srv3_port s3; srv3_maxIdleTimeout := srv3_maxIdleTimeout s3;
                 srv3_keepAlivePeriod := srv3_keepAlivePeriod s3; srv3_closed := true |}) r
  | None =>
      match server r with
      | Some s =>
          with_server
            (Some {| srv_port := srv_port s; srv_keepAlive := srv_keepAlive s;
                     srv_idleTimeout := srv_idleTimeout s; srv_shutdown := true |}) r
      | None => r
      end
  end.

Definition mux_reload (ss : SuperSpec) (mm : MuxMapper) (m : Mux) : Mux :=
  {| mux_superSpec := Some ss; mux_mapper := mm; mux_closed := mux_closed m |}.

Definition mux_close (m : Mux) : Mux :=
  {| mux_superSpec := mux_superSpec m; mux_mapper := mux_mapper m; mux_closed := true |}.

Definition reload (E : env) (nextSuperSpec : SuperSpec) (muxMapper : MuxMapper)
    (r : runtime) : option runtime :=
  let r := with_superSpec nextSuperSpec r in
  let r := with_mux (mux_reload nextSuperSpec muxMapper (mux r)) r in
  let nextSpec := ObjectSpec nextSuperSpec in
  let r :=
    match nextSpec, limitListener r with
    | Some ns, Some _ => with_limitListener (Some (MaxConnections ns)) r
    | _, _ => r
    end in
  match spec r, nextSpec with
  | None, None => Some r
  | None, Some ns => startServer E (with_spec (Some ns) r)
  | Some _, None => Some (closeServer (with_spec None r))
  | Some _, Some ns =>
      match needRestartServer r nextSpec with
      | None => None
      | Some true => startServer E (closeServer (with_spec (Some ns) r))
      | Some false => Some (with_spec (Some ns) r)
      end
  end.

Definition handleEventCheckFailed (E : env) (r : runtime) : option runtime :=
  if decide (getState r = stateFailed) then startServer E r else Some r.

Definition handleEventServeFailed (r : runtime) (e_roundNum : Z) (e_err : error) : runtime :=
  if roundNum r >? e_roundNum then r
  else setError e_err (setState stateFailed r).

Definition handleEventReload (E : env) (r : runtime) (nextSuperSpec : SuperSpec)
    (muxMapper : MuxMapper) : option runtime :=
  reload E nextSuperSpec muxMapper r.

Definition handleEventClose (r : runtime) (done : nat) : runtime :=
  let r := setState stateClosed r in
  let r := closeServer r in
  let r := with_mux (mux_close (mux r)) r in
  with_doneClosed (done :: doneClosed r) r.

(** How the loop of [fsm] stands after the events sent so far. *)
Inductive fsm_outcome :=
  | Waiting (r : runtime)                        (* blocked on the empty channel *)
  | Exited (r : runtime) (unread : list event)   (* [return] after a close *)
  | Crashed.                                     (* a panic *)

(** [fsm]: the events are those of [eventChan], in order. *)
Fixpoint fsm (E : env) (r : runtime) (events : list event) : fsm_outcome :=
  match events with
  | [] => Waiting r
  | e :: rest =>
      match e with
      | eventCheckFailed =>
          match handleEventCheckFailed E r with
          | Some r' => fsm E r' rest
          | None => Crashed
          end
      | eventServeFailed n er => fsm E (handleEventServeFailed r n er) rest
      | eventReload ss mm =>
          match handleEventReload E r ss mm with
          | Some r' => fsm E r' rest
          | None => Crashed
          end
      | eventClose done => Exited (handleEventClose r done) rest
      | eventOther => fsm E r rest
      end
  end.

(** One tick of [checkFailed]: it sends a check event when the state is
    failed, stops the ticker when the state is closed, and waits for the
    next tick otherwise. *)
Inductive tick_outcome :=
  | TickSend (e : event)
  | TickStop
  | TickWait.

Definition checkFailed_tick (r : runtime) : tick_outcome :=
  if decide (getState r = stateFailed) then TickSend eventCheckFailed
  else if decide (getState r = stateClosed) then TickStop
  else TickWait.

(** [newRuntime], before its two goroutines start. *)
Definition newRuntime (ss : SuperSpec) (mm : MuxMapper) : runtime :=
  let r := {| superSpec := ss; spec := None; server := None; server3 := None;
              mux := {| mux_superSpec := None; mux_mapper := mm; mux_closed := false |};
              roundNum := 0; state := stateNil; err := None; limitListener := None;
              health := 0; listens := 0; doneClosed := [] |} in
  setError errNil (setState stateNil r).

(** [old] with the six fields that [needRestartServer] clears replaced. *)
Definition hot_update (old : Spec) (mc cs : Z) (xff : bool)
    (tr : option TracingSpec) (ipf : option IPFilterSpec)
    (rules : option (list Rule)) : Spec :=
  {| Port := Port old; HTTPS := HTTPS old; HTTP3 := HTTP3 old;
     KeepAlive := KeepAlive old; KeepAliveTimeout := KeepAliveTimeout old;
     MaxConnections := mc; CacheSize := cs; XForwardedFor := xff;
     Tracing := tr; IPFilter := ipf; Rules := rules |}.

(** [old] and [new] differ at most in [MaxConnections], [CacheSize],
    [XForwardedFor], [Tracing], [IPFilter] and [Rules]. *)
Definition differ_only_in_hot_fields (old new : Spec) : Prop :=
  exists mc cs xff tr ipf rules, new = hot_update old mc cs xff tr ipf rules.

(** The event is a close event. *)
Definition is_close (e : event) : bool :=
  match e with
  | eventClose _ => true
  | _ => false
  end.

(** *** Status, and the vocabulary of the invariants *)

(** [Status], without the statistics of [httpStat] and [topN]. *)
Record Status := {
  st_Name : string;
  st_Health : string;
  st_State : stateType;
  st_Error : string
}.

(** [Status()]: [None] is the panic of calling [Error()] on a [nil] error. *)
Definition runtime_Status (r : runtime) : option Status :=
  match getError r with
  | None => None
  | Some health =>
      match getError r with
      | None => None
      | Some e =>
          Some {| st_Name := Name (superSpec r); st_Health := health;
                  st_State := getState r; st_Error := e |}
      end
  end.

(** The runtime an outcome of [fsm] leaves, if the loop has not crashed. *)
Definition runtime_of (o : fsm_outcome) : option runtime :=
  match o with
  | Waiting r => Some r
  | Exited r _ => Some r
  | Crashed => None
  end.

(** A property of the runtime that every step of [reload], [startServer],
    [closeServer] and the handlers of the events before a close keeps. *)
Record kept (E : env) (I : runtime -> Prop) : Prop := {
  kept_superSpec : forall r ss, I r -> I (with_superSpec ss r);
  kept_mux : forall r m, I r -> I (with_mux m r);
  kept_limit : forall r n, I r -> I (with_limitListener (Some n) r);
  kept_spec : forall r sp, I r -> I (with_spec sp r);
  kept_closeServer : forall r, I r -> I (closeServer r);
  kept_startServer : forall r r', I r -> startServer E r = Some r' -> I r';
  kept_serveFailed : forall r n e, I r -> I (handleEventServeFailed r n e)
}.

(** What [Status] relies on: an error has been stored, it is [errNil]
    while the server runs, and the health gauge follows the state. *)
Definition status_ok (r : runtime) : Prop :=
  err r <> None /\
  (state r = stateRunning -> err r = errNil) /\
  health r = (if decide (state r = stateRunning) then 1 else 0).

(** An HTTP/3 server has been created, and [Shutdown] has not been called
    on the HTTP/1 server, if there is one. *)
Definition h3_shadows (r : runtime) : Prop :=
  server3 r <> None /\ forall s, server r = Some s -> srv_shutdown s = false.

End WithSpecTypes.

Arguments Spec : clear implicits.
Arguments SuperSpec : clear implicits.
Arguments Mux : clear implicits.
Arguments runtime : clear implicits.
Arguments event : clear implicits.
Arguments fsm_outcome : clear implicits.
Arguments tick_outcome : clear implicits.

End HTTPServer.

(** Sample values of the runtime, for the instances below: the abstract
    specifications are instantiated with [unit]. *)
Module HTTPServerSamples.
Import HTTPServer.
Local Open Scope Z_scope.

Definition spec80 : Spec unit unit unit :=
  {| Port := 80; HTTPS := false; HTTP3 := false; KeepAlive := true;
     KeepAliveTimeout := "60s"; MaxConnections := 100; CacheSize := 0;
     XForwardedFor := false; Tracing := None; IPFilter := None;
     Rules := Some [tt] |}.

(** The same server with other rules and another connection limit. *)
Definition spec80_rules : Spec unit unit unit :=
  hot_update spec80 200 0 false None None (Some [tt; tt]).

Definition spec81 : Spec unit unit unit :=
  {| Port := 81; HTTPS := false; HTTP3 := false; KeepAlive := true;
     KeepAliveTimeout := "60s"; MaxConnections := 100; CacheSize := 0;
     XForwardedFor := false; Tracing := None; IPFilter := None;
     Rules := Some [tt] |}.

Definition super80 : SuperSpec unit unit unit :=
  {| Name := "server"; ObjectSpec := Some spec80 |}.

(** Every call of [gnet.Listen] succeeds. *)
Definition listen_ok : env := {| listen := fun _ => None |}.

(** A runtime in its third round. *)
Definition round3 : runtime unit unit unit :=
  {| superSpec := super80; spec := Some spec80;
     server := Some {| srv_port := 80; srv_keepAlive := true;
                       srv_idleTimeout := Some "60s"%string; srv_shutdown := false |};
     server3 := None;
     mux := {| mux_superSpec := Some super80; mux_mapper := 0%nat; mux_closed := false |};
     roundNum := 3; state := stateRunning; err := errNil;
     limitListener := Some 100; health := 1; listens := 3%nat; doneClosed := [] |}.

Definition bind_failed : error := Some "listen tcp :80: bind: address already in use"%string.

Definition super80_rules : SuperSpec unit unit unit :=
  {| Name := "server"; ObjectSpec := Some spec80_rules |}.

Definition super81 : SuperSpec unit unit unit :=
  {| Name := "server"; ObjectSpec := Some spec81 |}.

(** A specification that is [nil]. *)
Definition super_nil : SuperSpec unit unit unit :=
  {| Name := "server"; ObjectSpec := None |}.

(** The runtime of round 3 after its server has failed. *)
Definition failed3 : runtime unit unit unit :=
  handleEventServeFailed round3 3 bind_failed.

(** Port 80 over HTTP/3. *)
Definition spec80_h3 : Spec unit unit unit :=
  {| Port := 80; HTTPS := true; HTTP3 := true; KeepAlive := true;
     KeepAliveTimeout := "60s"; MaxConnections := 100; CacheSize := 0;
     XForwardedFor := false; Tracing := None; IPFilter := None;
     Rules := Some [tt] |}.

Definition super80_h3 : SuperSpec unit unit unit :=
  {| Name := "server"; ObjectSpec := Some spec80_h3 |}.

(** A runtime that serves HTTP/3 in its first round. *)
Definition round1_h3 : runtime unit unit unit :=
  {| superSpec := super80_h3; spec := Some spec80_h3;
     server := None;
     server3 := Some {| srv3_port := 80; srv3_maxIdleTimeout := Some "60s"%string;
                        srv3_keepAlivePeriod := Some (Some "60s"%string);
                        srv3_closed := false |};
     mux := {| mux_superSpec := Some super80_h3; mux_mapper := 0%nat; mux_closed := false |};
     roundNum := 1; state := stateRunning; err := errNil;
     limitListener := None; health := 1; listens := 0%nat; doneClosed := [] |}.

End HTTPServerSamples.

(** ** Package [gateway]: the gateway cluster *)

Module Gateway.
Import GoInt GoFloat.

Definition Mode := string.
Definition NilMode : Mode := "".
Definition WriteMode : Mode := "Write".
Definition ReadMode : Mode := "Read".

Definition groupTagKey : string := "group".
Definition modeTagKey : string := "mode".

Definition error := option string.

(** *** Members and groups *)

(** Modelled from the spec: the member status of package [cluster] (not
    among the sources), the enum [{Alive, Suspect, Failed, Left}] of the
    data model. *)
Inductive MemberStatus := MemberAlive | MemberSuspect | MemberFailed | MemberLeft.

#[global] Instance MemberStatus_eq_dec : EqDecision MemberStatus.
Proof. solve_decision. Defined.

(** Modelled from the spec: [cluster.Member], with the fields
    [gateway.go] reads: name, status and tags. *)
Record Member := {
  NodeName : string;
  NodeTags : gmap string string;
  Status : MemberStatus
}.

(** [m[key]] on a Go map of strings: the empty string when [key] is absent. *)
Definition tag (tags : gmap string string) (key : string) : string :=
  default ""%string (tags !! key).

(** [sort.Strings]: ascending in the byte-wise lexicographic order. *)
Definition sort_Strings (l : list string) : list string :=
  merge_sort String.le l.

(** The loop of [groupsInCluster]: [groups] and [groupsBook]. *)
Definition groups_step (acc : list string * gset string) (member : Member)
    : list string * gset string :=
  let '(groups, groupsBook) := acc in
  let group := tag (NodeTags member) groupTagKey in
  if decide (group ∈ groupsBook) then (groups, groupsBook)
  else (groups ++ [group], {[group]} ∪ groupsBook).

(** [groupsInCluster], on the snapshot [gc.cluster.Members()] returns. *)
Definition groupsInCluster (totalMembers : list Member) : list string :=
  let '(groups, _) := foldl groups_step ([], ∅) totalMembers in
  sort_Strings groups.

Definition groupExistInCluster (totalMembers : list Member) (group : string) : bool :=
  existsb (fun name => bool_decide (group = name)) (groupsInCluster totalMembers).

(** [aliveNodesInCluster] for [NoneGroup] given as [noneGroup]. *)
Definition alive_step (noneGroup : string) (mode : Mode) (group : string)
    (acc : list string * gset string) (member : Member) : list string * gset string :=
  let '(nodes, nodesBook) := acc in
  let memberMode := tag (NodeTags member) modeTagKey in
  if bool_decide (Status member = MemberAlive)
     && (bool_decide (mode = NilMode) || bool_decide (mode = memberMode))
     && (bool_decide (group = noneGroup)
         || bool_decide (group = tag (NodeTags member) groupTagKey))
  then
    if decide (NodeName member ∈ nodesBook) then (nodes, nodesBook)
    else (nodes ++ [NodeName member], {[NodeName member]} ∪ nodesBook)
  else (nodes, nodesBook).

Definition aliveNodesInCluster (noneGroup : string) (totalMembers : list Member)
    (mode : Mode) (group : string) : list string :=
  let '(nodes, _) := foldl (alive_step noneGroup mode group) ([], ∅) totalMembers in
  sort_Strings nodes.

(** *** Scatter-gather: [recordResp] *)

(** A byte slice: [None] is [nil], [Some []] is empty and not [nil]. *)
Definition payload := option (list Byte.byte).

Record MemberResponse := {
  ResponseNodeName : string;
  Payload : payload
}.

(** Which case a [select] of [recordResp] takes: a receive on
    [future.Response()] ([None] when the channel is closed, which is how
    the timeout of the future shows), or the one on [gc.stopChan]. *)
Inductive selected :=
  | FromFuture (memberResp : option MemberResponse)
  | FromStopChan.

Inductive recordResp_outcome :=
  | Returned (membersRespBook : gmap string payload)
  | Blocked (membersRespBook : gmap string payload).   (* still in [select] *)

Fixpoint recordResp_loop (sel : list selected) (memberRespCount : nat)
    (membersRespBook : gmap string payload) : recordResp_outcome :=
  if decide (memberRespCount < size membersRespBook)%nat then
    match sel with
    | [] => Blocked membersRespBook
    | FromStopChan :: _ => Returned membersRespBook
    | FromFuture None :: rest =>
        recordResp_loop rest (S memberRespCount) membersRespBook
    | FromFuture (Some memberResp) :: rest =>
        match membersRespBook !! ResponseNodeName memberResp with
        | None =>                                (* unexpected node *)
            recordResp_loop rest (S memberRespCount) membersRespBook
        | Some (Some _) =>                       (* a response is recorded already *)
            recordResp_loop rest (S memberRespCount) membersRespBook
        | Some None =>
            let p := match Payload memberResp with
                     | None => Some []
                     | Some bytes => Some bytes
                     end in
            recordResp_loop rest (S memberRespCount)
              (<[ResponseNodeName memberResp := p]> membersRespBook)
        end
    end
  else Returned membersRespBook.

Definition recordResp (sel : list selected) (membersRespBook : gmap string payload)
    : recordResp_outcome :=
  recordResp_loop sel 0 membersRespBook.

(** A book with one [nil] entry per expected responder. *)
Definition new_book (targets : list string) : gmap string payload :=
  list_to_map (map (fun t => (t, None)) targets).

(** The timeout of the future fired, or shutdown was signalled, among the
    cases the loop took. *)
Definition timeout_seen (sel : list selected) : Prop := FromFuture None ∈ sel.
Definition stop_seen (sel : list selected) : Prop := FromStopChan ∈ sel.

(** *** The request dispatcher *)

(** [MessageType] is a [uint8]. *)
Definition MessageType := N.

(** Modelled from the spec: the message type constants of package
    [gateway] (declared in a file that is not among the sources), with the
    codes of the dispatcher's table: 1 QuerySeq ... 11 OpLogPull. *)
Definition querySeqMessage : MessageType := 1%N.
Definition queryMemberMessage : MessageType := 2%N.
Definition queryMembersListMessage : MessageType := 3%N.
Definition queryGroupMessage : MessageType := 4%N.
Definition operationMessage : MessageType := 5%N.
Definition operationRelayMessage : MessageType := 6%N.
Definition retrieveMessage : MessageType := 7%N.
Definition retrieveRelayMessage : MessageType := 8%N.
Definition statMessage : MessageType := 9%N.
Definition statRelayMessage : MessageType := 10%N.
Definition opLogPullMessage : MessageType := 11%N.

(** What [dispatch] reads of a [cluster.RequestEvent]. *)
Record RequestEvent := {
  RequestName : string;
  RequestNodeName : string;
  RequestPayload : list Byte.byte;
  Closed : bool
}.

Inductive MemberEventType :=
  | MemberJoinEvent | MemberLeftEvent | MemberFailedEvent
  | MemberUpdateEvent | MemberCleanupEvent | MemberOtherEvent.

Record MemberEvent := {
  Type_ : MemberEventType;
  Member_ : Member
}.

Inductive Event :=
  | ARequestEvent (event : RequestEvent)
  | AMemberEvent (event : MemberEvent)
  | AnotherEvent.

(** The handlers [dispatch] starts. *)
Inductive handler :=
  | handleQuerySequence | handleQueryMember | handleQueryMembersList
  | handleQueryGroup | handleOperation | handleOperationRelay
  | handleRetrieve | handleRetrieveRelay | handleStat | handleStatRelay
  | handleOPLogPull.

Inductive level := Debug | Info | Warn | Error.

(** What the cluster code does to the outside. *)
Inductive effect :=
  | Go (h : handler) (event : RequestEvent)            (* [go gc.h(event)] *)
  | Log (l : level)                                    (* a line of the log *)
  | Respond (req : RequestEvent) (bytes : list Byte.byte).      (* [req.Respond] *)

(** The [case *cluster.RequestEvent] of [dispatch]. *)
Definition dispatch_request (mode : Mode) (event : RequestEvent) : list effect :=
  match RequestPayload event with
  | [] => []
  | b :: _ =>
      if Closed event then [Log Warn]
      else
        let t : MessageType := Byte.to_N b in
        if N.eqb t querySeqMessage then [Log Debug; Go handleQuerySequence event]
        else if N.eqb t queryMemberMessage then [Log Debug; Go handleQueryMember event]
        else if N.eqb t queryMembersListMessage then
          [Log Debug; Go handleQueryMembersList event]
        else if N.eqb t queryGroupMessage then [Log Debug; Go handleQueryGroup event]
        else if N.eqb t operationMessage then
          if decide (mode = WriteMode) then [Log Debug; Go handleOperation event]
          else [Log Error]
        else if N.eqb t operationRelayMessage then
          if decide (mode = ReadMode) then [Log Debug; Go handleOperationRelay event]
          else [Log Error]
        else if N.eqb t retrieveMessage then
          if decide (mode = WriteMode) then [Log Debug; Go handleRetrieve event]
          else [Log Error]
        else if N.eqb t retrieveRelayMessage then
          if decide (mode = ReadMode) then [Log Debug; Go handleRetrieveRelay event]
          else [Log Error]
        else if N.eqb t statMessage then [Log Debug; Go handleStat event]
        else if N.eqb t statRelayMessage then [Log Debug; Go handleStatRelay event]
        else if N.eqb t opLogPullMessage then [Log Debug; Go handleOPLogPull event]
        else []
  end.

(** The [case *cluster.MemberEvent]. *)
Definition dispatch_member (event : MemberEvent) : list effect :=
  match Type_ event with
  | MemberJoinEvent => [Log Info]
  | MemberLeftEvent => [Log Info]
  | MemberFailedEvent => [Log Warn]
  | MemberUpdateEvent => [Log Info]
  | MemberCleanupEvent => [Log Debug]
  | MemberOtherEvent => []
  end.

Definition dispatch_event (mode : Mode) (event : Event) : list effect :=
  match event with
  | ARequestEvent e => dispatch_request mode e
  | AMemberEvent e => dispatch_member e
  | AnotherEvent => []
  end.

(** Which case a [select] of [dispatch] takes. *)
Inductive dispatched :=
  | FromEventStream (event : Event)
  | FromStop.

(** [dispatch]: runs until [gc.stopChan] is selected. *)
Fixpoint dispatch (mode : Mode) (sel : list dispatched) : list effect :=
  match sel with
  | [] => []
  | FromStop :: _ => []
  | FromEventStream event :: rest => dispatch_event mode event ++ dispatch mode rest
  end.

(** [handleResp], given what [cluster.PackWithHeader] returns. *)
Definition handleResp (req : RequestEvent) (packed : list Byte.byte + string)
    (respondErr : error) : list effect :=
  match packed with
  | inr _ => [Log Error]
  | inl bytes =>
      Respond req bytes :: match respondErr with Some _ => [Log Error] | None => [] end
  end.

(** The handlers started among the effects, and the responses sent. *)
Definition spawned (effs : list effect) : list (handler * RequestEvent) :=
  omap (fun e => match e with Go h event => Some (h, event) | _ => None end) effs.

Definition responded (effs : list effect) : list RequestEvent :=
  omap (fun e => match e with Respond req _ => Some req | _ => None end) effs.

(** *** Vocabulary of the specification: the dispatcher's table *)

(** The handler of each message type of the table; [None] for a byte that
    is none of them. *)
Definition handler_of (t : MessageType) : option handler :=
  match t with
  | 1%N => Some handleQuerySequence
  | 2%N => Some handleQueryMember
  | 3%N => Some handleQueryMembersList
  | 4%N => Some handleQueryGroup
  | 5%N => Some handleOperation
  | 6%N => Some handleOperationRelay
  | 7%N => Some handleRetrieve
  | 8%N => Some handleRetrieveRelay
  | 9%N => Some handleStat
  | 10%N => Some handleStatRelay
  | 11%N => Some handleOPLogPull
  | _ => None
  end.

(** "Writer only" and "Reader only" of the table's last column. *)
Definition writer_only (t : MessageType) : bool :=
  N.eqb t operationMessage || N.eqb t retrieveMessage.

Definition reader_only (t : MessageType) : bool :=
  N.eqb t operationRelayMessage || N.eqb t retrieveRelayMessage.

(** A node in mode [mode] accepts the message type, as the code decides
    it: a writer-only type needs the mode to be [WriteMode], a reader-only
    type needs it to be [ReadMode]. *)
Definition accepts (mode : Mode) (t : MessageType) : bool :=
  if writer_only t then bool_decide (mode = WriteMode)
  else if reader_only t then bool_decide (mode = ReadMode)
  else true.

(** *** Construction and shutdown *)

Record Config := {
  ClusterGroup : string;
  ClusterMemberMode : Mode;
  ClusterMemberName : string;
  Peers : list string;
  OPLogMaxSeqGapToPull : Z;           (* uint16 *)
  OPLogPullMaxCountOnce : Z;          (* uint16 *)
  OPLogPullInterval : Z;              (* time.Duration *)
  OPLogPullTimeout : Z                (* time.Duration *)
}.

(** The globals of package [option] that [NewGatewayCluster] reads. *)
Record Options := {
  ClusterHost : string;
  PacketBufferBytes : Z;
  GossipInterval : Z;
  Stage : string
}.

(** What [NewGatewayCluster] sets of [cluster.Config]. *)
Record ClusterConfig := {
  cc_NodeName : string;
  cc_NodeTags : gmap string string;
  BindAddress : string;
  AdvertiseAddress : string;
  UDPBufferSize : Z;
  cc_GossipInterval : Z;
  MinLevel : string
}.

Record GatewayCluster := {
  conf : Config;
  clusterConf : ClusterConfig;
  mode : Mode;
  stopChanClosed : bool;              (* [gc.stopChan] has been closed *)
  stopped : bool
}.

(** Modelled from the spec: [common.StrInSlice] (package [common], not
    among the sources), by its name and its use: whether the string is an
    element of the slice. *)
Definition StrInSlice (s : string) (l : list string) : bool :=
  existsb (String.eqb s) l.

Definition Second : Z := 1000000000.

(** [time.Duration.Seconds]. *)
Definition Seconds (d : Z) : float :=
  PrimFloat.add (float64_of_int64 (quot64 d Second))
    (PrimFloat.div (float64_of_int64 (Z.rem d Second)) 1e9%float).

(** What the calls into other packages return during construction. *)
Record new_env := {
  DefaultLANConfig : ClusterConfig;
  Create_result : error;              (* of [cluster.Create] *)
  NewOPLog_result : error
}.

Inductive goroutine := WatchBasis | Dispatch | SyncOpLogLoop.

(** [NewGatewayCluster]: the two results, and the goroutines started.
    Joining the peers only writes to the log, whatever [basis.Join]
    returns. *)
Definition NewGatewayCluster (O : Options) (W : new_env) (conf : Config)
    (mod_is_nil : bool) : option GatewayCluster * error * list goroutine :=
  if mod_is_nil then (None, Some "model is nil"%string, [])
  else if Nat.eqb (String.length (ClusterGroup conf)) 0 then
    (None, Some "empty group"%string, [])
  else if Z.eqb (OPLogMaxSeqGapToPull conf) 0 then
    (None, Some "oplog_max_seq_gap_to_pull must be greater then 0"%string, [])
  else if Z.eqb (OPLogPullMaxCountOnce conf) 0 then
    (None, Some "oplog_pull_max_count_once must be greater then 0"%string, [])
  else if Z.eqb (OPLogPullInterval conf) 0 then
    (None, Some "oplog_pull_interval must be greater than 0"%string, [])
  else if PrimFloat.ltb (Seconds (OPLogPullTimeout conf)) 10%float then
    (None, Some "oplog_pull_timeout must be greater than or equals to 10"%string, [])
  else
    let d := DefaultLANConfig W in
    let basisConf :=
      {| cc_NodeName := ClusterMemberName conf;
         cc_NodeTags := <[modeTagKey := ClusterMemberMode conf]>
                          (<[groupTagKey := ClusterGroup conf]> (cc_NodeTags d));
         BindAddress := ClusterHost O;
         AdvertiseAddress := ClusterHost O;
         UDPBufferSize := PacketBufferBytes O;
         cc_GossipInterval := GossipInterval O;
         MinLevel := if String.eqb (Stage O) "debug" then "DEBUG"%string else "WARN"%string |} in
    if StrInSlice (AdvertiseAddress basisConf) ["127.0.0.1"; "localhost"; "0.0.0.0"]%string then
      (None, Some ("invalid advertise address " +:+ AdvertiseAddress basisConf
                   +:+ ", it should be reachable from peer")%string, [])
    else
      match Create_result W with
      | Some e => (None, Some e, [])
      | None =>
          match NewOPLog_result W with
          | Some e => (None, Some e, [])
          | None =>
              let gc := {| conf := conf; clusterConf := basisConf;
                           mode := ClusterMemberMode conf;
                           stopChanClosed := false; stopped := false |} in
              (Some gc, None,
               [WatchBasis; Dispatch]
               ++ (if decide (mode gc = ReadMode) then [SyncOpLogLoop] else []))
          end
      end.

(** What the calls into other packages do during one [internalStop]:
    [polls] is how often [gc.cluster.NodeStatus()] is not yet [NodeLeft]
    ([None]: it never is). *)
Record stop_env := {
  Leave_result : error;
  polls : option nat;
  Stop_result : error;
  Close_result : error
}.

Inductive stop_effect :=
  | CloseStopChan | ClusterLeave | Sleep | ClusterStop | OPLogClose.

Inductive stop_outcome :=
  | Returns (err : error)
  | Panics                            (* [close] of a closed channel *)
  | Hangs.                            (* the node never leaves *)

Definition with_stopChanClosed (gc : GatewayCluster) : GatewayCluster :=
  {| conf := conf gc; clusterConf := clusterConf gc; mode := mode gc;
     stopChanClosed := true; stopped := stopped gc |}.

Definition with_stopped (gc : GatewayCluster) : GatewayCluster :=
  {| conf := conf gc; clusterConf := clusterConf gc; mode := mode gc;
     stopChanClosed := stopChanClosed gc; stopped := true |}.

(** The end of [internalStop], from [err := gc.log.Close()]. *)
Definition close_log (W : stop_env) (gc : GatewayCluster) (effs : list stop_effect)
    : GatewayCluster * list stop_effect * stop_outcome :=
  match Close_result W with
  | Some e => (gc, effs ++ [OPLogClose], Returns (Some e))
  | None => (with_stopped gc, effs ++ [OPLogClose], Returns None)
  end.

Definition internalStop (W : stop_env) (stopBasis : bool) (gc : GatewayCluster)
    : GatewayCluster * list stop_effect * stop_outcome :=
  if stopped gc then (gc, [], Returns (Some "already stopped"%string))
  else if stopChanClosed gc then (gc, [], Panics)
  else
    let gc := with_stopChanClosed gc in
    let effs := [CloseStopChan] in
    if stopBasis then
      let effs := effs ++ [ClusterLeave] in
      match Leave_result W with
      | Some e => (gc, effs, Returns (Some e))
      | None =>
          match polls W with
          | None => (gc, effs, Hangs)
          | Some n =>
              let effs := effs ++ replicate n Sleep ++ [ClusterStop] in
              match Stop_result W with
              | Some e => (gc, effs, Returns (Some e))
              | None => close_log W gc effs
              end
          end
      end
    else close_log W gc effs.

Definition Stop (W : stop_env) (gc : GatewayCluster)
    : GatewayCluster * list stop_effect * stop_outcome :=
  internalStop W true gc.

Definition Stopped (gc : GatewayCluster) : bool := stopped gc.

(** *** Vocabulary of the specification: addresses *)

Definition digit_of (c : ascii) : option N :=
  let n := N_of_ascii c in
  if (N.leb 48 n && N.leb n 57)%bool then Some (n - 48)%N else None.

(** The dot-separated decimal fields of [s]; [cur] is the field being read. *)
Fixpoint dotted_fields (s : string) (cur : option N) (acc : list N) : option (list N) :=
  match s with
  | EmptyString => match cur with Some n => Some (acc ++ [n]) | None => None end
  | String c rest =>
      if Ascii.eqb c "."%char then
        match cur with
        | Some n => dotted_fields rest None (acc ++ [n])
        | None => None
        end
      else
        match digit_of c with
        | Some d =>
            dotted_fields rest
              (Some (match cur with Some n => 10 * n + d | None => d end)%N) acc
        | None => None
        end
  end.

(** A dotted-quad IPv4 address. *)
Definition parse_ipv4 (s : string) : option (N * N * N * N) :=
  match dotted_fields s None [] with
  | Some [a; b; c; d] =>
      if (N.leb a 255 && N.leb b 255 && N.leb c 255 && N.leb d 255)%bool
      then Some (a, b, c, d) else None
  | _ => None
  end.

(** A loopback address: the block 127.0.0.0/8, [::1], or the name
    [localhost]. *)
Definition is_loopback (host : string) : bool :=
  String.eqb host "localhost" || String.eqb host "::1" ||
  match parse_ipv4 host with
  | Some (a, _, _, _) => N.eqb a 127
  | None => false
  end.

(** The unspecified address: [0.0.0.0] or [::]. *)
Definition is_unspecified (host : string) : bool :=
  String.eqb host "::" ||
  match parse_ipv4 host with
  | Some (a, b, c, d) => N.eqb a 0 && N.eqb b 0 && N.eqb c 0 && N.eqb d 0
  | None => false
  end.

(** *** The remaining methods of the cluster *)

(** [Mode.String]. *)
Definition Mode_String (m : Mode) : string := m.

(** *** Queries on the member snapshot *)

(** [writerInGroup], on the snapshot [gc.cluster.Members()] returns. *)
Fixpoint writerInGroup (totalMembers : list Member) (g : string) : string * error :=
  match totalMembers with
  | [] => (""%string, Some ("writer doesn't exist in group: " +:+ g)%string)
  | member :: rest =>
      if bool_decide (Status member = MemberAlive) then
        let group := tag (NodeTags member) groupTagKey in
        let nodeName := NodeName member in
        let mod_ := tag (NodeTags member) modeTagKey in
        if bool_decide (mod_ = WriteMode) && bool_decide (group = g)
        then (nodeName, None)
        else writerInGroup rest g
      else writerInGroup rest g
  end.

(** The loop of [choosePeerForGroup]: [inl] is the [return] from within the
    loop, [inr] the [candidate] the loop ends with. *)
Fixpoint choosePeer_loop (totalMembers : list Member) (g : string) (candidate : string)
    : string + string :=
  match totalMembers with
  | [] => inr candidate
  | member :: rest =>
      if bool_decide (Status member = MemberAlive) then
        let group := tag (NodeTags member) groupTagKey in
        let nodeName := NodeName member in
        let mod_ := tag (NodeTags member) modeTagKey in
        if bool_decide (group = g) then
          if bool_decide (mod_ = WriteMode) then inl nodeName
          else choosePeer_loop rest g nodeName
        else choosePeer_loop rest g candidate
      else choosePeer_loop rest g candidate
  end.

Definition choosePeerForGroup (totalMembers : list Member) (g : string) : string * error :=
  match choosePeer_loop totalMembers g "" with
  | inl nodeName => (nodeName, None)
  | inr candidate =>
      if bool_decide (candidate = ""%string)
      then (""%string, Some ("group " +:+ g +:+ " doesn't has any peer")%string)
      else (candidate, None)
  end.

(** The first loop of [writerInEveryGroup]: [writerBook] and [groupBook]. *)
Definition writers_step (acc : gmap string string * gset string) (member : Member)
    : gmap string string * gset string :=
  let '(writerBook, groupBook) := acc in
  if bool_decide (Status member = MemberAlive) then
    let group := tag (NodeTags member) groupTagKey in
    let nodeName := NodeName member in
    let mod_ := tag (NodeTags member) modeTagKey in
    let groupBook := {[group]} ∪ groupBook in
    if bool_decide (mod_ = WriteMode) then (<[group := nodeName]> writerBook, groupBook)
    else (writerBook, groupBook)
  else (writerBook, groupBook).

Definition writers_books (totalMembers : list Member) : gmap string string * gset string :=
  foldl writers_step (∅, ∅) totalMembers.

(** The second loop, [for group := range groupBook], over the keys in the
    order [order] in which the run time happens to enumerate the map. *)
Fixpoint collect_writers (writerBook : gmap string string) (order : list string)
    (nodes : list string) : option (list string) * error :=
  match order with
  | [] => (Some nodes, None)
  | group :: rest =>
      match writerBook !! group with
      | Some writer => collect_writers writerBook rest (nodes ++ [writer])
      | None => (None, Some ("writer doesn't exist in group: " +:+ group)%string)
      end
  end.

(** [writerInEveryGroup]; the order of iteration over a Go map is not
    specified, so [order] is any enumeration of the keys of [groupBook]. *)
Definition writerInEveryGroup (totalMembers : list Member) (order : list string)
    : option (list string) * error :=
  collect_writers (writers_books totalMembers).1 order [].

Definition NodeName_of (gc : GatewayCluster) : string := cc_NodeName (clusterConf gc).
Definition Mode_of (gc : GatewayCluster) : Mode := mode gc.
Definition localMemberName (gc : GatewayCluster) : string := ClusterMemberName (conf gc).

(** [localGroupName], on the configuration [gc.cluster.GetConfig()]
    returns. *)
Definition localGroupName (basisConf : ClusterConfig) : string :=
  tag (cc_NodeTags basisConf) groupTagKey.

(** The test of the loop of [RestAliveMembersInSameGroup]. *)
Definition rest_alive (gc : GatewayCluster) (groupName : string) (member : Member) : bool :=
  bool_decide (tag (NodeTags member) groupTagKey = groupName)
  && bool_decide (Status member = MemberAlive)
  && negb (bool_decide (NodeName member = cc_NodeName (clusterConf gc))).

(** The loop of [RestAliveMembersInSameGroup]: [ret], [nil] until the
    first [append], and [members], the lines of the log, here the names. *)
Definition rest_step (gc : GatewayCluster) (groupName : string)
    (acc : option (list Member) * list string) (member : Member)
    : option (list Member) * list string :=
  let '(ret, members) := acc in
  (if rest_alive gc groupName member then Some (default [] ret ++ [member]) else ret,
   members ++ [NodeName member]).

(** [RestAliveMembersInSameGroup], on the snapshot [gc.cluster.Members()]
    and the configuration [gc.cluster.GetConfig()] return. *)
Definition RestAliveMembersInSameGroup (gc : GatewayCluster) (basisConf : ClusterConfig)
    (totalMembers : list Member) : option (list Member) :=
  let groupName := localGroupName basisConf in
  (foldl (rest_step gc groupName) (None, []) totalMembers).1.

(** *** Vocabulary of the properties *)

(** An alive member of group [g], and an alive writer of it. *)
Definition alive_in (g : string) (m : Member) : bool :=
  bool_decide (Status m = MemberAlive)
  && bool_decide (tag (NodeTags m) groupTagKey = g).

Definition alive_writer_in (g : string) (m : Member) : bool :=
  alive_in g m && bool_decide (tag (NodeTags m) modeTagKey = WriteMode).

(** What [aliveNodesInCluster] selects. *)
Definition alive_match (noneGroup : string) (mode : Mode) (group : string) (m : Member)
    : bool :=
  bool_decide (Status m = MemberAlive)
  && (bool_decide (mode = NilMode) || bool_decide (mode = tag (NodeTags m) modeTagKey))
  && (bool_decide (group = noneGroup)
      || bool_decide (group = tag (NodeTags m) groupTagKey)).

(** The handler [dispatch] starts for a request, if any. *)
Definition started (mode : Mode) (ev : RequestEvent) : option (handler * RequestEvent) :=
  match RequestPayload ev with
  | [] => None
  | b :: _ =>
      if Closed ev then None
      else
        match handler_of (Byte.to_N b) with
        | Some h => if accepts mode (Byte.to_N b) then Some (h, ev) else None
        | None => None
        end
  end.

(** The events [dispatch] takes from the stream before the stop channel is
    selected, and the requests among events. *)
Fixpoint before_stop (sel : list dispatched) : list Event :=
  match sel with
  | FromEventStream event :: rest => event :: before_stop rest
  | _ => []
  end.

Definition requests (events : list Event) : list RequestEvent :=
  omap (fun e => match e with ARequestEvent r => Some r | _ => None end) events.

(** The book an outcome of [recordResp] leaves. *)
Definition book_of (o : recordResp_outcome) : gmap string payload :=
  match o with
  | Returned book => book
  | Blocked book => book
  end.

(** What [recordResp] stores for a response: an empty slice for [nil]. *)
Definition recorded (resp : MemberResponse) : payload :=
  match Payload resp with
  | None => Some []
  | Some bytes => Some bytes
  end.

End Gateway.

(** Sample values of the cluster, for the instances below. *)
Module GatewaySamples.
Import Gateway.
Local Open Scope Z_scope.

Definition bytesA : list Byte.byte := [Byte.x01; Byte.x02].
Definition bytesA' : list Byte.byte := [Byte.x03].

(** Node A answers twice; node B is expected too and never answers. *)
Definition A_twice : list selected :=
  [FromFuture (Some {| ResponseNodeName := "A"; Payload := Some bytesA |});
   FromFuture (Some {| ResponseNodeName := "A"; Payload := Some bytesA' |})].

(** A request whose payload starts with the code of [Operation]. *)
Definition operation_request : RequestEvent :=
  {| RequestName := "op"; RequestNodeName := "peer";
     RequestPayload := [Byte.x05; Byte.x2a]; Closed := false |}.

(** A request whose payload starts with a byte, 200, of no message type. *)
Definition unknown_request : RequestEvent :=
  {| RequestName := "x"; RequestNodeName := "peer";
     RequestPayload := [Byte.xc8]; Closed := false |}.

(** A group whose only member has failed. *)
Definition failed_member : Member :=
  {| NodeName := "n1"; NodeTags := {[ groupTagKey := "g1"%string ]};
     Status := MemberFailed |}.

Definition config : Config :=
  {| ClusterGroup := "default"; ClusterMemberMode := WriteMode;
     ClusterMemberName := "node-1"; Peers := [];
     OPLogMaxSeqGapToPull := 5; OPLogPullMaxCountOnce := 5;
     OPLogPullInterval := 10 * Second; OPLogPullTimeout := 30 * Second |}.

Definition options (host : string) : Options :=
  {| ClusterHost := host; PacketBufferBytes := 4000;
     GossipInterval := 200000000; Stage := "prod" |}.

Definition lan_defaults : ClusterConfig :=
  {| cc_NodeName := ""; cc_NodeTags := ∅; BindAddress := "0.0.0.0";
     AdvertiseAddress := ""; UDPBufferSize := 1400; cc_GossipInterval := 200000000;
     MinLevel := "" |}.

(** [cluster.Create] and [NewOPLog] succeed. *)
Definition create_ok : new_env :=
  {| DefaultLANConfig := lan_defaults; Create_result := None;
     NewOPLog_result := None |}.

Definition cluster0 : GatewayCluster :=
  {| conf := config; clusterConf := lan_defaults; mode := WriteMode;
     stopChanClosed := false; stopped := false |}.

(** [gc.cluster.Leave()] fails. *)
Definition leave_fails : stop_env :=
  {| Leave_result := Some "leave timeout"%string; polls := Some 0%nat;
     Stop_result := None; Close_result := None |}.

(** Every call succeeds, the node has left after two polls. *)
Definition stop_ok : stop_env :=
  {| Leave_result := None; polls := Some 2%nat; Stop_result := None;
     Close_result := None |}.

Definition member (name group mode_ : string) (st : MemberStatus) : Member :=
  {| NodeName := name;
     NodeTags := {[ groupTagKey := group; modeTagKey := mode_ ]};
     Status := st |}.

(** Two groups: [g1] with two writers and a reader, [g2] with a writer
    that has failed and a reader. *)
Definition two_groups : list Member :=
  [member "w1" "g1" WriteMode MemberAlive;
   member "r1" "g1" ReadMode MemberAlive;
   member "w2" "g1" WriteMode MemberAlive;
   member "w3" "g2" WriteMode MemberFailed;
   member "r2" "g2" ReadMode MemberAlive].

(** B answers before A. *)
Definition B_then_A : list MemberResponse :=
  [{| ResponseNodeName := "B"; Payload := Some bytesA' |};
   {| ResponseNodeName := "A"; Payload := None |}].

(** [gc.log.Close()] fails. *)
Definition close_fails : stop_env :=
  {| Leave_result := None; polls := Some 1%nat; Stop_result := None;
     Close_result := Some "close failed"%string |}.

End GatewaySamples.

(** * Part II: the properties *)

(** ** The duration sampler *)

Module SamplerProofs.
Import GoInt GoFloat Sampler.
Local Open Scope Z_scope.

(** *** Machine arithmetic within range *)

Lemma wrap_int64_id x : in_int64 x -> wrap_int64 x = x.
Proof.
  unfold in_int64, wrap_int64. intros H.
  rewrite Z.mod_small; lia.
Qed.

Lemma quot_half_bounds r : 0 < r -> 0 <= r ÷ 2 /\ 2 * (r ÷ 2) <= r <= 2 * (r ÷ 2) + 1.
Proof.
  intros Hr. rewrite Z.quot_div_nonneg by lia.
  pose proof (Z.div_mod r 2 ltac:(lia)). pose proof (Z.mod_pos_bound r 2 ltac:(lia)).
  lia.
Qed.

(** *** The segment table *)

Lemma total_slots_cons s segs : total_slots (s :: segs) = slots s + total_slots segs.
Proof. reflexivity. Qed.

Lemma total_bound_cons s segs :
  total_bound (s :: segs) = resolution s * slots s + total_bound segs.
Proof. reflexivity. Qed.

Lemma total_slots_nonneg segs : Forall segment_ok segs -> 0 <= total_slots segs.
Proof.
  induction 1 as [|s segs (? & ? & ?) _ IH]; [done|].
  rewrite total_slots_cons. lia.
Qed.

Lemma total_bound_nonneg segs : Forall segment_ok segs -> 0 <= total_bound segs.
Proof.
  induction 1 as [|s segs (Hr & Hs & ?) _ IH]; [done|].
  rewrite total_bound_cons. pose proof (Z.mul_pos_pos _ _ Hr Hs). lia.
Qed.

Lemma segments_ok : Forall segment_ok segments.
Proof. repeat constructor; vm_compute; done. Qed.

Lemma segments_total_slots : total_slots segments = 2000.
Proof. reflexivity. Qed.

Lemma segments_total_bound : total_bound segments = 257000 * Millisecond.
Proof. reflexivity. Qed.

(** *** The slot index *)

(** Within the range of [int64] the wrap-around is the identity. *)
Ltac unwrap64 :=
  unfold mul64, sub64, add64, quot64;
  repeat match goal with
         | |- context [wrap_int64 ?x] =>
             rewrite (wrap_int64_id x) by (unfold in_int64; lia)
         end.

(** One round of the loop of [Update], without the wrap-around: it does
    not occur for a duration that is not below minus half the resolution. *)
Lemma Update_loop_cons s rest d idx :
  segment_ok s -> - (resolution s ÷ 2) <= d < 2 ^ 63 ->
  0 <= idx -> idx + slots s < 2 ^ 62 ->
  Update_loop (s :: rest) d idx =
    if d <? resolution s * slots s - resolution s ÷ 2
    then idx + (d + resolution s ÷ 2) `div` resolution s
    else Update_loop rest (d - resolution s * slots s) (idx + slots s).
Proof.
  intros (Hr & Hs & Hb) Hd Hidx Htot.
  pose proof (quot_half_bounds _ Hr) as [Hh0 Hh1].
  assert (Hhr : resolution s ÷ 2 <= resolution s * slots s) by nia.
  cbn [Update_loop]. unwrap64.
  destruct (Z.ltb_spec d (resolution s * slots s - resolution s ÷ 2)) as [Hlt|Hge].
  - unwrap64. rewrite Z.quot_div_nonneg by lia.
    assert (Hq : 0 <= (d + resolution s ÷ 2) `div` resolution s < slots s).
    { split; [apply Z.div_pos; lia | apply Z.div_lt_upper_bound; lia]. }
    unwrap64. done.
  - unwrap64. done.
Qed.

(** The next segment is entered with a duration that is not below minus
    half its resolution, the resolutions ascending. *)
Lemma Update_loop_next s rest d :
  segment_ok s ->
  Forall (fun t => resolution s <= resolution t) rest ->
  resolution s * slots s - resolution s ÷ 2 <= d ->
  forall t, head rest = Some t -> - (resolution t ÷ 2) <= d - resolution s * slots s.
Proof.
  intros (Hr & _) Hres Hge t Ht. destruct rest as [|t' rest']; [done|].
  injection Ht as ->. apply Forall_cons in Hres as [Hres _].
  pose proof (Z.quot_le_mono (resolution s) (resolution t) 2 ltac:(lia) Hres). lia.
Qed.

(** Where the loop of [Update] stops, for a duration [d] that is not below
    minus half the first resolution: in slot [i] of a segment [s], or past
    the last segment. *)
Lemma Update_loop_spec segs : forall d idx,
  Forall segment_ok segs ->
  StronglySorted (fun s t => resolution s <= resolution t) segs ->
  (forall s, head segs = Some s -> - (resolution s ÷ 2) <= d) ->
  d < 2 ^ 63 -> 0 <= idx -> idx + total_slots segs < 2 ^ 62 ->
  (exists pre s post i,
     segs = pre ++ s :: post /\ 0 <= i < slots s /\
     Update_loop segs d idx = idx + total_slots pre + i /\
     resolution s * i <= d - total_bound pre + resolution s ÷ 2 < resolution s * (i + 1)) \/
  (Update_loop segs d idx = idx + total_slots segs /\
   (segs <> [] -> total_bound segs - last_half segs <= d)).
Proof.
  induction segs as [|s rest IH]; intros d idx Hok Hsorted Hd Hmax Hidx Htot.
  - right. cbn. split; [lia|done].
  - apply Forall_cons in Hok as [Hs Hok].
    apply StronglySorted_inv in Hsorted as [Hsorted Hle].
    specialize (Hd s eq_refl). rewrite total_slots_cons in Htot.
    pose proof Hs as (Hr & Hsl & Hb).
    pose proof (quot_half_bounds _ Hr) as [Hh0 Hh1].
    pose proof (total_slots_nonneg _ Hok) as Hts.
    rewrite Update_loop_cons by (done || lia).
    destruct (Z.ltb_spec d (resolution s * slots s - resolution s ÷ 2)) as [Hlt|Hge].
    + left. exists [], s, rest, ((d + resolution s ÷ 2) `div` resolution s).
      assert (Hq : 0 <= (d + resolution s ÷ 2) `div` resolution s < slots s).
      { split; [apply Z.div_pos; lia | apply Z.div_lt_upper_bound; lia]. }
      split; [done|]. split; [done|]. split; [cbn; lia|].
      change (total_bound []) with 0.
      pose proof (Z.div_mod (d + resolution s ÷ 2) (resolution s) ltac:(lia)).
      pose proof (Z.mod_pos_bound (d + resolution s ÷ 2) (resolution s) ltac:(lia)).
      lia.
    + destruct (IH (d - resolution s * slots s) (idx + slots s) Hok Hsorted
                  (Update_loop_next s rest d Hs Hle Hge))
        as [(pre & s' & post & i & -> & Hi & Hj & Hdi)|[Hj Hov]]; try lia.
      * left. exists (s :: pre), s', post, i.
        rewrite total_slots_cons, total_bound_cons.
        split; [done|]. split; [done|]. split; lia.
      * right. rewrite total_slots_cons, total_bound_cons. split; [lia|].
        intros _. unfold last_half in *. destruct rest as [|t rest'].
        -- cbn. lia.
        -- specialize (Hov ltac:(done)). cbn [last] in *. lia.
Qed.

Lemma total_slots_app pre post :
  total_slots (pre ++ post) = total_slots pre + total_slots post.
Proof.
  induction pre as [|s pre IH]; [done|].
  cbn [app]. rewrite !total_slots_cons, IH. lia.
Qed.

Lemma total_bound_app pre post :
  total_bound (pre ++ post) = total_bound pre + total_bound post.
Proof.
  induction pre as [|s pre IH]; [done|].
  cbn [app]. rewrite !total_bound_cons, IH. lia.
Qed.

Lemma last_half_le_total_bound segs :
  Forall segment_ok segs -> last_half segs <= total_bound segs.
Proof.
  induction 1 as [|s segs (Hr & Hs & Hb) Hok IH]; [done|].
  rewrite total_bound_cons. pose proof (quot_half_bounds _ Hr).
  pose proof (total_bound_nonneg _ Hok).
  unfold last_half in *. destruct segs as [|t segs']; cbn [last] in *; [nia|lia].
Qed.

Lemma last_half_app_cons pre s post :
  last_half (pre ++ s :: post) = last_half (s :: post).
Proof. unfold last_half. by rewrite last_app_cons. Qed.

(** The index is past the table exactly from the coverage of the table,
    less half the last resolution, on. *)
Lemma Update_loop_overflow segs d idx :
  segs <> [] ->
  Forall segment_ok segs ->
  StronglySorted (fun s t => resolution s <= resolution t) segs ->
  (forall s, head segs = Some s -> - (resolution s ÷ 2) <= d) ->
  d < 2 ^ 63 -> 0 <= idx -> idx + total_slots segs < 2 ^ 62 ->
  idx <= Update_loop segs d idx <= idx + total_slots segs /\
  (Update_loop segs d idx = idx + total_slots segs <->
   total_bound segs - last_half segs <= d).
Proof.
  intros Hne Hok Hsorted Hd Hmax Hidx Htot.
  destruct (Update_loop_spec segs d idx Hok Hsorted Hd Hmax Hidx Htot)
    as [(pre & s & post & i & -> & Hi & -> & Hdi)|[-> Hov]].
  - rewrite total_slots_app, total_slots_cons, total_bound_app, total_bound_cons.
    rewrite last_half_app_cons.
    apply Forall_app in Hok as [Hpre [(Hr & Hs & Hb) Hpost]%Forall_cons].
    pose proof (total_slots_nonneg _ Hpre). pose proof (total_slots_nonneg _ Hpost).
    pose proof (total_bound_nonneg _ Hpost).
    pose proof (last_half_le_total_bound _ Hpost) as Hl.
    pose proof (quot_half_bounds _ Hr).
    assert (resolution s * (i + 1) <= resolution s * slots s) by nia.
    assert (last_half (s :: post) <= resolution s ÷ 2 + total_bound post).
    { unfold last_half in *. destruct post as [|t post']; cbn [last] in *; lia. }
    split; [lia|]. split; lia.
  - pose proof (total_slots_nonneg _ Hok). split; [lia|]. split; auto.
Qed.

Lemma segments_sorted :
  StronglySorted (fun s t => resolution s <= resolution t) segments.
Proof. repeat constructor; vm_compute; discriminate. Qed.

Lemma segments_last_half : last_half segments = 512 * Millisecond.
Proof. reflexivity. Qed.

Lemma Update_index_range d :
  0 <= d < 2 ^ 63 ->
  0 <= Update_index d <= 2000 /\
  (Update_index d = 2000 <-> overflow_from <= d).
Proof.
  intros [Hd0 Hd1]. unfold Update_index.
  assert (Hhead : forall s, head segments = Some s -> - (resolution s ÷ 2) <= d).
  { intros s [= <-]. change (- (resolution _ ÷ 2)) with (- 500000). lia. }
  apply (Update_loop_overflow segments d 0 ltac:(done) segments_ok segments_sorted
           Hhead Hd1 ltac:(done) ltac:(done)).
Qed.

(** C10.  For a duration that is not negative, the index [Update] computes
    lies between 0 and 2000, within the 2001 slots [NewDurationSampler]
    allocates (one more than the segments have together), so [Update] does
    not panic; from the coverage of the table
    (257 s) on, the index is that of the last slot, 2000.  For the negative
    duration -2 ms the index is -1 and [Update] panics. *)
Theorem Update_index_in_bounds (d : Duration) :
  0 <= d -> d < 2 ^ 63 ->
  0 <= Update_index d <= 2000 /\
  length (durations NewDurationSampler) = 2001%nat /\
  Z.of_nat (length (durations NewDurationSampler)) = total_slots segments + 1 /\
  is_Some (Update NewDurationSampler d) /\
  (total_bound segments <= d -> Update_index d = 2000) /\
  Update_index (-2 * Millisecond) = -1 /\
  Update NewDurationSampler (-2 * Millisecond) = None.
Proof.
  intros Hd0 Hd1. destruct (Update_index_range d ltac:(done)) as [Hr Hov].
  split; [done|]. split; [reflexivity|]. split; [reflexivity|].
  split; [|split; [|split; reflexivity]].
  - unfold Update.
    replace (length (durations NewDurationSampler)) with 2001%nat by reflexivity.
    destruct (Z.leb_spec 0 (Update_index d)); [|lia].
    destruct (Z.ltb_spec (Update_index d) (Z.of_nat 2001)); [|lia]. by eexists.
  - rewrite segments_total_bound. intros Hd. apply Hov. unfold overflow_from.
    unfold Millisecond in *. lia.
Qed.

Lemma Update_index_in_bounds_witness :
  0 <= Update_index (750 * Millisecond) <= 2000 /\
  Update_index (300000 * Millisecond) = 2000.
Proof.
  split.
  - apply (Update_index_in_bounds (750 * Millisecond)); done.
  - apply (Update_index_in_bounds (300000 * Millisecond)); done.
Defined.

End SamplerProofs.

(** ** The comparison in [float64]

    [Percentiles] tests [float64(count) / float64(total) >= p].  The
    primitive operations are specified by the IEEE 754 functions of
    [SpecFloat]; from them, the test is shown to decide [count/total >=
    a/b] for every total below [2^32].  Two fractions [c/n] and [a/b] that
    differ do so by [1/(b*n) > 2^-42], far more than the rounding of the
    quotient and of the constant; when they are equal, the quotient rounds
    to the constant. *)

Module Float64Proofs.
Import Sampler GoFloat.
Local Open Scope Z_scope.

(** *** Bit lengths *)

(** [digits2_pos p] is the number of bits of [p]. *)
Lemma digits2_pos_bounds p :
  2 ^ (Z.pos (digits2_pos p) - 1) <= Z.pos p < 2 ^ Z.pos (digits2_pos p).
Proof.
  induction p as [p IH|p IH|]; cbn [digits2_pos]; [| |done].
  all: rewrite Pos2Z.inj_succ;
    replace (Z.succ (Z.pos (digits2_pos p)) - 1) with (Z.succ (Z.pos (digits2_pos p) - 1)) by lia;
    rewrite !Z.pow_succ_r by lia; lia.
Qed.

Lemma digits2_pos_unique p d :
  2 ^ (d - 1) <= Z.pos p < 2 ^ d -> Z.pos (digits2_pos p) = d.
Proof.
  intros [Hlo Hhi]. pose proof (digits2_pos_bounds p) as [Hlo' Hhi'].
  assert (0 < d).
  { destruct (Z.lt_trichotomy d 0) as [?|[->|?]]; [|lia|done].
    rewrite Z.pow_neg_r in Hhi; lia. }
  destruct (Z.lt_trichotomy (Z.pos (digits2_pos p)) d) as [Hlt|[?|Hgt]]; [|done|].
  - assert (2 ^ Z.pos (digits2_pos p) <= 2 ^ (d - 1)) by (apply Z.pow_le_mono_r; lia). lia.
  - assert (2 ^ d <= 2 ^ (Z.pos (digits2_pos p) - 1)) by (apply Z.pow_le_mono_r; lia). lia.
Qed.

(** The left shift of [shl_align]. *)
Lemma iter_xO p k : Z.pos (Pos.iter xO p k) = Z.pos p * 2 ^ Z.pos k.
Proof.
  induction k as [|k IH] using Pos.peano_ind.
  - cbn. lia.
  - rewrite Pos.iter_succ, Pos2Z.inj_succ, Z.pow_succ_r by lia.
    rewrite Pos2Z.inj_xO, IH. lia.
Qed.

(** *** Rounding *)

Lemma Zdigits2_unique q d : 2 ^ (d - 1) <= q < 2 ^ d -> 0 < q -> Zdigits2 q = d.
Proof.
  intros Hq Hpos. destruct q as [|p|p]; [lia| |lia]. by apply digits2_pos_unique.
Qed.

Lemma shr_m_of_loc m l : shr_m (shr_record_of_loc m l) = m.
Proof. by destruct l as [|[]]. Qed.

Lemma loc_of_shr_record_of_loc m l : loc_of_shr_record (shr_record_of_loc m l) = l.
Proof. by destruct l as [|[]]. Qed.

(** One step of [shr] halves the mantissa. *)
Lemma shr_m_shr_1 mrs : 0 <= shr_m mrs -> shr_m (shr_1 mrs) = shr_m mrs / 2.
Proof.
  destruct mrs as [m r s]. cbn [shr_m]. intros Hm.
  destruct m as [|[p|p|]|p]; cbn [shr_1 shr_m]; [| | | |lia].
  - done.
  - rewrite Pos2Z.inj_xI. apply Z.div_unique with 1; lia.
  - rewrite Pos2Z.inj_xO. apply Z.div_unique with 0; lia.
  - done.
Qed.

(** A mantissa of 53 bits is not shifted. *)
Lemma shr_fexp_53 q e l :
  2 ^ 52 <= q < 2 ^ 53 -> -1074 <= e ->
  shr_fexp prec emax q e l = (shr_record_of_loc q l, e).
Proof.
  intros Hq He. unfold shr_fexp. rewrite (Zdigits2_unique q 53) by lia.
  unfold fexp, emin, prec, emax.
  replace (Z.max (53 + e - 53) (3 - 1024 - 53) - e) with 0 by lia. done.
Qed.

(** A mantissa of 54 bits is shifted by one. *)
Lemma shr_fexp_54 q e l :
  2 ^ 53 <= q < 2 ^ 54 -> -1075 <= e ->
  shr_fexp prec emax q e l = (shr_1 (shr_record_of_loc q l), e + 1).
Proof.
  intros Hq He. unfold shr_fexp. rewrite (Zdigits2_unique q 54) by lia.
  unfold fexp, emin, prec, emax.
  replace (Z.max (54 + e - 53) (3 - 1024 - 53) - e) with 1 by lia. done.
Qed.

(** Rounding to nearest even keeps the mantissa or adds one. *)
Lemma round_nearest_even_bounds m l :
  m <= round_nearest_even m l <= m + 1.
Proof. destruct l as [|[]]; cbn; [lia| |lia|lia]. destruct (Z.even m); lia. Qed.

(** The second pass of [binary_round_aux] on a mantissa that the rounding
    has left at 53 bits, or has carried to [2^53]. *)
Lemma binary_round_aux_pass2 m e :
  2 ^ 52 <= m <= 2 ^ 53 -> -1074 <= e <= 900 ->
  exists M j,
    (let '(mrs, e') := shr_fexp prec emax m e loc_Exact in
     match shr_m mrs with
     | Z0 => S754_zero false
     | Zpos m' => if e' <=? emax - prec then S754_finite false m' e' else S754_infinity false
     | Zneg _ => S754_nan
     end) = S754_finite false M (e + j) /\
    2 ^ 52 <= Z.pos M < 2 ^ 53 /\ 0 <= j <= 1 /\ Z.pos M * 2 ^ j = m.
Proof.
  intros Hm He. destruct (Z.eq_dec m (2 ^ 53)) as [->|Hne].
  - exists (2 ^ 52)%positive, 1. rewrite shr_fexp_54 by lia. cbn [shr_record_of_loc shr_1 shr_m].
    split; [|done]. cbn -[Z.leb]. unfold emax, prec.
    by destruct (Z.leb_spec (e + 1) (1024 - 53)); [|lia].
  - rewrite shr_fexp_53 by lia. cbn [shr_record_of_loc shr_m].
    destruct m as [|M|M]; [lia| |lia]. exists M, 0.
    unfold emax, prec. destruct (Z.leb_spec e (1024 - 53)); [|lia].
    rewrite Z.add_0_r. split; [done|]. lia.
Qed.

(** [binary_round_aux] on a quotient of 53 or 54 bits gives a normal number
    within two units of the quotient. *)
Lemma binary_round_aux_bracket q e l :
  2 ^ 52 <= q < 2 ^ 54 -> -1074 <= e <= 800 ->
  exists M j,
    binary_round_aux prec emax false q e l = S754_finite false M (e + j) /\
    2 ^ 52 <= Z.pos M < 2 ^ 53 /\ 0 <= j <= 2 /\
    q - 1 <= Z.pos M * 2 ^ j <= q + 2.
Proof.
  intros Hq He. unfold binary_round_aux.
  destruct (Z.lt_ge_cases q (2 ^ 53)) as [Hlt|Hge].
  - rewrite shr_fexp_53 by lia. rewrite shr_m_of_loc, loc_of_shr_record_of_loc.
    pose proof (round_nearest_even_bounds q l) as Hr.
    destruct (binary_round_aux_pass2 (round_nearest_even q l) e ltac:(lia) ltac:(lia))
      as (M & j & -> & HM & Hj & Hv).
    exists M, j. repeat split; try lia.
  - rewrite shr_fexp_54 by lia.
    set (mrs := shr_1 (shr_record_of_loc q l)).
    assert (Hm : shr_m mrs = q / 2).
    { unfold mrs. rewrite shr_m_shr_1; rewrite shr_m_of_loc; [done|lia]. }
    rewrite Hm.
    pose proof (round_nearest_even_bounds (q / 2) (loc_of_shr_record mrs)) as Hr.
    assert (2 ^ 52 <= q / 2 < 2 ^ 53).
    { split; [apply Z.div_le_lower_bound; lia | apply Z.div_lt_upper_bound; lia]. }
    destruct (binary_round_aux_pass2 (round_nearest_even (q / 2) (loc_of_shr_record mrs))
                (e + 1) ltac:(lia) ltac:(lia)) as (M & j & -> & HM & Hj & Hv).
    exists M, (1 + j). rewrite Z.add_assoc. repeat split; try lia.
    all: rewrite Z.pow_add_r by lia; change (2 ^ 1) with 2.
    all: pose proof (Z.div_mod q 2 ltac:(lia)); pose proof (Z.mod_pos_bound q 2 ltac:(lia)); lia.
Qed.

(** *** Conversion and division *)

(** A mantissa of 53 bits with nothing to round is kept. *)
Lemma binary_round_aux_exact m e :
  2 ^ 52 <= Z.pos m < 2 ^ 53 -> -1074 <= e <= 971 ->
  binary_round_aux prec emax false (Z.pos m) e loc_Exact = S754_finite false m e.
Proof.
  intros Hm He. unfold binary_round_aux.
  rewrite shr_fexp_53 by lia. cbn [shr_record_of_loc shr_m loc_of_shr_record round_nearest_even].
  rewrite shr_fexp_53 by lia. cbn [shr_record_of_loc shr_m].
  unfold emax, prec. by destruct (Z.leb_spec e (1024 - 53)); [|lia].
Qed.

(** [float64(c)] for a [c] of [d] bits, [d < 53]: the mantissa is [c]
    shifted to 53 bits. *)
Lemma binary_normalize_pos c d :
  2 ^ (d - 1) <= c < 2 ^ d -> 0 < d < 53 ->
  exists m,
    binary_normalize prec emax c 0 false = S754_finite false m (d - 53) /\
    Z.pos m = c * 2 ^ (53 - d).
Proof.
  intros Hc Hd. destruct c as [|p|p]; [lia| |lia].
  cbn [binary_normalize]. unfold binary_round.
  rewrite (digits2_pos_unique p d) by done.
  unfold fexp, emin, prec, emax.
  replace (Z.max (d + 0 - 53) (3 - 1024 - 53)) with (Z.neg (Z.to_pos (53 - d))) by lia.
  cbn [shl_align Z.sub Z.opp Z.add].
  pose proof (iter_xO p (Z.to_pos (53 - d))) as Hm.
  rewrite Z2Pos.id in Hm by lia.
  exists (Pos.iter xO p (Z.to_pos (53 - d))).
  replace (d - 53) with (Z.neg (Z.to_pos (53 - d))) by lia.
  split; [|done]. apply binary_round_aux_exact; [|lia].
  rewrite Hm. split.
  - replace 52 with ((d - 1) + (53 - d)) by lia. rewrite Z.pow_add_r by lia.
    apply Z.mul_le_mono_nonneg_r; [apply Z.pow_nonneg|]; lia.
  - replace 53 with (d + (53 - d)) at 2 by lia. rewrite Z.pow_add_r by lia.
    apply Z.mul_lt_mono_pos_r; [apply Z.pow_pos_nonneg|]; lia.
Qed.

(** [float64(c)] below [2^63] is the rounding of [c]. *)
Lemma Prim2SF_float64_of_uint64 c :
  0 <= c < 2 ^ 63 ->
  Prim2SF (float64_of_uint64 c) = binary_normalize prec emax c 0 false.
Proof.
  intros Hc. unfold float64_of_uint64.
  destruct (Z.ltb_spec c (2 ^ 63)); [|lia].
  rewrite of_uint63_spec. f_equal.
  rewrite Uint63.of_Z_spec. apply Z.mod_small. done.
Qed.

(** The division of two normal numbers of close exponents: the quotient
    of the mantissas, the dividend shifted by 53 bits, is rounded. *)
Lemma SFdiv_normal m1 e1 m2 e2 :
  2 ^ 52 <= Z.pos m1 < 2 ^ 53 -> 2 ^ 52 <= Z.pos m2 < 2 ^ 53 ->
  -1000 <= e1 - e2 <= 1000 ->
  SFdiv prec emax (S754_finite false m1 e1) (S754_finite false m2 e2)
  = binary_round_aux prec emax false
      (Z.pos m1 * 2 ^ 53 / Z.pos m2) (e1 - e2 - 53)
      (new_location (Z.pos m2) (Z.pos m1 * 2 ^ 53 mod Z.pos m2)).
Proof.
  intros Hm1 Hm2 He. cbn [SFdiv xorb]. unfold SFdiv_core_binary.
  rewrite (Zdigits2_unique (Z.pos m1) 53), (Zdigits2_unique (Z.pos m2) 53) by lia.
  unfold fexp, emin, prec, emax.
  replace (Z.min (Z.max (53 + e1 - (53 + e2) - 53) (3 - 1024 - 53)) (e1 - e2))
    with (e1 - e2 - 53) by lia.
  replace (e1 - e2 - (e1 - e2 - 53)) with 53 by lia.
  rewrite Z.shiftl_mul_pow2 by lia.
  unfold Z.div, Z.modulo.
  by destruct (Z.div_eucl (Z.pos m1 * 2 ^ 53) (Z.pos m2)).
Qed.

(** The bit lengths of the two operands. *)
Lemma digits_exist c : 0 < c -> exists d, 0 < d /\ 2 ^ (d - 1) <= c < 2 ^ d.
Proof.
  intros Hc. destruct c as [|p|p]; [lia| |lia].
  exists (Z.pos (digits2_pos p)). split; [lia|]. apply digits2_pos_bounds.
Qed.

Lemma digits_mono c n dc dn :
  2 ^ (dc - 1) <= c < 2 ^ dc -> 2 ^ (dn - 1) <= n < 2 ^ dn ->
  0 < dc -> 0 < dn -> c <= n -> dc <= dn.
Proof.
  intros Hc Hn Hdc Hdn Hcn. destruct (Z.le_gt_cases dc dn) as [|Hgt]; [done|].
  assert (2 ^ dn <= 2 ^ (dc - 1)) by (apply Z.pow_le_mono_r; lia). lia.
Qed.

Lemma digits_le_32 n dn :
  2 ^ (dn - 1) <= n < 2 ^ dn -> 0 < dn -> n < 2 ^ 32 -> dn <= 32.
Proof.
  intros Hn Hdn Hlt. destruct (Z.le_gt_cases dn 32) as [|Hgt]; [done|].
  assert (2 ^ 32 <= 2 ^ (dn - 1)) by (apply Z.pow_le_mono_r; lia). lia.
Qed.

(** The quotient [float64(c) / float64(n)] is the rounding of the integer
    quotient [c * 2^s / n], the shift [s] bringing it to 53 or 54 bits. *)
Lemma div_as_round c n dc dn :
  2 ^ (dc - 1) <= c < 2 ^ dc -> 2 ^ (dn - 1) <= n < 2 ^ dn ->
  0 < dc <= dn -> dn <= 32 ->
  Prim2SF (PrimFloat.div (float64_of_uint64 c) (float64_of_uint64 n)) =
  binary_round_aux prec emax false
    (c * 2 ^ (53 + dn - dc) / n) (- (53 + dn - dc))
    (new_location (n * 2 ^ (53 - dn)) ((c * 2 ^ (53 + dn - dc)) mod n * 2 ^ (53 - dn))).
Proof.
  intros Hc Hn Hdc Hdn.
  assert (2 ^ dc <= 2 ^ 32 /\ 2 ^ dn <= 2 ^ 32) as [? ?]
    by (split; apply Z.pow_le_mono_r; lia).
  rewrite div_spec, !Prim2SF_float64_of_uint64 by lia.
  destruct (binary_normalize_pos c dc Hc ltac:(lia)) as (m1 & -> & Hm1).
  destruct (binary_normalize_pos n dn Hn ltac:(lia)) as (m2 & -> & Hm2).
  assert (Hg : 0 < 2 ^ (53 - dn)) by (apply Z.pow_pos_nonneg; lia).
  assert (Hb1 : 2 ^ 52 <= Z.pos m1 < 2 ^ 53).
  { rewrite Hm1. split.
    - replace 52 with ((dc - 1) + (53 - dc)) by lia. rewrite Z.pow_add_r by lia.
      apply Z.mul_le_mono_nonneg_r; [apply Z.pow_nonneg|]; lia.
    - replace 53 with (dc + (53 - dc)) at 2 by lia. rewrite Z.pow_add_r by lia.
      apply Z.mul_lt_mono_pos_r; [apply Z.pow_pos_nonneg|]; lia. }
  assert (Hb2 : 2 ^ 52 <= Z.pos m2 < 2 ^ 53).
  { rewrite Hm2. split.
    - replace 52 with ((dn - 1) + (53 - dn)) by lia. rewrite Z.pow_add_r by lia.
      apply Z.mul_le_mono_nonneg_r; [apply Z.pow_nonneg|]; lia.
    - replace 53 with (dn + (53 - dn)) at 2 by lia. rewrite Z.pow_add_r by lia.
      apply Z.mul_lt_mono_pos_r; [apply Z.pow_pos_nonneg|]; lia. }
  unfold SF64div. rewrite SFdiv_normal by (done || lia).
  assert (Hnum : Z.pos m1 * 2 ^ 53 = c * 2 ^ (53 + dn - dc) * 2 ^ (53 - dn)).
  { rewrite Hm1, <- !Z.mul_assoc, <- !Z.pow_add_r by lia. do 2 f_equal. lia. }
  rewrite Hnum, Hm2.
  rewrite Z.div_mul_cancel_r by lia. rewrite Z.mul_mod_distr_r by lia.
  f_equal. lia.
Qed.

(** The quotient has 53 or 54 bits. *)
Lemma quotient_bits c n dc dn :
  2 ^ (dc - 1) <= c < 2 ^ dc -> 2 ^ (dn - 1) <= n < 2 ^ dn ->
  0 < dc <= dn ->
  2 ^ 52 <= c * 2 ^ (53 + dn - dc) / n < 2 ^ 54.
Proof.
  intros Hc Hn Hd.
  assert (HS : 2 ^ (53 + dn - dc) * 2 ^ (dc - 1) = 2 ^ 53 * 2 ^ (dn - 1)).
  { rewrite <- !Z.pow_add_r by lia. f_equal. lia. }
  assert (H2c : 2 ^ dc = 2 * 2 ^ (dc - 1)).
  { replace dc with (Z.succ (dc - 1)) at 1 by lia. apply Z.pow_succ_r. lia. }
  assert (H2n : 2 ^ dn = 2 * 2 ^ (dn - 1)).
  { replace dn with (Z.succ (dn - 1)) at 1 by lia. apply Z.pow_succ_r. lia. }
  assert (0 < 2 ^ (53 + dn - dc)) by (apply Z.pow_pos_nonneg; lia).
  set (P := 2 ^ (53 + dn - dc)) in *.
  set (Pc := 2 ^ (dc - 1)) in *. set (Pn := 2 ^ (dn - 1)) in *.
  split.
  - apply Z.div_le_lower_bound; [lia|]. nia.
  - apply Z.div_lt_upper_bound; [lia|]. nia.
Qed.

(** *** Comparison *)

(** On normal numbers, [SFleb] is the order of the values. *)
Lemma SFleb_normal m1 e1 m2 e2 :
  2 ^ 52 <= Z.pos m1 < 2 ^ 53 -> 2 ^ 52 <= Z.pos m2 < 2 ^ 53 ->
  -90 <= e1 -> -90 <= e2 ->
  SFleb (S754_finite false m1 e1) (S754_finite false m2 e2)
  = (Z.pos m1 * 2 ^ (e1 + 90) <=? Z.pos m2 * 2 ^ (e2 + 90)).
Proof.
  intros Hm1 Hm2 He1 He2. unfold SFleb, SFcompare.
  assert (0 < 2 ^ (e1 + 90)) by (apply Z.pow_pos_nonneg; lia).
  assert (0 < 2 ^ (e2 + 90)) by (apply Z.pow_pos_nonneg; lia).
  destruct (Z.compare_spec e1 e2) as [->|Hlt|Hgt].
  - change (Pos.compare_cont Eq m1 m2) with (Z.pos m1 ?= Z.pos m2).
    destruct (Z.compare_spec (Z.pos m1) (Z.pos m2)) as [->|?|?];
      symmetry; [apply Z.leb_le|apply Z.leb_le|apply Z.leb_gt]; nia.
  - symmetry. apply Z.leb_le.
    assert (2 * 2 ^ (e1 + 90) <= 2 ^ (e2 + 90)).
    { rewrite <- Z.pow_succ_r by lia. apply Z.pow_le_mono_r; lia. }
    nia.
  - symmetry. apply Z.leb_gt.
    assert (2 * 2 ^ (e2 + 90) <= 2 ^ (e1 + 90)).
    { rewrite <- Z.pow_succ_r by lia. apply Z.pow_le_mono_r; lia. }
    nia.
Qed.

(** The rounded quotient, scaled by [2^90] and multiplied by [n], is within
    [2^38 * n] of [c * 2^90]. *)
Lemma quotient_bracket c n P W q X :
  P * W = 2 ^ 90 -> 0 < W <= 2 ^ 37 -> 0 < n ->
  n * q <= c * P < n * q + n -> q - 1 <= X <= q + 2 ->
  c * 2 ^ 90 - 2 ^ 38 * n < n * (X * W) <= c * 2 ^ 90 + 2 ^ 38 * n.
Proof.
  intros HSW HW Hn Hq HX. rewrite <- HSW.
  assert (c * P - 2 * n < n * X <= c * P + 2 * n) as [Hlo Hhi] by nia.
  assert (W * (c * P - 2 * n) < W * (n * X)) by (apply Z.mul_lt_mono_pos_l; lia).
  assert (W * (n * X) <= W * (c * P + 2 * n)) by (apply Z.mul_le_mono_nonneg_l; lia).
  assert (n * W <= n * 2 ^ 37) by (apply Z.mul_le_mono_nonneg_l; lia).
  lia.
Qed.

(** Two fractions that differ are ordered as their roundings are, the
    constant [V] being within [2^41 / 2^90] of [a/b] after scaling. *)
Lemma cmp_strict a b V c n U :
  0 < a -> 0 < b <= 1000 -> 0 < n < 2 ^ 32 ->
  - 2 ^ 41 <= b * V - a * 2 ^ 90 <= 2 ^ 41 ->
  c * 2 ^ 90 - 2 ^ 38 * n < n * U <= c * 2 ^ 90 + 2 ^ 38 * n ->
  (a * n < b * c -> V <= U) /\ (b * c < a * n -> U < V).
Proof.
  intros Ha Hb Hn HV HU.
  assert (Hbn : b * n <= 1000 * 2 ^ 32) by nia.
  assert (HnV : - (2 ^ 41 * n) <= n * (b * V) - n * (a * 2 ^ 90) <= 2 ^ 41 * n) by nia.
  assert (HbU : b * (c * 2 ^ 90 - 2 ^ 38 * n) < b * (n * U) <= b * (c * 2 ^ 90 + 2 ^ 38 * n)).
  { split; [apply Z.mul_lt_mono_pos_l | apply Z.mul_le_mono_nonneg_l]; lia. }
  split; intros Hlt.
  - destruct (Z.le_gt_cases V U) as [|Hgt]; [done|exfalso].
    assert ((b * n) * (U + 1) <= (b * n) * V) by (apply Z.mul_le_mono_nonneg_l; lia).
    assert ((a * n + 1) * 2 ^ 90 <= (b * c) * 2 ^ 90) by (apply Z.mul_le_mono_nonneg_r; lia).
    lia.
  - destruct (Z.lt_ge_cases U V) as [|Hge]; [done|exfalso].
    assert ((b * n) * V <= (b * n) * U) by (apply Z.mul_le_mono_nonneg_l; lia).
    assert ((b * c + 1) * 2 ^ 90 <= (a * n) * 2 ^ 90) by (apply Z.mul_le_mono_nonneg_r; lia).
    lia.
Qed.

(** Equal fractions have the same quotient and the same rounding
    direction, whatever power of two scales the divisor. *)
Lemma div_round_eq a b c n P g e :
  0 < b -> 0 < n -> 0 < g -> Z.even g = true -> b * c = a * n ->
  binary_round_aux prec emax false (c * P / n) e
    (new_location (n * g) ((c * P) mod n * g))
  = binary_round_aux prec emax false (a * P / b) e
      (new_location_even b ((a * P) mod b)).
Proof.
  intros Hb Hn Hg Heven Heq.
  pose proof (Z.div_mod (a * P) b ltac:(lia)) as Hdm.
  pose proof (Z.mod_pos_bound (a * P) b Hb) as Hr0.
  set (q0 := a * P / b) in *. set (r0 := (a * P) mod b) in *.
  assert (Hr : b * (c * P - n * q0) = n * r0).
  { assert (H1 : (b * c) * P = (a * n) * P) by (by rewrite Heq).
    assert (H2 : n * (a * P) = n * (b * q0 + r0)) by (by rewrite <- Hdm).
    lia. }
  set (r := c * P - n * q0) in *.
  assert (0 <= r < n) by nia.
  assert (c * P / n = q0) as -> by (symmetry; apply Z.div_unique with r; lia).
  assert ((c * P) mod n = r) as -> by (symmetry; apply Z.mod_unique with q0; lia).
  f_equal. unfold new_location. rewrite Z.even_mul, Heven, orb_true_r.
  unfold new_location_even.
  destruct (Z.eqb_spec (r * g) 0) as [H0|H0], (Z.eqb_spec r0 0) as [H0'|H0']; [done|nia|nia|].
  f_equal.
  destruct (Z.compare_spec (2 * (r * g)) (n * g)), (Z.compare_spec (2 * r0) b);
    try done; exfalso; nia.
Qed.

(** Which shifts the quotient of equal fractions can have. *)
Lemma digits_gap a b c n dc dn :
  2 ^ (dc - 1) <= c < 2 ^ dc -> 2 ^ (dn - 1) <= n < 2 ^ dn ->
  0 < dc <= dn -> 0 < a -> b * c = a * n ->
  b < 2 ^ (dn - dc + 1) * a /\ a * 2 ^ (dn - dc) < 2 * b.
Proof.
  intros Hc Hn Hd Ha Heq.
  assert (H2c : 2 ^ dc = 2 * 2 ^ (dc - 1)).
  { replace dc with (Z.succ (dc - 1)) at 1 by lia. apply Z.pow_succ_r. lia. }
  assert (H2n : 2 ^ dn = 2 * 2 ^ (dn - 1)).
  { replace dn with (Z.succ (dn - 1)) at 1 by lia. apply Z.pow_succ_r. lia. }
  assert (HD : 2 ^ (dn - 1) = 2 ^ (dn - dc) * 2 ^ (dc - 1)).
  { rewrite <- Z.pow_add_r by lia. f_equal. lia. }
  rewrite Z.pow_add_r by lia. change (2 ^ 1) with 2.
  assert (0 < 2 ^ (dn - dc)) by (apply Z.pow_pos_nonneg; lia).
  assert (0 < 2 ^ (dc - 1)) by (apply Z.pow_pos_nonneg; lia).
  set (D := 2 ^ (dn - dc)) in *. set (Pc := 2 ^ (dc - 1)) in *.
  set (Pn := 2 ^ (dn - 1)) in *.
  assert (0 < b) by nia.
  assert (b * Pc <= b * c) by (apply Z.mul_le_mono_nonneg_l; lia).
  assert (b * c < b * (2 * Pc)) by (apply Z.mul_lt_mono_pos_l; lia).
  assert (a * Pn <= a * n) by (apply Z.mul_le_mono_nonneg_l; lia).
  assert (a * n < a * (2 * Pn)) by (apply Z.mul_lt_mono_pos_l; lia).
  split; apply (Z.mul_lt_mono_pos_r Pc); [done| |done|]; rewrite HD in *; lia.
Qed.

(** The seven constants: normal numbers within [2^-49] of the fractions,
    and the roundings of the fractions' own quotients. *)
Lemma percentiles_table k q a b :
  percentiles !! k = Some q -> percentile_ratios !! k = Some (a, b) ->
  exists m e,
    Prim2SF q = S754_finite false m e /\
    2 ^ 52 <= Z.pos m < 2 ^ 53 /\ -54 <= e <= -53 /\
    0 < a <= b /\ b <= 1000 /\
    - 2 ^ 41 <= b * (Z.pos m * 2 ^ (e + 90)) - a * 2 ^ 90 <= 2 ^ 41 /\
    forall D, 0 <= D -> b < 2 ^ (D + 1) * a -> a * 2 ^ D < 2 * b ->
      binary_round_aux prec emax false (a * 2 ^ (53 + D) / b) (- (53 + D))
        (new_location_even b ((a * 2 ^ (53 + D)) mod b))
      = S754_finite false m e.
Proof.
  intros Hq Hab.
  assert (Hk : (k < 7)%nat) by (apply lookup_lt_Some in Hq; exact Hq).
  assert (Hsmall : forall D a' b', 0 <= D -> a' * 2 ^ D < 2 * b' -> b' <= 4 * a' -> 0 < a' ->
            D = 0 \/ D = 1 \/ D = 2).
  { intros D a' b' HD Hlt Hle Ha'.
    destruct (Z.le_gt_cases D 2) as [|Hgt]; [lia|exfalso].
    assert (2 ^ 3 <= 2 ^ D) by (apply Z.pow_le_mono_r; lia).
    change (2 ^ 3) with 8 in *. nia. }
  do 7 (destruct k as [|k];
    [injection Hq as <-; injection Hab as <- <-;
     eexists _, _; split; [vm_compute; reflexivity|];
     split; [done|]; split; [done|]; split; [done|]; split; [done|]; split; [done|];
     intros D HD Hlo Hhi;
     destruct (Hsmall D _ _ HD Hhi ltac:(done) ltac:(done)) as [-> | [-> | ->]];
     first [vm_compute; reflexivity | exfalso; vm_compute in Hlo; vm_compute in Hhi; done]|]).
  lia.
Qed.

(** The test of [Percentiles] in [float64] decides the comparison of the
    fractions, for every population below [2^32] and every count up to
    it. *)
Lemma frac_geb_exact k q a b c n :
  percentiles !! k = Some q -> percentile_ratios !! k = Some (a, b) ->
  0 <= c <= n -> 1 <= n < 2 ^ 32 ->
  frac_geb c n q = (a * n <=? b * c).
Proof.
  intros Hq Hab Hc Hn.
  destruct (percentiles_table k q a b Hq Hab)
    as (m & e & HQ & Hm & He & Ha & Hb & HV & Heq).
  unfold frac_geb, geb. rewrite leb_spec, HQ.
  destruct (digits_exist n ltac:(lia)) as (dn & Hdn & Hbn).
  pose proof (digits_le_32 n dn Hbn Hdn ltac:(lia)) as Hdn32.
  destruct (Z.eq_dec c 0) as [->|Hc0].
  - rewrite div_spec, !Prim2SF_float64_of_uint64 by lia.
    destruct (binary_normalize_pos n dn Hbn ltac:(lia)) as (m2 & -> & _).
    cbn. symmetry. apply Z.leb_gt. nia.
  - destruct (digits_exist c ltac:(lia)) as (dc & Hdc & Hbc).
    pose proof (digits_mono c n dc dn Hbc Hbn Hdc Hdn ltac:(lia)) as Hle.
    rewrite (div_as_round c n dc dn) by (done || lia).
    destruct (Z.eq_dec (b * c) (a * n)) as [Hcn|Hcn].
    + destruct (digits_gap a b c n dc dn Hbc Hbn ltac:(lia) ltac:(lia) Hcn) as [Hlo Hhi].
      assert (Hg : 0 < 2 ^ (53 - dn)) by (apply Z.pow_pos_nonneg; lia).
      assert (Hev : Z.even (2 ^ (53 - dn)) = true) by (by rewrite Z.even_pow by lia).
      rewrite (div_round_eq a b c n _ _ _ ltac:(lia) ltac:(lia) Hg Hev Hcn).
      replace (53 + dn - dc) with (53 + (dn - dc)) by lia.
      rewrite Heq by (done || lia).
      rewrite SFleb_normal by (done || lia).
      rewrite Z.leb_refl. symmetry. apply Z.leb_le. lia.
    + pose proof (quotient_bits c n dc dn Hbc Hbn ltac:(lia)) as Hbits.
      destruct (binary_round_aux_bracket (c * 2 ^ (53 + dn - dc) / n) (- (53 + dn - dc))
                  (new_location (n * 2 ^ (53 - dn))
                     ((c * 2 ^ (53 + dn - dc)) mod n * 2 ^ (53 - dn)))
                  Hbits ltac:(lia)) as (M & j & -> & HM & Hj & HX).
      rewrite SFleb_normal by (done || lia).
      replace (- (53 + dn - dc) + j + 90) with (j + (90 - (53 + dn - dc))) by lia.
      rewrite (Z.pow_add_r 2 j), (Z.mul_assoc (Z.pos M)) by lia.
      set (s := 53 + dn - dc) in *.
      assert (HSW : 2 ^ s * 2 ^ (90 - s) = 2 ^ 90).
      { rewrite <- Z.pow_add_r by lia. f_equal. lia. }
      assert (HW : 0 < 2 ^ (90 - s) <= 2 ^ 37).
      { split; [apply Z.pow_pos_nonneg; lia | apply Z.pow_le_mono_r; lia]. }
      pose proof (Z.div_mod (c * 2 ^ s) n ltac:(lia)) as Hdm.
      pose proof (Z.mod_pos_bound (c * 2 ^ s) n ltac:(lia)) as Hr.
      pose proof (quotient_bracket c n (2 ^ s) (2 ^ (90 - s)) (c * 2 ^ s / n)
                    (Z.pos M * 2 ^ j) HSW HW ltac:(lia) ltac:(lia) HX) as HU.
      destruct (cmp_strict a b (Z.pos m * 2 ^ (e + 90)) c n
                  (Z.pos M * 2 ^ j * 2 ^ (90 - s)) ltac:(lia) ltac:(lia) ltac:(lia) HV HU)
        as [Hgt Hlt].
      destruct (Z.leb_spec (a * n) (b * c)); [apply Z.leb_le, Hgt | apply Z.leb_gt, Hlt]; lia.
Qed.

(** So the decision is exact for every population the sampler can hold. *)
Lemma cmp_exact_below_2_32 n : 1 <= n < 2 ^ 32 -> cmp_exact n = true.
Proof.
  intros Hn. unfold cmp_exact. apply forallb_forall. intros c Hc.
  apply in_map_iff in Hc as (i & <- & Hi%in_seq).
  apply forallb_forall. intros [q [a b]] Hin. apply Bool.eqb_true_iff. cbn [fst snd].
  apply list_elem_of_In, list_elem_of_lookup in Hin as [k Hk].
  apply lookup_zip_with_Some in Hk as (q' & ab & [= <- <-] & Hq & Hab).
  apply (frac_geb_exact k); [done|done|lia|done].
Qed.

End Float64Proofs.

(** ** The percentiles of the sampler *)

Module PercentileProofs.
Import GoInt GoFloat Sampler SamplerProofs.
Local Open Scope Z_scope.

(** *** Recording *)

Lemma count_if_bounds P l : 0 <= count_if P l <= Z.of_nat (length l).
Proof. induction l as [|d l IH]; cbn [count_if length]; [lia|]. destruct (P d); lia. Qed.

Lemma count_if_le (P Q : Duration -> bool) l :
  (forall d, d ∈ l -> P d = true -> Q d = true) -> count_if P l <= count_if Q l.
Proof.
  induction l as [|d l IH]; intros H; cbn [count_if]; [lia|].
  specialize (IH ltac:(intros; apply H; [by right|done])).
  specialize (H d ltac:(by left)).
  destruct (P d), (Q d); lia.
Qed.

Lemma below_succ l j : below l (j + 1) = below l j + hits l j.
Proof.
  unfold below, hits. induction l as [|d l IH]; cbn [count_if]; [lia|].
  rewrite IH.
  destruct (Z.ltb_spec (Update_index d) (j + 1)), (Z.ltb_spec (Update_index d) j),
    (Z.eqb_spec (Update_index d) j); lia.
Qed.

Lemma below_0 l : Forall (fun d => 0 <= d < 2 ^ 63) l -> below l 0 = 0.
Proof.
  unfold below. induction 1 as [|d l Hd _ IH]; cbn [count_if]; [done|].
  pose proof (Update_index_range d Hd) as [? _].
  destruct (Z.ltb_spec (Update_index d) 0); lia.
Qed.

Lemma NewDurationSampler_ok : sampler_ok NewDurationSampler.
Proof.
  split; [done|]. split; [|done].
  apply Forall_forall. intros c Hc. apply elem_of_replicate in Hc as [-> _]. done.
Qed.

(** After recording [l], slot [j] has grown by [hits l j] and the count by
    the length of [l], modulo the width of the counters. *)
Lemma Update_all_spec l : forall ds,
  Forall (fun d => 0 <= d < 2 ^ 63) l ->
  sampler_ok ds ->
  exists ds',
    Update_all ds l = Some ds' /\
    length (durations ds') = 2001%nat /\
    count ds' = wrap_uint64 (count ds + Z.of_nat (length l)) /\
    forall j : nat,
      durations ds' !! j = (fun c => wrap_uint32 (c + hits l (Z.of_nat j))) <$> durations ds !! j.
Proof.
  induction l as [|d l IH]; intros ds Hl (Hc & Hds & Hlen).
  - exists ds. split; [done|]. split; [done|]. split.
    + unfold wrap_uint64. cbn [length]. rewrite Z.mod_small; lia.
    + intros j. unfold hits. cbn [count_if].
      destruct (durations ds !! j) as [c|] eqn:Hj; [|done]. cbn. f_equal.
      apply (Forall_lookup_1 _ _ _ _ Hds) in Hj.
      unfold wrap_uint32. rewrite Z.mod_small; lia.
  - apply Forall_cons in Hl as [Hd Hl].
    pose proof (Update_index_range d Hd) as [Hr _].
    cbn [Update_all]. unfold Update at 1. rewrite Hlen.
    destruct (Z.leb_spec 0 (Update_index d)); [|lia].
    destruct (Z.ltb_spec (Update_index d) (Z.of_nat 2001)); [|lia].
    cbn [andb].
    destruct (IH {| count := wrap_uint64 (count ds + 1);
                    durations := alter (fun c => wrap_uint32 (c + 1))
                                   (Z.to_nat (Update_index d)) (durations ds) |} Hl)
      as (ds' & -> & Hlen' & Hcount & Hdur).
    { split; [|split]; cbn.
      - apply Z.mod_pos_bound. lia.
      - apply Forall_alter; [done|]. intros c _ _. apply Z.mod_pos_bound. lia.
      - by rewrite length_alter. }
    exists ds'. split; [done|]. split; [done|]. cbn in Hcount, Hdur. split.
    + rewrite Hcount. unfold wrap_uint64. cbn [length].
      rewrite Zplus_mod_idemp_l. f_equal. lia.
    + intros j. rewrite Hdur. unfold hits. cbn [count_if].
      destruct (decide (Z.to_nat (Update_index d) = j)) as [<-|Hne].
      * rewrite list_lookup_alter_eq, Z2Nat.id, Z.eqb_refl by lia.
        destruct (durations ds !! _); [|done]. cbn. f_equal.
        unfold wrap_uint32. rewrite Zplus_mod_idemp_l. f_equal. lia.
      * rewrite list_lookup_alter_ne by done.
        destruct (Z.eqb_spec (Update_index d) (Z.of_nat j)); [lia|].
        done.
Qed.

Lemma hits_bounds l j : 0 <= hits l j <= Z.of_nat (length l).
Proof. apply count_if_bounds. Qed.

Lemma below_bounds l j : 0 <= below l j <= Z.of_nat (length l).
Proof. apply count_if_bounds. Qed.

(** On a fresh sampler and for fewer than [2^32] durations nothing wraps. *)
Lemma Update_all_fresh l :
  Forall (fun d => 0 <= d < 2 ^ 63) l ->
  Z.of_nat (length l) < 2 ^ 32 ->
  exists ds,
    Update_all NewDurationSampler l = Some ds /\
    length (durations ds) = 2001%nat /\
    count ds = Z.of_nat (length l) /\
    forall j : nat, (j < 2001)%nat -> durations ds !! j = Some (hits l (Z.of_nat j)).
Proof.
  intros Hl Hn.
  destruct (Update_all_spec l NewDurationSampler Hl NewDurationSampler_ok)
    as (ds & Hds & Hlen & Hcount & Hdur).
  exists ds. split; [done|]. split; [done|]. split.
  - rewrite Hcount. unfold wrap_uint64.
    change (count NewDurationSampler) with 0.
    rewrite Z.mod_small; lia.
  - intros j Hj. rewrite Hdur.
    replace (durations NewDurationSampler) with (replicate 2001 0) by reflexivity.
    rewrite lookup_replicate_2 by done. cbn [fmap option_fmap option_map]. f_equal.
    pose proof (hits_bounds l (Z.of_nat j)).
    unfold wrap_uint32. rewrite Z.mod_small; lia.
Qed.

(** *** The loops of [Percentiles] *)

Lemma percentiles_lookup k : (k < 7)%nat -> is_Some (percentiles !! k).
Proof. intros Hk. apply lookup_lt_is_Some. exact Hk. Qed.

Lemma emit_loop_spec total c (d : Duration) : forall fuel pi result,
  fuel = (7 - pi)%nat -> (pi < 7)%nat -> length result = 7%nat ->
  match emit_loop fuel (PrimFloat.div (float64_of_uint64 c) total) d pi result with
  | Next (pi', result') =>
      (pi <= pi' < 7)%nat /\ length result' = 7%nat /\
      (forall k, (pi <= k < pi')%nat ->
         hit total c k /\ result' !! k = Some (reported d)) /\
      (forall k, ~ (pi <= k < pi')%nat -> result' !! k = result !! k) /\
      ~ hit total c pi'
  | Return result' =>
      length result' = 7%nat /\
      (forall k, (pi <= k < 7)%nat ->
         hit total c k /\ result' !! k = Some (reported d)) /\
      (forall k, (k < pi)%nat -> result' !! k = result !! k)
  | Panic => False
  end.
Proof.
  induction fuel as [|fuel IH]; intros pi result Hfuel Hpi Hlen; [lia|].
  cbn [emit_loop].
  destruct (percentiles_lookup pi Hpi) as [q Hq]. rewrite Hq.
  destruct (geb _ q) eqn:Hge.
  - assert (Hhit : hit total c pi) by (by exists q).
    assert (Hins : forall k, k <> pi ->
              <[pi:=reported d]> result !! k = result !! k)
      by (intros; by apply list_lookup_insert_ne).
    assert (Hpi' : <[pi:=reported d]> result !! pi = Some (reported d))
      by (apply list_lookup_insert_eq; lia).
    change (length percentiles) with 7%nat.
    destruct (Nat.eqb_spec (S pi) 7) as [Heq|Hne].
    + split; [by rewrite length_insert|]. split.
      * intros k Hk. assert (k = pi) as -> by lia. done.
      * intros k Hk. apply Hins. lia.
    + specialize (IH (S pi) (<[pi:=reported d]> result) ltac:(lia) ltac:(lia)
                   ltac:(by rewrite length_insert)).
      fold (reported d) in IH |- *.
      destruct (emit_loop fuel _ d (S pi) _) as [[pi' result']| result' |]; [| |done].
      * destruct IH as (Hr & Hl & Hin & Hout & Hno).
        split; [lia|]. split; [done|]. split; [|split; [|done]].
        -- intros k Hk. destruct (decide (k = pi)) as [->|Hkne].
           ++ split; [done|]. rewrite Hout by lia. done.
           ++ apply Hin. lia.
        -- intros k Hk. rewrite Hout by lia. apply Hins. lia.
      * destruct IH as (Hl & Hin & Hout).
        split; [done|]. split.
        -- intros k Hk. destruct (decide (k = pi)) as [->|Hkne].
           ++ split; [done|]. rewrite Hout by lia. done.
           ++ apply Hin. lia.
        -- intros k Hk. rewrite Hout by lia. apply Hins. lia.
  - split; [lia|]. split; [done|]. split; [intros; lia|]. split; [done|].
    intros (q' & Hq' & Hge'). rewrite Hq in Hq'. injection Hq' as <-. congruence.
Qed.

Lemma fill_loop_spec : forall fuel pi result,
  fuel = (7 - pi)%nat -> (pi <= 7)%nat -> length result = 7%nat ->
  length (fill_loop fuel pi result) = 7%nat /\
  (forall k, (k < pi)%nat -> fill_loop fuel pi result !! k = result !! k) /\
  (forall k, (pi <= k < 7)%nat -> fill_loop fuel pi result !! k = Some sentinel).
Proof.
  induction fuel as [|fuel IH]; intros pi result Hfuel Hpi Hlen; cbn [fill_loop].
  - split; [done|]. split; [done|]. intros; lia.
  - change (length percentiles) with 7%nat.
    destruct (Nat.ltb_spec pi 7); [|lia].
    destruct (IH (S pi) (<[pi:=sentinel]> result) ltac:(lia) ltac:(lia)
                ltac:(by rewrite length_insert)) as (Hl & Hlo & Hhi).
    split; [done|]. split.
    + intros k Hk. rewrite Hlo by lia. apply list_lookup_insert_ne. lia.
    + intros k Hk. destruct (decide (k = pi)) as [->|Hne].
      * rewrite Hlo by lia. apply list_lookup_insert_eq. lia.
      * apply Hhi. lia.
Qed.

Lemma sum_Z_app l1 l2 : sum_Z (l1 ++ l2) = sum_Z l1 + sum_Z l2.
Proof. unfold sum_Z. induction l1 as [|x l1 IH]; cbn; lia. Qed.

Lemma sum_Z_nonneg l : Forall (fun c => 0 <= c) l -> 0 <= sum_Z l.
Proof. unfold sum_Z. induction 1 as [|x l Hx _ IH]; cbn; lia. Qed.

Lemma cum_S ds di c :
  durations ds !! di = Some c -> cum ds (S di) = cum ds di + c.
Proof.
  intros Hc. unfold cum. rewrite (take_S_r _ _ _ Hc), sum_Z_app. unfold sum_Z. cbn. lia.
Qed.

Lemma cum_bounds ds di :
  Forall (fun c => 0 <= c) (durations ds) ->
  0 <= cum ds di <= sum_Z (durations ds).
Proof.
  intros Hnn. unfold cum.
  rewrite <- (take_drop di (durations ds)) at 3. rewrite sum_Z_app.
  pose proof (sum_Z_nonneg (take di (durations ds)) ltac:(by apply Forall_take)).
  pose proof (sum_Z_nonneg (drop di (durations ds)) ltac:(by apply Forall_drop)).
  lia.
Qed.

Section Scan.
Variable ds : DurationSampler.
Variable total : float.
Variable C : list (Duration * Duration).

Hypothesis Hnonneg : Forall (fun c => 0 <= c) (durations ds).
Hypothesis Hsum : sum_Z (durations ds) < 2 ^ 64.
Hypothesis hit_mono : forall j k k',
  (k' <= k)%nat -> hit total (cum ds (S j)) k -> hit total (cum ds (S j)) k'.

Lemma slot_loop_spec base s : forall ixs st,
  scan_inv ds total C st ->
  (forall m i, ixs !! m = Some i ->
     C !! (sc_di st + m)%nat = Some (base + resolution s * i, resolution s) /\
     0 <= resolution s * i < 2 ^ 62) ->
  0 <= base < 2 ^ 62 ->
  (sc_di st + length ixs <= length (durations ds))%nat ->
  match slot_loop ds total base s ixs st with
  | Next st' => scan_inv ds total C st' /\ sc_di st' = (sc_di st + length ixs)%nat
  | Return res => scan_final ds total C res
  | Panic => False
  end.
Proof.
  induction ixs as [|i ixs IH]; intros st Hinv HC Hbase Hlen; cbn [slot_loop].
  - split; [done|]. cbn. lia.
  - destruct Hinv as (Hcount & Hpi & Hres & Hdone & Hnot).
    cbn [length] in Hlen.
    destruct (lookup_lt_is_Some_2 (durations ds) (sc_di st) ltac:(lia)) as [c Hc].
    rewrite Hc.
    pose proof (cum_S _ _ _ Hc) as HcS.
    pose proof (cum_bounds ds (S (sc_di st)) Hnonneg) as Hcb.
    assert (Hw : wrap_uint64 (sc_count st + c) = cum ds (S (sc_di st))).
    { unfold wrap_uint64. rewrite Hcount, <- HcS. apply Z.mod_small. lia. }
    rewrite Hw.
    destruct (HC 0%nat i eq_refl) as [HC0 Hri]. rewrite Nat.add_0_r in HC0.
    assert (Hd : add64 base (mul64 (resolution s) i) = base + resolution s * i).
    { by unwrap64. }
    rewrite Hd.
    pose proof (emit_loop_spec total (cum ds (S (sc_di st))) (base + resolution s * i)
                  (7 - sc_pi st) (sc_pi st) (sc_result st) eq_refl Hpi Hres) as He.
    change (length percentiles) with 7%nat.
    destruct (emit_loop _ _ _ _ _) as [[pi' result']| result' |]; [| |done].
    + destruct He as (Hr & Hl & Hin & Hout & Hno).
      set (st1 := {| sc_count := cum ds (S (sc_di st)); sc_di := S (sc_di st);
                     sc_pi := pi'; sc_result := result' |}).
      assert (Hinv1 : scan_inv ds total C st1).
      { split; [done|]. split; [cbn; lia|]. split; [done|]. split; cbn.
        - intros k Hk. destruct (decide (k < sc_pi st)%nat) as [Hlt|Hge].
          + destruct (Hdone k Hlt) as (j & val & r & Hj & HCj & Hfh & Hrk).
            exists j, val, r. split; [lia|]. split; [done|]. split; [done|].
            rewrite Hout by lia. done.
          + destruct (Hin k ltac:(lia)) as [Hh Hrk].
            exists (sc_di st), (base + resolution s * i), (resolution s).
            split; [lia|]. split; [done|]. split; [|done].
            split; [done|]. intros j' Hj'. apply Hnot; [lia|done].
        - intros k j Hk Hj. destruct (decide (j = sc_di st)) as [->|Hne].
          + intros Hh. apply Hno. apply (hit_mono (sc_di st) k pi'); [lia|done].
          + apply Hnot; lia. }
      specialize (IH st1 Hinv1).
      destruct (slot_loop ds total base s ixs st1) as [st'| res |].
      * destruct IH as [Hinv' Hdi']; [|done|cbn; lia|].
        { intros m i' Hm. specialize (HC (S m) i' Hm). cbn.
          by replace (S (sc_di st + m))%nat with (sc_di st + S m)%nat by lia. }
        split; [done|]. rewrite Hdi'. cbn. lia.
      * apply IH; [|done|cbn; lia].
        intros m i' Hm. specialize (HC (S m) i' Hm). cbn.
        by replace (S (sc_di st + m))%nat with (sc_di st + S m)%nat by lia.
      * apply IH; [|done|cbn; lia].
        intros m i' Hm. specialize (HC (S m) i' Hm). cbn.
        by replace (S (sc_di st + m))%nat with (sc_di st + S m)%nat by lia.
    + destruct He as (Hl & Hin & Hout). split; [done|].
      intros k Hk. destruct (decide (k < sc_pi st)%nat) as [Hlt|Hge].
      * destruct (Hdone k Hlt) as (j & val & r & Hj & HCj & Hfh & Hrk).
        exists j, val, r. split; [done|]. split; [done|]. rewrite Hout by lia. done.
      * destruct (Hin k ltac:(lia)) as [Hh Hrk].
        exists (sc_di st), (base + resolution s * i), (resolution s).
        split; [done|]. split; [|done].
        split; [done|]. intros j' Hj'. apply Hnot; [lia|done].
Qed.

Lemma slot_range_lookup s m i :
  slot_range s !! m = Some i -> i = Z.of_nat m /\ 0 <= i < slots s.
Proof.
  unfold slot_range. rewrite list_lookup_fmap.
  destruct (seq 0 (Z.to_nat (slots s)) !! m) as [m'|] eqn:Hm; [|done].
  apply lookup_seq in Hm as [-> Hm]. intros [= <-]. lia.
Qed.

Lemma length_slot_range s : length (slot_range s) = Z.to_nat (slots s).
Proof. unfold slot_range. by rewrite length_map, length_seq. Qed.

Lemma length_cells segs : forall base,
  Forall segment_ok segs ->
  Z.of_nat (length (cells segs base)) = total_slots segs.
Proof.
  induction segs as [|s segs IH]; intros base Hok; [done|].
  apply Forall_cons in Hok as [(Hr & Hs & Hb) Hok].
  cbn [cells]. rewrite length_app, length_map, length_slot_range, total_slots_cons.
  rewrite Nat2Z.inj_add, IH by done. lia.
Qed.

Lemma segment_loop_spec : forall segs base st,
  Forall segment_ok segs ->
  0 <= base -> base + total_bound segs < 2 ^ 62 ->
  scan_inv ds total C st ->
  drop (sc_di st) C = cells segs base ->
  (sc_di st + length (cells segs base) <= length (durations ds))%nat ->
  match segment_loop ds total segs base st with
  | Next st' =>
      scan_inv ds total C st' /\
      sc_di st' = (sc_di st + length (cells segs base))%nat
  | Return res => scan_final ds total C res
  | Panic => False
  end.
Proof.
  induction segs as [|s segs IH]; intros base st Hok Hb0 Hb1 Hinv Hdrop Hlen;
    cbn [segment_loop].
  - split; [done|]. cbn. lia.
  - apply Forall_cons in Hok as [(Hr & Hs & Hb) Hok].
    rewrite total_bound_cons in Hb1.
    pose proof (total_bound_nonneg _ Hok) as Htb.
    cbn [cells] in Hdrop, Hlen |- *.
    rewrite length_app, length_map in Hlen |- *.
    pose proof (slot_loop_spec base s (slot_range s) st Hinv) as Hslot.
    destruct (slot_loop ds total base s (slot_range s) st) as [st'| res |].
    + destruct Hslot as [Hinv' Hdi']; [|lia|lia|].
      { intros m i Hm. pose proof (slot_range_lookup _ _ _ Hm) as [-> Hi]. split.
        - rewrite <- lookup_drop, Hdrop, lookup_app_l.
          + by rewrite list_lookup_fmap, Hm.
          + rewrite length_map. by apply lookup_lt_Some in Hm.
        - nia. }
      assert (Hadd : add64 base (mul64 (resolution s) (slots s))
                     = base + resolution s * slots s).
      { unfold add64, mul64. rewrite (wrap_int64_id (_ * _)) by (unfold in_int64; lia).
        apply wrap_int64_id. unfold in_int64. lia. }
      rewrite Hadd.
      specialize (IH (base + resolution s * slots s) st' Hok ltac:(lia) ltac:(lia) Hinv').
      destruct (segment_loop ds total segs _ st') as [st''| res |].
      * destruct IH as [Hinv'' Hdi'']; [| |split; [done|]; lia].
        -- rewrite Hdi', <- drop_drop, Hdrop.
           rewrite drop_app_length'; [done|by rewrite length_map].
        -- lia.
      * apply IH; [|lia].
        rewrite Hdi', <- drop_drop, Hdrop.
        rewrite drop_app_length'; [done|by rewrite length_map].
      * apply IH; [|lia].
        rewrite Hdi', <- drop_drop, Hdrop.
        rewrite drop_app_length'; [done|by rewrite length_map].
    + apply Hslot; [|lia|lia].
      intros m i Hm. pose proof (slot_range_lookup _ _ _ Hm) as [-> Hi]. split.
      * rewrite <- lookup_drop, Hdrop, lookup_app_l.
        -- by rewrite list_lookup_fmap, Hm.
        -- rewrite length_map. by apply lookup_lt_Some in Hm.
      * nia.
    + apply Hslot; [|lia|lia].
      intros m i Hm. pose proof (slot_range_lookup _ _ _ Hm) as [-> Hi]. split.
      * rewrite <- lookup_drop, Hdrop, lookup_app_l.
        -- by rewrite list_lookup_fmap, Hm.
        -- rewrite length_map. by apply lookup_lt_Some in Hm.
      * nia.
Qed.

End Scan.

(** What [Percentiles] returns: for each percentile, the value of the first
    slot at which the accumulated share reaches it, or the sentinel when no
    slot of the table does. *)
Lemma Percentiles_spec ds :
  Forall (fun c => 0 <= c) (durations ds) ->
  sum_Z (durations ds) < 2 ^ 64 ->
  length (durations ds) = 2001%nat ->
  let total := float64_of_uint64 (count ds) in
  (forall j k k', (k' <= k)%nat ->
     hit total (cum ds (S j)) k -> hit total (cum ds (S j)) k') ->
  exists res,
    Percentiles ds = Some res /\ length res = 7%nat /\
    forall k, (k < 7)%nat ->
      (exists j val r,
         cells segments 0 !! j = Some (val, r) /\
         first_hit ds total k j /\ res !! k = Some (reported val)) \/
      ((forall j, (j < 2000)%nat -> ~ hit total (cum ds (S j)) k) /\
       res !! k = Some sentinel).
Proof.
  intros Hnn Hsum Hlen total Hmono. unfold Percentiles. fold total.
  set (st0 := {| sc_count := 0; sc_di := 0; sc_pi := 0;
                 sc_result := replicate (length percentiles) 0%float |}).
  assert (Hinv0 : scan_inv ds total (cells segments 0) st0).
  { split; [done|]. split; [cbn; lia|]. split; [done|].
    split; cbn; intros; lia. }
  pose proof (length_cells segments 0 segments_ok) as HlenC.
  rewrite segments_total_slots in HlenC.
  pose proof (segment_loop_spec ds total (cells segments 0) Hnn Hsum Hmono
                segments 0 st0 segments_ok ltac:(done) ltac:(done) Hinv0 eq_refl) as Hloop.
  destruct (segment_loop ds total segments 0 st0) as [st| res |].
  - destruct Hloop as [(Hcount & Hpi & Hres & Hdone & Hnot) Hdi]; [cbn [sc_di st0]; lia|].
    cbn [sc_di st0] in Hdi.
    change (length percentiles) with 7%nat.
    destruct (fill_loop_spec (7 - sc_pi st) (sc_pi st) (sc_result st) eq_refl
                ltac:(lia) Hres) as (Hl & Hlo & Hhi).
    eexists. split; [done|]. split; [done|].
    intros k Hk. destruct (decide (k < sc_pi st)%nat) as [Hlt|Hge].
    + left. destruct (Hdone k Hlt) as (j & val & r & Hj & HCj & Hfh & Hrk).
      exists j, val, r. split; [done|]. split; [done|]. by rewrite Hlo.
    + right. split; [|apply Hhi; lia].
      intros j Hj. apply Hnot; lia.
  - destruct Hloop as [Hl Hres]; [cbn [sc_di st0]; lia|].
    exists res. split; [done|]. split; [done|]. intros k Hk. left. by apply Hres.
  - exfalso. apply Hloop. cbn [sc_di st0]. lia.
Qed.

(** *** Slots are monotone in the duration, and accurate *)

Lemma Update_loop_lower segs d idx :
  Forall segment_ok segs ->
  StronglySorted (fun s t => resolution s <= resolution t) segs ->
  (forall s, head segs = Some s -> - (resolution s ÷ 2) <= d) ->
  d < 2 ^ 63 -> 0 <= idx -> idx + total_slots segs < 2 ^ 62 ->
  idx <= Update_loop segs d idx.
Proof.
  intros Hok Hsorted Hd Hmax Hidx Htot.
  destruct (Update_loop_spec segs d idx Hok Hsorted Hd Hmax Hidx Htot)
    as [(pre & s & post & i & -> & Hi & -> & Hdi)|[-> Hov]].
  - apply Forall_app in Hok as [Hpre _]. pose proof (total_slots_nonneg _ Hpre). lia.
  - pose proof (total_slots_nonneg _ Hok). lia.
Qed.

Lemma Update_loop_mono segs : forall d1 d2 idx,
  Forall segment_ok segs ->
  StronglySorted (fun s t => resolution s <= resolution t) segs ->
  (forall s, head segs = Some s -> - (resolution s ÷ 2) <= d1) ->
  d1 <= d2 -> d2 < 2 ^ 63 -> 0 <= idx -> idx + total_slots segs < 2 ^ 62 ->
  Update_loop segs d1 idx <= Update_loop segs d2 idx.
Proof.
  induction segs as [|s rest IH]; intros d1 d2 idx Hok Hsorted Hd Hle Hmax Hidx Htot.
  - done.
  - apply Forall_cons in Hok as [Hs Hok].
    apply StronglySorted_inv in Hsorted as [Hsorted Hres].
    specialize (Hd s eq_refl). rewrite total_slots_cons in Htot.
    pose proof (total_slots_nonneg _ Hok) as Hts.
    pose proof Hs as (Hr & Hsl & Hb).
    pose proof (quot_half_bounds _ Hr) as [Hh0 Hh1].
    rewrite !Update_loop_cons by (done || lia).
    pose proof (fun d => Update_loop_next s rest d Hs Hres) as Hnext.
    destruct (Z.ltb_spec d1 (resolution s * slots s - resolution s ÷ 2)) as [H1|H1],
             (Z.ltb_spec d2 (resolution s * slots s - resolution s ÷ 2)) as [H2|H2].
    + pose proof (Z.div_le_mono (d1 + resolution s ÷ 2) (d2 + resolution s ÷ 2)
                    (resolution s) ltac:(lia) ltac:(lia)). lia.
    + assert ((d1 + resolution s ÷ 2) `div` resolution s < slots s)
        by (apply Z.div_lt_upper_bound; lia).
      pose proof (Update_loop_lower rest (d2 - resolution s * slots s) (idx + slots s)
                    Hok Hsorted (Hnext d2 H2) ltac:(lia) ltac:(lia) ltac:(lia)). lia.
    + lia.
    + apply IH; try done; try lia. by apply Hnext.
Qed.

Lemma Update_index_mono d1 d2 :
  0 <= d1 -> d1 <= d2 -> d2 < 2 ^ 63 -> Update_index d1 <= Update_index d2.
Proof.
  intros H0 Hle Hmax. unfold Update_index.
  apply Update_loop_mono; try done; [apply segments_ok|apply segments_sorted|].
  intros s [= <-]. change (- (resolution _ ÷ 2)) with (- 500000). lia.
Qed.

Lemma slot_range_lookup_2 s i :
  0 <= i < slots s -> slot_range s !! Z.to_nat i = Some i.
Proof.
  intros Hi. unfold slot_range. rewrite list_lookup_fmap.
  rewrite lookup_seq_lt by lia. cbn. f_equal. lia.
Qed.

(** The slot [i] of the segment [s] in the table. *)
Lemma cells_lookup pre s post i : forall base,
  Forall segment_ok pre -> 0 <= i < slots s ->
  cells (pre ++ s :: post) base !! Z.to_nat (total_slots pre + i)
  = Some (base + total_bound pre + resolution s * i, resolution s).
Proof.
  induction pre as [|t pre IH]; intros base Hok Hi.
  - cbn [app cells]. change (total_slots []) with 0. change (total_bound []) with 0.
    rewrite lookup_app_l by (rewrite length_map, length_slot_range; lia).
    rewrite list_lookup_fmap, Z.add_0_l, slot_range_lookup_2 by done.
    cbn. do 2 f_equal. lia.
  - apply Forall_cons in Hok as [(Hr & Hs & Hb) Hok].
    pose proof (total_slots_nonneg _ Hok).
    cbn [app cells]. rewrite total_slots_cons, total_bound_cons.
    rewrite lookup_app_r by (rewrite length_map, length_slot_range; lia).
    rewrite length_map, length_slot_range.
    replace (Z.to_nat (slots t + total_slots pre + i) - Z.to_nat (slots t))%nat
      with (Z.to_nat (total_slots pre + i)) by lia.
    rewrite IH by done. do 2 f_equal. lia.
Qed.

(** A duration below [overflow_from] is within half the resolution of the
    value of its slot. *)
Lemma Update_index_accurate d :
  0 <= d < overflow_from ->
  exists val r,
    cells segments 0 !! Z.to_nat (Update_index d) = Some (val, r) /\
    Z.abs (val - d) <= r ÷ 2.
Proof.
  intros [Hd0 Hd1]. unfold overflow_from, Millisecond in Hd1.
  assert (Hmax : d < 2 ^ 63) by lia.
  assert (Hhead : forall s, head segments = Some s -> - (resolution s ÷ 2) <= d).
  { intros s [= <-]. change (- (resolution _ ÷ 2)) with (- 500000). lia. }
  unfold Update_index.
  destruct (Update_loop_spec segments d 0 segments_ok segments_sorted Hhead Hmax
              ltac:(done) ltac:(done))
    as [(pre & s & post & i & Hsegs & Hi & -> & Hdi)|[_ Hov]].
  - exists (total_bound pre + resolution s * i), (resolution s).
    pose proof segments_ok as Hok. rewrite Hsegs in Hok.
    apply Forall_app in Hok as [Hpre [(Hr & _) _]%Forall_cons].
    rewrite Hsegs, Z.add_0_l, cells_lookup by done. split; [done|].
    pose proof (quot_half_bounds _ Hr). lia.
  - specialize (Hov ltac:(done)).
    rewrite segments_total_bound, segments_last_half in Hov.
    unfold Millisecond in Hov. lia.
Qed.

(** *** Percentiles of the recorded durations *)

Lemma cum_below ds l :
  Forall (fun d => 0 <= d < 2 ^ 63) l ->
  (forall j : nat, (j < 2001)%nat -> durations ds !! j = Some (hits l (Z.of_nat j))) ->
  forall di, (di <= 2001)%nat -> cum ds di = below l (Z.of_nat di).
Proof.
  intros Hl Hdur. induction di as [|di IH]; intros Hdi.
  - change (Z.of_nat 0) with 0. by rewrite (below_0 l Hl).
  - rewrite (cum_S _ _ _ (Hdur di ltac:(lia))), IH by lia.
    rewrite Nat2Z.inj_succ, <- Z.add_1_r. by rewrite below_succ.
Qed.

Lemma cmp_exact_spec n c k q a b :
  cmp_exact n = true -> 0 <= c <= n ->
  percentiles !! k = Some q -> percentile_ratios !! k = Some (a, b) ->
  frac_geb c n q = (a * n <=? b * c).
Proof.
  intros Hex Hc Hq Hab. unfold cmp_exact in Hex.
  rewrite forallb_forall in Hex.
  specialize (Hex c). rewrite forallb_forall in Hex.
  assert (Hin : In c (map Z.of_nat (seq 0 (S (Z.to_nat n))))).
  { apply in_map_iff. exists (Z.to_nat c). split; [lia|]. apply in_seq. lia. }
  apply eqb_prop. apply (Hex Hin (q, (a, b))).
  apply list_elem_of_In, list_elem_of_lookup. exists k.
  by rewrite lookup_zip_with, Hq, Hab.
Qed.

Lemma percentile_ratios_lookup k :
  (k < 7)%nat -> exists a b, percentile_ratios !! k = Some (a, b) /\ 0 < a <= b.
Proof.
  intros Hk. do 7 (destruct k as [|k]; [eexists _, _; split; [reflexivity|lia]|]). lia.
Qed.

(** The fractions ascend. *)
Lemma percentile_ratios_ascending k k' a b a' b' :
  (k' <= k)%nat ->
  percentile_ratios !! k = Some (a, b) -> percentile_ratios !! k' = Some (a', b') ->
  0 < b /\ 0 < b' /\ a' * b <= a * b'.
Proof.
  intros Hle Hk Hk'.
  do 7 (destruct k as [|k]; [injection Hk as <- <-;
        do 7 (destruct k' as [|k']; [injection Hk' as <- <-; lia|]); lia|]).
  done.
Qed.

Section Recorded.
Variable l : list Duration.
Variable ds : DurationSampler.
Hypothesis Hl : Forall (fun d => 0 <= d < 2 ^ 63) l.
Hypothesis Hn : Z.of_nat (length l) < 2 ^ 32.
Hypothesis Hexact : cmp_exact (Z.of_nat (length l)) = true.
Hypothesis Hlen : length (durations ds) = 2001%nat.
Hypothesis Hcount : count ds = Z.of_nat (length l).
Hypothesis Hdur :
  forall j : nat, (j < 2001)%nat -> durations ds !! j = Some (hits l (Z.of_nat j)).

Let n := Z.of_nat (length l).
Let total := float64_of_uint64 (count ds).

Lemma hit_iff j k a b :
  (j < 2001)%nat -> percentile_ratios !! k = Some (a, b) ->
  hit total (cum ds (S j)) k <-> a * n <= b * below l (Z.of_nat (S j)).
Proof.
  intros Hj Hab. rewrite (cum_below ds l Hl Hdur (S j)) by lia.
  assert (Hk : (k < 7)%nat) by (by apply lookup_lt_Some in Hab).
  destruct (percentiles_lookup k Hk) as [q Hq].
  pose proof (below_bounds l (Z.of_nat (S j))) as Hb.
  pose proof (cmp_exact_spec n (below l (Z.of_nat (S j))) k q a b Hexact Hb Hq Hab) as Hcmp.
  unfold frac_geb in Hcmp. unfold hit, total. rewrite Hcount. fold n. split.
  - intros (q' & Hq' & Hge). rewrite Hq in Hq'. injection Hq' as <-.
    rewrite Hcmp in Hge. by apply Z.leb_le.
  - intros Hle. exists q. split; [done|]. rewrite Hcmp. by apply Z.leb_le.
Qed.

Lemma recorded_hit_mono j k k' :
  (k' <= k)%nat -> hit total (cum ds (S j)) k -> hit total (cum ds (S j)) k'.
Proof.
  intros Hle Hhit.
  assert (Hk : (k < 7)%nat).
  { destruct Hhit as (q & Hq & _). by apply lookup_lt_Some in Hq. }
  destruct (percentile_ratios_lookup k Hk) as (a & b & Hab & _).
  destruct (percentile_ratios_lookup k' ltac:(lia)) as (a' & b' & Hab' & _).
  destruct (percentile_ratios_ascending k k' a b a' b' Hle Hab Hab') as (Hb & Hb' & Hasc).
  destruct (decide (j < 2001)%nat) as [Hj|Hj].
  - apply (hit_iff j k a b Hj Hab) in Hhit. apply (hit_iff j k' a' b' Hj Hab').
    pose proof (below_bounds l (Z.of_nat (S j))).
    assert (0 <= n) by (unfold n; lia). nia.
  - (* past the slice the accumulated count is the whole population *)
    assert (Hcum : cum ds (S j) = cum ds 2001).
    { unfold cum. rewrite !take_ge by lia. done. }
    rewrite Hcum in *. change 2001%nat with (S 2000) in *.
    apply (hit_iff 2000 k a b ltac:(lia) Hab) in Hhit.
    apply (hit_iff 2000 k' a' b' ltac:(lia) Hab').
    pose proof (below_bounds l (Z.of_nat (S 2000))).
    assert (0 <= n) by (unfold n; lia). nia.
Qed.

End Recorded.

(** Every value of the table is a whole number of milliseconds. *)
Lemma cells_facts j val r :
  cells segments 0 !! j = Some (val, r) ->
  (val ÷ Millisecond) * Millisecond = val /\ 0 <= val < 2 ^ 62 /\
  r ÷ 2 < r <= 1024 * Millisecond.
Proof.
  intros Hj.
  assert (Hall : forallb cell_ok (cells segments 0) = true) by (vm_compute; reflexivity).
  rewrite forallb_forall in Hall.
  specialize (Hall (val, r) ltac:(apply list_elem_of_In; by eapply list_elem_of_lookup_2)).
  unfold cell_ok in Hall. cbn [fst snd] in Hall.
  rewrite !andb_true_iff in Hall. destruct Hall as ((((Hrem & H0) & H1) & Hr0) & Hr1).
  apply Z.eqb_eq in Hrem. apply Z.leb_le in H0. apply Z.ltb_lt in H1.
  apply Z.ltb_lt in Hr0. apply Z.leb_le in Hr1.
  pose proof (Z.quot_rem' val Millisecond) as Hqr. rewrite Hrem in Hqr.
  pose proof (quot_half_bounds r Hr0).
  split; [lia|]. split; [lia|]. lia.
Qed.

Lemma first_hit_unique ds total k j j' :
  first_hit ds total k j -> first_hit ds total k j' -> j = j'.
Proof.
  intros [Hh Hno] [Hh' Hno'].
  destruct (Nat.lt_trichotomy j j') as [Hlt|[->|Hgt]]; [|done|].
  - by destruct (Hno' j Hlt).
  - by destruct (Hno j' Hgt).
Qed.

(** The test in [float64] decides the comparison for every population of
    1 to 256 durations. *)
Lemma cmp_exact_upto_256 n : 1 <= n <= 256 -> cmp_exact n = true.
Proof.
  intros Hn.
  assert (Hall : forallb cmp_exact (map Z.of_nat (seq 1 256)) = true)
    by (vm_compute; reflexivity).
  rewrite forallb_forall in Hall. apply Hall.
  apply in_map_iff. exists (Z.to_nat n). split; [lia|]. apply in_seq. lia.
Qed.

(** The values [Percentiles] returns for a sampler that recorded [l]. *)
Lemma Percentiles_recorded (l : list Duration) (ds : DurationSampler) :
  Z.of_nat (length l) < 2 ^ 32 ->
  Forall (fun d => 0 <= d < 2 ^ 63) l ->
  cmp_exact (Z.of_nat (length l)) = true ->
  Update_all NewDurationSampler l = Some ds ->
  exists res,
    Percentiles ds = Some res /\ length res = 7%nat /\
    forall k a b v,
      percentile_ratios !! k = Some (a, b) ->
      nearest_rank l a b v ->
      if v <? overflow_from then
        exists val r,
          cells segments 0 !! Z.to_nat (Update_index v) = Some (val, r) /\
          res !! k = Some (float64_of_int64 (val ÷ Millisecond)) /\
          (val ÷ Millisecond) * Millisecond = val /\
          Z.abs (val - v) <= r ÷ 2 /\ r ÷ 2 < r <= 1024 * Millisecond
      else res !! k = Some sentinel.
Proof.
  intros Hn Hl Hexact Hrec.
  destruct (Update_all_fresh l Hl Hn) as (ds' & Hds & Hlen & Hcount & Hdur).
  rewrite Hrec in Hds. injection Hds as <-.
  assert (Hnn : Forall (fun c => 0 <= c) (durations ds)).
  { apply Forall_lookup. intros j c Hj.
    rewrite (Hdur j) in Hj by (apply lookup_lt_Some in Hj; lia).
    injection Hj as <-. apply hits_bounds. }
  assert (Hsum : sum_Z (durations ds) < 2 ^ 64).
  { pose proof (cum_below ds l Hl Hdur 2001 ltac:(lia)) as Hc.
    unfold cum in Hc. rewrite take_ge in Hc by lia. rewrite Hc.
    pose proof (below_bounds l (Z.of_nat 2001)). lia. }
  destruct (Percentiles_spec ds Hnn Hsum Hlen
              (recorded_hit_mono l ds Hl Hexact Hlen Hcount Hdur))
    as (res & Hres & Hlres & Hspec).
  exists res. split; [done|]. split; [done|].
  intros k a b v Hab (Hv & Hlt & Hge).
  assert (Hk : (k < 7)%nat) by (by apply lookup_lt_Some in Hab).
  assert (Hvr : 0 <= v < 2 ^ 63) by (by apply (proj1 (Forall_forall _ _) Hl)).
  destruct (Update_index_range v Hvr) as [Hidx Hov].
  set (jv := Z.to_nat (Update_index v)).
  (* no slot before that of [v] reaches the percentile *)
  assert (Hbefore : forall j, (j < jv)%nat -> (j < 2000)%nat ->
            ~ hit (float64_of_uint64 (count ds)) (cum ds (S j)) k).
  { intros j Hj Hj' Hhit.
    apply (hit_iff l ds Hl Hexact Hlen Hcount Hdur j k a b ltac:(lia) Hab) in Hhit.
    assert (below l (Z.of_nat (S j)) <= count_if (fun d => d <? v) l).
    { apply count_if_le. intros d Hd Hd'. apply Z.ltb_lt in Hd'. apply Z.ltb_lt.
      destruct (Z.lt_ge_cases d v) as [|Hdv]; [done|].
      assert (Hdr : 0 <= d < 2 ^ 63) by (by apply (proj1 (Forall_forall _ _) Hl)).
      pose proof (Update_index_mono v d ltac:(lia) Hdv ltac:(lia)). lia. }
    assert (0 < b) by (destruct (percentile_ratios_lookup k Hk)
                         as (a' & b' & Hab' & ?); simplify_eq; lia).
    nia. }
  destruct (Z.ltb_spec v overflow_from) as [Hin|Hout].
  - (* the slot of [v] reaches it *)
    assert (Hjv : (jv < 2000)%nat).
    { assert (Update_index v <> 2000) by (intros H2000; apply Hov in H2000; lia). lia. }
    assert (Hat : first_hit ds (float64_of_uint64 (count ds)) k jv).
    { split; [|intros j Hj; apply Hbefore; lia].
      apply (hit_iff l ds Hl Hexact Hlen Hcount Hdur jv k a b ltac:(lia) Hab).
      assert (count_if (fun d => d <=? v) l <= below l (Z.of_nat (S jv))).
      { apply count_if_le. intros d Hd Hd'. apply Z.leb_le in Hd'. apply Z.ltb_lt.
        assert (Hdr : 0 <= d < 2 ^ 63) by (by apply (proj1 (Forall_forall _ _) Hl)).
        pose proof (Update_index_mono d v ltac:(lia) Hd' ltac:(lia)). lia. }
      assert (0 < b) by (destruct (percentile_ratios_lookup k Hk)
                           as (a' & b' & Hab' & ?); simplify_eq; lia).
      nia. }
    destruct (Update_index_accurate v ltac:(lia)) as (val & r & Hcell & Hacc).
    fold jv in Hcell. exists val, r. split; [done|].
    pose proof (cells_facts _ _ _ Hcell) as (Hms & Hrange & Hr).
    destruct (Hspec k Hk) as [(j & val' & r' & Hcell' & Hfh & Hrk)|[Hnone _]].
    + rewrite (first_hit_unique _ _ _ _ _ Hfh Hat) in Hcell'.
      rewrite Hcell in Hcell'. injection Hcell' as <- <-.
      split; [|done]. rewrite Hrk. unfold reported, quot64.
      rewrite wrap_int64_id; [done|]. unfold in_int64.
      pose proof (Z.quot_le_upper_bound val Millisecond (2 ^ 62) ltac:(done)).
      pose proof (Z.quot_pos val Millisecond ltac:(lia) ltac:(done)).
      unfold Millisecond in *. lia.
    + destruct Hat as [Hhit _]. by destruct (Hnone jv Hjv).
  - (* the slot of [v] is past the table *)
    assert (Hjv : jv = 2000%nat) by (apply Hov in Hout; lia).
    destruct (Hspec k Hk) as [(j & val' & r' & Hcell' & [Hhit _] & Hrk)|[_ Hsent]]; [|done].
    apply lookup_lt_Some in Hcell'.
    pose proof (length_cells segments 0 segments_ok) as HlenC.
    rewrite segments_total_slots in HlenC.
    destruct (Hbefore j); [lia|lia|done].
Qed.

(** C9.  Record fewer than [2^32] durations, none negative, on a fresh
    sampler.  Then [Percentiles] returns seven values, and for each
    percentile [a/b] and its nearest-rank value [v] in the population:
    when [v] is below 256.488 s, the value returned is the value of the
    slot of [v], in whole milliseconds, and lies within half the
    resolution of that slot's segment of [v]; from 256.488 s on it is the
    sentinel 9999999. *)
Theorem Percentiles_nearest_rank (l : list Duration) :
  Z.of_nat (length l) < 2 ^ 32 ->
  Forall (fun d => 0 <= d < 2 ^ 63) l ->
  exists ds res,
    Update_all NewDurationSampler l = Some ds /\
    Percentiles ds = Some res /\ length res = 7%nat /\
    forall k a b v,
      percentile_ratios !! k = Some (a, b) ->
      nearest_rank l a b v ->
      if v <? overflow_from then
        exists val r,
          cells segments 0 !! Z.to_nat (Update_index v) = Some (val, r) /\
          res !! k = Some (float64_of_int64 (val ÷ Millisecond)) /\
          (val ÷ Millisecond) * Millisecond = val /\
          Z.abs (val - v) <= r ÷ 2 /\ r ÷ 2 < r <= 1024 * Millisecond
      else res !! k = Some sentinel.
Proof.
  intros Hn Hl.
  destruct (Update_all_fresh l Hl Hn) as (ds & Hds & _).
  destruct l as [|d l'] eqn:El.
  - injection Hds as <-. eexists _, _. split; [reflexivity|].
    split; [vm_compute; reflexivity|]. split; [reflexivity|].
    intros k a b v _ [Hin _]. by apply elem_of_nil in Hin.
  - rewrite <- El in *.
    assert (Hexact : cmp_exact (Z.of_nat (length l)) = true).
    { apply Float64Proofs.cmp_exact_below_2_32. rewrite El in *. cbn [length] in *. lia. }
    destruct (Percentiles_recorded l ds Hn Hl Hexact Hds) as (res & Hres & Hlen & Hall).
    by exists ds, res.
Qed.

(** For a population of 1 to 256 durations the test in [float64] has been
    evaluated, and nothing is assumed of it. *)
Theorem Percentiles_nearest_rank_upto_256 (l : list Duration) :
  1 <= Z.of_nat (length l) <= 256 ->
  Forall (fun d => 0 <= d < 2 ^ 63) l ->
  exists ds res,
    Update_all NewDurationSampler l = Some ds /\
    Percentiles ds = Some res /\ length res = 7%nat /\
    forall k a b v,
      percentile_ratios !! k = Some (a, b) ->
      nearest_rank l a b v ->
      if v <? overflow_from then
        exists val r,
          cells segments 0 !! Z.to_nat (Update_index v) = Some (val, r) /\
          res !! k = Some (float64_of_int64 (val ÷ Millisecond)) /\
          (val ÷ Millisecond) * Millisecond = val /\
          Z.abs (val - v) <= r ÷ 2 /\ r ÷ 2 < r <= 1024 * Millisecond
      else res !! k = Some sentinel.
Proof.
  intros Hn Hl.
  assert (Hn' : Z.of_nat (length l) < 2 ^ 32) by lia.
  destruct (Update_all_fresh l Hl Hn') as (ds & Hds & _).
  destruct (Percentiles_recorded l ds Hn' Hl (cmp_exact_upto_256 _ Hn) Hds)
    as (res & Hres & Hlen & Hall).
  by exists ds, res.
Qed.

(** *** The nearest-rank percentile exists *)

Lemma list_max_exists (l : list Z) :
  l <> [] -> exists u, u ∈ l /\ forall x, x ∈ l -> x <= u.
Proof.
  induction l as [|y l IH]; [done|]. intros _.
  destruct l as [|z l'].
  - exists y. split; [by left|]. intros x Hx%list_elem_of_singleton. lia.
  - destruct (IH ltac:(done)) as (u & Hu & Hmax).
    destruct (Z.le_gt_cases y u).
    + exists u. split; [by right|]. intros x [->|Hx]%elem_of_cons; [lia|by apply Hmax].
    + exists y. split; [by left|].
      intros x [->|Hx]%elem_of_cons; [lia|]. specialize (Hmax x Hx). lia.
Qed.

Lemma list_min_exists (l : list Z) :
  l <> [] -> exists u, u ∈ l /\ forall x, x ∈ l -> u <= x.
Proof.
  induction l as [|y l IH]; [done|]. intros _.
  destruct l as [|z l'].
  - exists y. split; [by left|]. intros x Hx%list_elem_of_singleton. lia.
  - destruct (IH ltac:(done)) as (u & Hu & Hmin).
    destruct (Z.le_gt_cases u y).
    + exists u. split; [by right|]. intros x [->|Hx]%elem_of_cons; [lia|by apply Hmin].
    + exists y. split; [by left|].
      intros x [->|Hx]%elem_of_cons; [lia|]. specialize (Hmin x Hx). lia.
Qed.

Lemma count_if_ext (P Q : Duration -> bool) l :
  (forall d, d ∈ l -> P d = Q d) -> count_if P l = count_if Q l.
Proof.
  intros H. apply Z.le_antisymm; apply count_if_le; intros d Hd; rewrite (H d Hd); done.
Qed.

Lemma count_if_all (P : Duration -> bool) l :
  (forall d, d ∈ l -> P d = true) -> count_if P l = Z.of_nat (length l).
Proof.
  induction l as [|d l IH]; intros H; cbn [count_if length]; [done|].
  rewrite (H d ltac:(by left)), IH by (intros; apply H; by right). lia.
Qed.

Lemma count_if_none (P : Duration -> bool) l :
  (forall d, d ∈ l -> P d = false) -> count_if P l = 0.
Proof.
  induction l as [|d l IH]; intros H; cbn [count_if]; [done|].
  rewrite (H d ltac:(by left)), IH by (intros; apply H; by right). lia.
Qed.

(** Every population that is not empty has a nearest-rank percentile for
    every fraction [0 < a/b <= 1]. *)
Lemma nearest_rank_exists (l : list Duration) a b :
  l <> [] -> 0 < a <= b -> exists v, nearest_rank l a b v.
Proof.
  intros Hne Hab. set (n := Z.of_nat (length l)).
  assert (Hn : 0 < n) by (unfold n; destruct l; [done|cbn [length]; lia]).
  (* the elements up to which the share a/b is reached *)
  set (reach := fun v => a * n <=? b * count_if (fun d => d <=? v) l).
  destruct (list_max_exists l Hne) as (m & Hm & Hmax).
  assert (Hcand : filter (fun v => reach v = true) l <> []).
  { intros Hnil. apply (filter_nil_not_elem_of _ _ m Hnil); [|done].
    unfold reach. apply Z.leb_le.
    rewrite count_if_all by (intros d Hd; apply Z.leb_le; by apply Hmax).
    fold n. nia. }
  destruct (list_min_exists _ Hcand) as (v & Hv & Hmin).
  apply list_elem_of_filter in Hv as [Hreach Hv].
  exists v. split; [done|]. split; [|by apply Z.leb_le in Hreach].
  fold n.
  destruct (decide (filter (fun d => d < v) l = [])) as [Hnone|Hsome].
  - rewrite count_if_none; [lia|].
    intros d Hd. apply Z.ltb_ge. destruct (Z.lt_ge_cases d v) as [Hlt|]; [|done].
    by destruct (filter_nil_not_elem_of _ _ d Hnone).
  - destruct (list_max_exists _ Hsome) as (u & Hu & Humax).
    apply list_elem_of_filter in Hu as [Huv Hu].
    rewrite (count_if_ext _ (fun d => d <=? u)).
    + destruct (Z.leb_spec (a * n) (b * count_if (fun d => d <=? u) l)) as [Hru|]; [|done].
      assert (v <= u); [|lia].
      apply Hmin. apply list_elem_of_filter. split; [|done]. unfold reach.
      by apply Z.leb_le.
    + intros d Hd. destruct (Z.ltb_spec d v) as [Hlt|Hge], (Z.leb_spec d u) as [Hle|Hgt];
        try done; [|lia].
      assert (d <= u); [|lia]. apply Humax. by apply list_elem_of_filter.
Qed.

(** *** Instances *)

(** The constants of [percentiles] are the doubles nearest to the
    fractions. *)
Lemma percentiles_are_ratios :
  Forall2 (fun q ab => q = PrimFloat.div (float64_of_uint64 ab.1) (float64_of_uint64 ab.2))
    percentiles percentile_ratios.
Proof. repeat constructor. Qed.

(** One request of 256.5 s, which the coverage of the table (257 s)
    includes: it is every percentile of the population, and all seven
    values are the sentinel, 9999999 ms, further from it than any
    resolution. *)
Lemma Percentiles_sentinel_within_coverage :
  let d := 256500 * Millisecond in
  0 <= d < total_bound segments /\
  Forall (fun ab => nearest_rank [d] ab.1 ab.2 d) percentile_ratios /\
  Update_all NewDurationSampler [d] ≫= Percentiles
    = Some (replicate 7 (float64_of_int64 9999999)) /\
  1024 * Millisecond < 9999999 * Millisecond - d.
Proof.
  split; [done|]. split; [|split; [by vm_compute|done]].
  repeat constructor; by vm_compute.
Qed.

Lemma Percentiles_nearest_rank_witness :
  exists ds res,
    Update_all NewDurationSampler sample_population = Some ds /\
    Percentiles ds = Some res /\ length res = 7%nat /\
    forall k a b v,
      percentile_ratios !! k = Some (a, b) ->
      nearest_rank sample_population a b v ->
      if v <? overflow_from then
        exists val r,
          cells segments 0 !! Z.to_nat (Update_index v) = Some (val, r) /\
          res !! k = Some (float64_of_int64 (val ÷ Millisecond)) /\
          (val ÷ Millisecond) * Millisecond = val /\
          Z.abs (val - v) <= r ÷ 2 /\ r ÷ 2 < r <= 1024 * Millisecond
      else res !! k = Some sentinel.
Proof.
  apply (Percentiles_nearest_rank sample_population).
  - reflexivity.
  - repeat constructor; discriminate.
Defined.

Lemma Percentiles_nearest_rank_upto_256_witness :
  exists ds res,
    Update_all NewDurationSampler sample_population = Some ds /\
    Percentiles ds = Some res /\ length res = 7%nat /\
    forall k a b v,
      percentile_ratios !! k = Some (a, b) ->
      nearest_rank sample_population a b v ->
      if v <? overflow_from then
        exists val r,
          cells segments 0 !! Z.to_nat (Update_index v) = Some (val, r) /\
          res !! k = Some (float64_of_int64 (val ÷ Millisecond)) /\
          (val ÷ Millisecond) * Millisecond = val /\
          Z.abs (val - v) <= r ÷ 2 /\ r ÷ 2 < r <= 1024 * Millisecond
      else res !! k = Some sentinel.
Proof.
  apply (Percentiles_nearest_rank_upto_256 sample_population).
  - split; discriminate.
  - repeat constructor; discriminate.
Defined.

End PercentileProofs.

(** ** The duration sampler: edge cases and totals *)

Module SamplerEdgeProofs.
Import GoInt GoFloat Sampler SamplerProofs PercentileProofs.
Local Open Scope Z_scope.

(** *** The scan of [Percentiles] *)

Lemma StronglySorted_snoc_le (ms : list Z) (m : Z) :
  StronglySorted Z.le ms -> Forall (fun x => x <= m) ms ->
  StronglySorted Z.le (ms ++ [m]).
Proof.
  induction 1 as [|x ms Hs IH Hx]; intros Hall; cbn.
  - repeat constructor.
  - apply Forall_cons in Hall as [Hxm Hall]. constructor; [by apply IH|].
    apply Forall_app. split; [done|]. by repeat constructor.
Qed.

Lemma StronglySorted_app_replicate (ms : list Z) (m : Z) n :
  StronglySorted Z.le ms -> Forall (fun x => x <= m) ms ->
  StronglySorted Z.le (ms ++ replicate n m).
Proof.
  intros Hs Hall. induction n as [|n IH].
  - by rewrite app_nil_r.
  - rewrite replicate_S_end, app_assoc. apply StronglySorted_snoc_le; [done|].
    apply Forall_app. split; [done|]. apply Forall_replicate. lia.
Qed.

Lemma scan_sorted_mono D D' pi result :
  D <= D' -> scan_sorted D pi result -> scan_sorted D' pi result.
Proof.
  intros HD (Hlen & ms & Hms & Hlook & Hsort & Hall).
  split; [done|]. exists ms. repeat split; try done.
  eapply Forall_impl; [exact Hall|]. cbn. intros m [? ?]. lia.
Qed.

(** What [emit_loop] adds: the value of the current slot, for the
    percentiles [pi .. pi' - 1]. *)
Lemma scan_sorted_emit D pi pi' (result result' : list float) :
  0 <= D < 2 ^ 62 -> (pi <= pi' <= 7)%nat ->
  scan_sorted D pi result ->
  length result' = 7%nat ->
  (forall k, (pi <= k < pi')%nat -> result' !! k = Some (reported D)) ->
  (forall k, (k < pi)%nat -> result' !! k = result !! k) ->
  scan_sorted D pi' result'.
Proof.
  intros HD Hpi (Hlen & ms & Hms & Hlook & Hsort & Hall) Hlen' Hnew Hold.
  split; [done|].
  assert (Hq : quot64 D Millisecond = D ÷ Millisecond).
  { unfold quot64. apply wrap_int64_id. unfold in_int64.
    assert (0 <= D ÷ Millisecond <= D); [|lia].
    rewrite Z.quot_div_nonneg by (unfold Millisecond; lia).
    split; [apply Z.div_pos; unfold Millisecond; lia|].
    apply Z.div_le_upper_bound; unfold Millisecond; lia. }
  assert (Hm : 0 <= D ÷ Millisecond /\ (D ÷ Millisecond) * Millisecond <= D).
  { rewrite Z.quot_div_nonneg by (unfold Millisecond; lia).
    split; [apply Z.div_pos; unfold Millisecond; lia|].
    rewrite Z.mul_comm. apply Z.mul_div_le. unfold Millisecond. lia. }
  exists (ms ++ replicate (pi' - pi) (D ÷ Millisecond)). split; [|split; [|split]].
  - rewrite length_app, length_replicate. lia.
  - intros k m Hk. destruct (decide (k < pi)%nat) as [Hlt|Hge].
    + rewrite lookup_app_l in Hk by lia. rewrite Hold by done. by apply Hlook.
    + rewrite lookup_app_r in Hk by lia.
      apply lookup_replicate in Hk as [-> Hk].
      rewrite Hnew by lia. unfold reported. by rewrite Hq.
  - apply StronglySorted_app_replicate; [done|].
    eapply Forall_impl; [exact Hall|]. cbn. intros m [Hm0 HmD].
    rewrite Z.quot_div_nonneg by (unfold Millisecond; lia).
    apply Z.div_le_lower_bound; unfold Millisecond in *; lia.
  - apply Forall_app. split; [done|]. by apply Forall_replicate.
Qed.

Lemma slot_loop_sorted ds total base s : forall n a st,
  0 < resolution s -> 0 <= base ->
  base + resolution s * (Z.of_nat a + Z.of_nat n) < 2 ^ 62 ->
  (sc_pi st < 7)%nat ->
  scan_sorted (base + resolution s * Z.of_nat a) (sc_pi st) (sc_result st) ->
  (sc_di st + n <= length (durations ds))%nat ->
  match slot_loop ds total base s (Z.of_nat <$> seq a n) st with
  | Next st' =>
      (sc_pi st' < 7)%nat /\
      scan_sorted (base + resolution s * (Z.of_nat a + Z.of_nat n))
        (sc_pi st') (sc_result st') /\
      sc_di st' = (sc_di st + n)%nat
  | Return res =>
      scan_sorted (base + resolution s * (Z.of_nat a + Z.of_nat n)) 7 res
  | Panic => False
  end.
Proof.
  induction n as [|n IH]; intros a st Hres Hbase Hmax Hpi Hinv Hlen.
  - cbn. rewrite Z.add_0_r, Nat.add_0_r. done.
  - cbn [seq fmap list_fmap slot_loop].
    destruct (lookup_lt_is_Some_2 (durations ds) (sc_di st) ltac:(lia)) as [c Hc].
    rewrite Hc.
    assert (Hd : add64 base (mul64 (resolution s) (Z.of_nat a))
                 = base + resolution s * Z.of_nat a).
    { assert (0 <= resolution s * Z.of_nat a) by nia.
      assert (resolution s * Z.of_nat a
              <= resolution s * (Z.of_nat a + Z.of_nat (S n))) by nia.
      by unwrap64. }
    rewrite Hd. set (D := base + resolution s * Z.of_nat a) in *.
    assert (HD : 0 <= D < 2 ^ 62) by (subst D; nia).
    assert (HD' : D <= base + resolution s * Z.of_nat (S a)) by (subst D; nia).
    destruct Hinv as [Hl Hms].
    pose proof (emit_loop_spec total (wrap_uint64 (sc_count st + c)) D
                  (7 - sc_pi st) (sc_pi st) (sc_result st) eq_refl Hpi Hl) as He.
    change (length percentiles) with 7%nat.
    destruct (emit_loop _ _ _ _ _) as [[pi' result']| result' |]; [| |done].
    + destruct He as (Hr & Hl' & Hin & Hout & _).
      assert (Hinv1 : scan_sorted D pi' result').
      { apply (scan_sorted_emit D (sc_pi st) pi' (sc_result st)); try done; [lia| |].
        - intros k Hk. by apply Hin.
        - intros k Hk. apply Hout. lia. }
      apply (scan_sorted_mono _ _ _ _ HD') in Hinv1.
      specialize (IH (S a)
        {| sc_count := wrap_uint64 (sc_count st + c); sc_di := S (sc_di st);
           sc_pi := pi'; sc_result := result' |} Hres Hbase ltac:(lia)
        ltac:(cbn; lia) Hinv1 ltac:(cbn; lia)).
      replace (Z.of_nat a + Z.of_nat (S n)) with (Z.of_nat (S a) + Z.of_nat n) by lia.
      destruct (slot_loop _ _ _ _ _ _) as [st'|res|]; [|done|done].
      destruct IH as (? & ? & ->). split; [done|]. split; [done|]. cbn. lia.
    + destruct He as (Hl' & Hin & Hout).
      apply (scan_sorted_mono D); [nia|].
      apply (scan_sorted_emit D (sc_pi st) 7 (sc_result st)); try done; [lia|].
      intros k Hk. by apply Hin.
Qed.

Lemma segment_loop_sorted ds total : forall segs base st,
  Forall segment_ok segs ->
  0 <= base -> base + total_bound segs < 2 ^ 62 ->
  (sc_pi st < 7)%nat ->
  scan_sorted base (sc_pi st) (sc_result st) ->
  (Z.of_nat (sc_di st) + total_slots segs <= Z.of_nat (length (durations ds))) ->
  match segment_loop ds total segs base st with
  | Next st' =>
      (sc_pi st' < 7)%nat /\
      scan_sorted (base + total_bound segs) (sc_pi st') (sc_result st')
  | Return res => scan_sorted (base + total_bound segs) 7 res
  | Panic => False
  end.
Proof.
  induction segs as [|s segs IH]; intros base st Hok Hbase Hmax Hpi Hinv Hlen.
  - cbn. rewrite Z.add_0_r. done.
  - apply Forall_cons in Hok as [(Hres & Hslots & Hprod) Hok].
    rewrite total_bound_cons in *. rewrite total_slots_cons in Hlen.
    pose proof (total_bound_nonneg segs Hok) as Htb.
    pose proof (total_slots_nonneg segs Hok) as Hts.
    cbn [segment_loop]. unfold slot_range.
    pose proof (slot_loop_sorted ds total base s (Z.to_nat (slots s)) 0 st Hres Hbase) as Hsl.
    rewrite Z2Nat.id in Hsl by lia. cbn [Z.of_nat] in Hsl.
    rewrite Z.mul_0_r, Z.add_0_r, Z.add_0_l in Hsl.
    specialize (Hsl ltac:(lia) Hpi Hinv ltac:(lia)).
    change (map Z.of_nat (seq 0 (Z.to_nat (slots s))))
      with (Z.of_nat <$> seq 0 (Z.to_nat (slots s))).
    destruct (slot_loop _ _ _ _ _ _) as [st'|res|]; [| |done].
    + destruct Hsl as (Hpi' & Hinv' & Hdi).
      assert (Hb : add64 base (mul64 (resolution s) (slots s))
                   = base + resolution s * slots s) by (by unwrap64).
      rewrite Hb.
      specialize (IH (base + resolution s * slots s) st' Hok ltac:(lia) ltac:(lia)
                    Hpi' Hinv' ltac:(lia)).
      rewrite Z.add_assoc. done.
    + eapply scan_sorted_mono; [|exact Hsl]. lia.
Qed.

(** [Percentiles] does not panic on a sampler with at least the 2000
    slots of the table, whatever the counters hold: it returns seven whole
    numbers of milliseconds in ascending order, each at most 257,000 or the
    sentinel 9,999,999. *)
Lemma Percentiles_total_sorted (ds : DurationSampler) :
  (2000 <= length (durations ds))%nat ->
  exists ms : list Z,
    Percentiles ds = Some (float64_of_int64 <$> ms) /\
    length ms = 7%nat /\ StronglySorted Z.le ms /\
    Forall (fun m => 0 <= m <= 257000 \/ m = 9999999) ms.
Proof.
  intros Hlen. unfold Percentiles.
  set (st0 := {| sc_count := 0; sc_di := 0; sc_pi := 0;
                 sc_result := replicate (length percentiles) 0%float |}).
  assert (Hinv0 : scan_sorted 0 (sc_pi st0) (sc_result st0)).
  { split; [done|]. exists []. split; [done|]. split; [done|]. split; constructor. }
  pose proof (segment_loop_sorted ds (float64_of_uint64 (count ds)) segments 0 st0
    segments_ok ltac:(lia)) as H.
  rewrite segments_total_bound, segments_total_slots in H.
  specialize (H ltac:(unfold Millisecond; lia) ltac:(cbn; lia) Hinv0 ltac:(cbn; lia)).
  assert (Hfinal : forall res, scan_sorted (0 + 257000 * Millisecond) 7 res ->
    exists ms : list Z,
      res = (float64_of_int64 <$> ms) /\
      length ms = 7%nat /\ StronglySorted Z.le ms /\
      Forall (fun m => 0 <= m <= 257000) ms).
  { intros res (Hl & ms & Hms & Hlook & Hsort & Hall). exists ms.
    split; [|split; [done|split; [done|]]].
    - apply list_eq. intros k. rewrite list_lookup_fmap.
      destruct (ms !! k) as [m|] eqn:Hk; cbn.
      + by apply Hlook.
      + apply lookup_ge_None in Hk. apply lookup_ge_None. lia.
    - eapply Forall_impl; [exact Hall|]. cbn. unfold Millisecond. intros m [? ?]. lia. }
  destruct (segment_loop _ _ _ _ _) as [st|res|]; [| |done].
  - destruct H as [Hpi (Hl & ms & Hms & Hlook & Hsort & Hall)].
    destruct (fill_loop_spec (7 - sc_pi st) (sc_pi st) (sc_result st) eq_refl
                ltac:(lia) Hl) as (Hfl & Hlo & Hhi).
    change (length percentiles) with 7%nat.
    exists (ms ++ replicate (7 - sc_pi st) 9999999).
    assert (Hb : Forall (fun m => 0 <= m <= 257000) ms).
    { eapply Forall_impl; [exact Hall|]. cbn. unfold Millisecond. intros m [? ?]. lia. }
    split; [|split; [|split]].
    + f_equal. apply list_eq. intros k. rewrite list_lookup_fmap.
      destruct (decide (k < sc_pi st)%nat) as [Hlt|Hge].
      * rewrite Hlo by done. rewrite lookup_app_l by lia.
        destruct (lookup_lt_is_Some_2 ms k ltac:(lia)) as [m Hm].
        rewrite Hm. cbn. by apply Hlook.
      * destruct (decide (k < 7)%nat) as [Hlt7|Hge7].
        -- rewrite Hhi by lia. rewrite lookup_app_r by lia.
           rewrite lookup_replicate_2 by lia. done.
        -- rewrite (proj2 (lookup_ge_None _ _)) by lia.
           rewrite (proj2 (lookup_ge_None _ _)); [done|].
           rewrite length_app, length_replicate. lia.
    + rewrite length_app, length_replicate. lia.
    + apply StronglySorted_app_replicate; [done|].
      eapply Forall_impl; [exact Hb|]. cbn. lia.
    + apply Forall_app. split.
      * eapply Forall_impl; [exact Hb|]. cbn. lia.
      * apply Forall_replicate. by right.
  - destruct (Hfinal res H) as (ms & -> & Hms & Hsort & Hall).
    exists ms. split; [done|]. split; [done|]. split; [done|].
    eapply Forall_impl; [exact Hall|]. cbn. lia.
Qed.

(** *** [Update] and [Reset] *)

Lemma length_Update ds d ds' :
  Update ds d = Some ds' -> length (durations ds') = length (durations ds).
Proof.
  unfold Update. destruct (_ && _); [|done]. intros [= <-]. cbn.
  apply length_alter.
Qed.

Lemma length_Update_all l : forall ds ds',
  Update_all ds l = Some ds' -> length (durations ds') = length (durations ds).
Proof.
  induction l as [|d l IH]; intros ds ds'; cbn.
  - by intros [= <-].
  - destruct (Update ds d) as [ds1|] eqn:Hu; [|done].
    intros Hall%IH. rewrite Hall. by eapply length_Update.
Qed.

(** Whatever has been recorded since [NewDurationSampler], [Reset] gives
    the fresh sampler back, for which [Percentiles] reports the sentinel
    seven times. *)
Lemma Reset_after_updates (l : list Duration) (ds : DurationSampler) :
  Update_all NewDurationSampler l = Some ds ->
  Reset ds = NewDurationSampler /\
  count (Reset ds) = 0 /\
  Forall (fun c => c = 0) (durations (Reset ds)) /\
  Percentiles (Reset ds) = Some (replicate 7 sentinel).
Proof.
  intros Hl%length_Update_all.
  assert (Reset ds = NewDurationSampler) as ->.
  { unfold Reset. rewrite Hl. done. }
  split; [done|]. split; [done|]. split; [|by vm_compute].
  apply Forall_replicate. done.
Qed.

(** The index [Update] computes for a negative duration: the first
    segment decides, and the division truncates towards zero. *)
Lemma Update_index_negative d :
  - 2 ^ 63 <= d < 0 -> Update_index d = (d + 500000) ÷ 1000000.
Proof.
  intros Hd. unfold Update_index, segments. cbn [Update_loop resolution slots].
  change (mul64 Millisecond 500) with 500000000.
  change (quot64 Millisecond 2) with 500000.
  change (sub64 500000000 500000) with 499500000.
  destruct (Z.ltb_spec d 499500000); [|lia].
  unfold Millisecond.
  assert (-2 ^ 63 <= (d + 500000) ÷ 1000000 <= 0)
    by (Z.to_euclidean_division_equations; lia).
  by unwrap64.
Qed.

(** [Update] panics exactly on the durations of -1.5 ms and below: the
    index it computes is then negative.  Every other duration, negative
    ones down to -1.5 ms included, is recorded. *)
Lemma Update_panics_iff (ds : DurationSampler) (d : Duration) :
  length (durations ds) = 2001%nat -> - 2 ^ 63 <= d < 2 ^ 63 ->
  (Update ds d = None <-> d <= -1500000) /\
  (-1500000 < d < 0 -> Update_index d = 0) /\
  (d <= -1500000 -> Update_index d < 0).
Proof.
  intros Hlen Hd.
  assert (Hneg : d < 0 -> Update_index d = (d + 500000) ÷ 1000000)
    by (intros; apply Update_index_negative; lia).
  assert (Hsmall : -1500000 < d < 0 -> Update_index d = 0).
  { intros Hr. rewrite Hneg by lia. Z.to_euclidean_division_equations. lia. }
  assert (Hbig : d <= -1500000 -> Update_index d < 0).
  { intros Hr. rewrite Hneg by lia. Z.to_euclidean_division_equations. lia. }
  split; [|done]. unfold Update. rewrite Hlen.
  destruct (Z.le_gt_cases d (-1500000)) as [Hle|Hgt].
  - specialize (Hbig Hle). destruct (Z.leb_spec 0 (Update_index d)); [lia|]. done.
  - assert (0 <= Update_index d <= 2000) as Hr.
    { destruct (Z.le_gt_cases 0 d).
      - apply Update_index_range. lia.
      - rewrite Hsmall; lia. }
    destruct (Z.leb_spec 0 (Update_index d)); [|lia].
    destruct (Z.ltb_spec (Update_index d) (Z.of_nat 2001)); [|lia].
    cbn. split; [done|lia].
Qed.

(** *** What the counters hold *)

Lemma sum_Z_take_all (l : list Z) n : (length l <= n)%nat -> sum_Z (take n l) = sum_Z l.
Proof. intros. by rewrite take_ge. Qed.

(** After any number below [2^32] of non-negative durations have been
    recorded on a fresh sampler, no sample is lost: [count] is their
    number and so is the sum of the slots; the last slot, the one past the
    table, holds the number of durations of 256,488 ms and more. *)
Lemma Update_all_counts (l : list Duration) :
  Forall (fun d => 0 <= d < 2 ^ 63) l ->
  Z.of_nat (length l) < 2 ^ 32 ->
  exists ds,
    Update_all NewDurationSampler l = Some ds /\
    count ds = Z.of_nat (length l) /\
    sum_Z (durations ds) = Z.of_nat (length l) /\
    durations ds !! 2000%nat = Some (count_if (fun d => overflow_from <=? d) l).
Proof.
  intros Hl Hn.
  destruct (Update_all_fresh l Hl Hn) as (ds & Hall & Hlen & Hcount & Hdur).
  exists ds. split; [done|]. split; [done|]. split.
  - rewrite <- (sum_Z_take_all (durations ds) 2001) by lia.
    change (sum_Z (take 2001 (durations ds))) with (cum ds 2001).
    rewrite (cum_below ds l Hl Hdur 2001 ltac:(lia)).
    unfold below. apply count_if_all. intros d Hd.
    rewrite Forall_forall in Hl.
    pose proof (Update_index_range d (Hl d Hd)) as [Hr _].
    apply Z.ltb_lt. lia.
  - rewrite (Hdur 2000%nat) by lia. f_equal. unfold hits.
    apply count_if_ext. intros d Hd. rewrite Forall_forall in Hl.
    pose proof (Update_index_range d (Hl d Hd)) as [_ Hov].
    destruct (Z.leb_spec overflow_from d) as [Hge|Hlt].
    + apply Z.eqb_eq. by apply Hov.
    + apply Z.eqb_neq. intros Heq. apply Hov in Heq. lia.
Qed.

(** The slot of a duration: a longer duration never falls into an earlier
    slot, and below 256,488 ms the value of the slot is a whole number of
    milliseconds within half the resolution of the duration. *)
Lemma Update_index_monotone_accurate (d1 d2 : Duration) :
  0 <= d1 -> d1 <= d2 -> d2 < 2 ^ 63 ->
  Update_index d1 <= Update_index d2 /\
  (d1 < overflow_from ->
     exists val r,
       cells segments 0 !! Z.to_nat (Update_index d1) = Some (val, r) /\
       (val ÷ Millisecond) * Millisecond = val /\
       Z.abs (val - d1) <= r ÷ 2 /\ r ÷ 2 < r <= 1024 * Millisecond).
Proof.
  intros H1 H12 H2. split; [by apply Update_index_mono|].
  intros Hov. destruct (Update_index_accurate d1 ltac:(lia)) as (val & r & Hc & Hacc).
  exists val, r. split; [done|].
  destruct (cells_facts _ _ _ Hc) as (Hms & _ & Hr). done.
Qed.

(** *** Instances *)

Lemma Percentiles_total_sorted_witness :
  exists ms : list Z,
    Percentiles NewDurationSampler = Some (float64_of_int64 <$> ms) /\
    length ms = 7%nat /\ StronglySorted Z.le ms /\
    Forall (fun m => 0 <= m <= 257000 \/ m = 9999999) ms.
Proof.
  apply (Percentiles_total_sorted NewDurationSampler).
  apply Nat.leb_le. vm_compute. reflexivity.
Defined.

Lemma Reset_after_updates_witness :
  exists ds,
    Update_all NewDurationSampler sample_population = Some ds /\
    Reset ds = NewDurationSampler /\
    count (Reset ds) = 0 /\
    Forall (fun c => c = 0) (durations (Reset ds)) /\
    Percentiles (Reset ds) = Some (replicate 7 sentinel).
Proof.
  destruct (Update_all NewDurationSampler sample_population) as [ds|] eqn:Hds;
    [|vm_compute in Hds; discriminate Hds].
  exists ds. split; [reflexivity|].
  exact (Reset_after_updates sample_population ds Hds).
Defined.

Lemma Update_panics_iff_witness :
  (Update NewDurationSampler (-1500000) = None <-> -1500000 <= -1500000) /\
  (Update NewDurationSampler (-1499999) = None <-> -1499999 <= -1500000).
Proof.
  split.
  - apply (proj1 (Update_panics_iff NewDurationSampler (-1500000)
                    ltac:(vm_compute; reflexivity) ltac:(lia))).
  - apply (proj1 (Update_panics_iff NewDurationSampler (-1499999)
                    ltac:(vm_compute; reflexivity) ltac:(lia))).
Defined.

Lemma Update_all_counts_witness :
  exists ds,
    Update_all NewDurationSampler sample_population = Some ds /\
    count ds = Z.of_nat (length sample_population) /\
    sum_Z (durations ds) = Z.of_nat (length sample_population) /\
    durations ds !! 2000%nat
    = Some (count_if (fun d => overflow_from <=? d) sample_population).
Proof.
  apply (Update_all_counts sample_population).
  - repeat constructor; discriminate.
  - reflexivity.
Defined.

Lemma Update_index_monotone_accurate_witness :
  Update_index (700 * Millisecond) <= Update_index (1003 * Millisecond) /\
  (700 * Millisecond < overflow_from ->
     exists val r,
       cells segments 0 !! Z.to_nat (Update_index (700 * Millisecond)) = Some (val, r) /\
       (val ÷ Millisecond) * Millisecond = val /\
       Z.abs (val - 700 * Millisecond) <= r ÷ 2 /\ r ÷ 2 < r <= 1024 * Millisecond).
Proof.
  apply (Update_index_monotone_accurate (700 * Millisecond) (1003 * Millisecond));
    vm_compute; congruence.
Defined.

End SamplerEdgeProofs.

(** ** The HTTP server runtime *)

Module HTTPServerProofs.
Import HTTPServer.
Local Open Scope Z_scope.

Section WithSpecTypes.
Context {TracingSpec IPFilterSpec Rule : Type}.
Context `{!EqDecision TracingSpec, !EqDecision IPFilterSpec, !EqDecision Rule}.

Abbreviation Spec := (HTTPServer.Spec TracingSpec IPFilterSpec Rule).
Abbreviation runtime := (HTTPServer.runtime TracingSpec IPFilterSpec Rule).
Abbreviation event := (HTTPServer.event TracingSpec IPFilterSpec Rule).

Implicit Types (r : runtime) (x y old new : Spec) (E : env).

(** *** The state only changes through [setState] *)

Lemma state_setState st r : state (setState st r) = st.
Proof. reflexivity. Qed.

Lemma state_setError e r : state (setError e r) = state r.
Proof. by destruct e. Qed.

Lemma err_setError e r :
  err (setError e r) = match e with Some msg => Some msg | None => errNil end.
Proof. by destruct e. Qed.

Lemma state_closeServer r : state (closeServer r) = state r.
Proof. unfold closeServer. by destruct (server3 r), (server r). Qed.

Lemma state_startHTTP1And2Server E sp r :
  state r = stateRunning ->
  state (startHTTP1And2Server E sp r) = stateRunning \/
  state (startHTTP1And2Server E sp r) = stateFailed.
Proof.
  intros Hr. unfold startHTTP1And2Server. cbn.
  destruct (listen E (listens r)); cbn; auto.
Qed.

Lemma state_startServer E r r' :
  startServer E r = Some r' -> state r' = stateRunning \/ state r' = stateFailed.
Proof.
  unfold startServer. cbn. destruct (spec r) as [sp|]; [|done].
  destruct (HTTP3 sp); intros [= <-].
  - by left.
  - by apply state_startHTTP1And2Server.
Qed.

Lemma state_reload E ss mm r r' :
  reload E ss mm r = Some r' ->
  state r' = state r \/ state r' = stateRunning \/ state r' = stateFailed.
Proof.
  unfold reload.
  set (r0 := with_mux _ (with_superSpec ss r)).
  set (r1 := match ObjectSpec ss with Some _ => _ | None => _ end).
  assert (Hsp : spec r1 = spec r).
  { subst r1. by destruct (ObjectSpec ss), (limitListener r0). }
  assert (Hst : state r1 = state r).
  { subst r1. by destruct (ObjectSpec ss), (limitListener r0). }
  unfold needRestartServer. rewrite Hsp. clearbody r1. clear r0.
  destruct (spec r) as [x|], (ObjectSpec ss) as [ns|].
  - destruct (negb _); intros H.
    + right. by apply state_startServer in H.
    + injection H as <-. by left.
  - intros [= <-]. left. by rewrite state_closeServer.
  - intros H. right. by apply state_startServer in H.
  - intros [= <-]. by left.
Qed.

(** A handler other than that of a close event never produces
    [stateClosed]. *)
Lemma handleEventCheckFailed_not_closed E r r' :
  state r <> stateClosed -> handleEventCheckFailed E r = Some r' ->
  state r' <> stateClosed.
Proof.
  unfold handleEventCheckFailed. intros Hr. case_decide.
  - intros [-> | ->]%state_startServer; done.
  - by intros [= <-].
Qed.

Lemma handleEventServeFailed_not_closed r n e :
  state r <> stateClosed -> state (handleEventServeFailed r n e) <> stateClosed.
Proof.
  unfold handleEventServeFailed. intros Hr. destruct (roundNum r >? n); [done|].
  by rewrite state_setError.
Qed.

Lemma handleEventReload_not_closed E r ss mm r' :
  state r <> stateClosed -> handleEventReload E r ss mm = Some r' ->
  state r' <> stateClosed.
Proof.
  intros Hr [-> | [-> | ->]]%state_reload; done.
Qed.

Lemma state_handleEventClose r done : state (handleEventClose r done) = stateClosed.
Proof. unfold handleEventClose. cbn. by rewrite state_closeServer. Qed.

(** *** Stale failure events *)

(** C2.  A serve-failed event of an older round leaves the runtime as it
    is, state and error included; one of the current round sets the state
    to failed and stores the event's error (as [setError] stores it: an
    error with the same message, [errNil] for a [nil] error). *)
Theorem handleEventServeFailed_round r (n : Z) (e : error) :
  (n < roundNum r -> handleEventServeFailed r n e = r) /\
  (n = roundNum r ->
     getState (handleEventServeFailed r n e) = stateFailed /\
     (forall msg, e = Some msg -> getError (handleEventServeFailed r n e) = Some msg) /\
     (e = None -> getError (handleEventServeFailed r n e) = errNil)).
Proof.
  unfold handleEventServeFailed, getState, getError. split.
  - intros Hn. by rewrite (proj2 (Z.gtb_lt _ _) Hn).
  - intros ->. rewrite Z.gtb_ltb, Z.ltb_irrefl.
    rewrite state_setError, err_setError. cbn.
    repeat split; [by intros msg -> | by intros ->].
Qed.

(** *** Which reloads restart the server *)

Lemma DeepEqual_eq x y : DeepEqual x y = true <-> x = y.
Proof.
  unfold DeepEqual. rewrite !andb_true_iff, !bool_decide_eq_true. split.
  - destruct x, y; cbn. intros; destruct_and!; by simplify_eq.
  - by intros ->.
Qed.

Lemma clear_hot_fields_eq old new :
  clear_hot_fields old = clear_hot_fields new <-> differ_only_in_hot_fields old new.
Proof.
  split.
  - intros H. exists (MaxConnections new), (CacheSize new), (XForwardedFor new),
      (Tracing new), (IPFilter new), (Rules new).
    destruct old, new. unfold clear_hot_fields, hot_update in *; cbn in *.
    injection H as -> -> -> -> ->. reflexivity.
  - by intros (mc & cs & xff & tr & ipf & rules & ->).
Qed.

Lemma differ_only_in_hot_fields_cold old new :
  differ_only_in_hot_fields old new <->
  Port old = Port new /\ HTTPS old = HTTPS new /\ HTTP3 old = HTTP3 new /\
  KeepAlive old = KeepAlive new /\ KeepAliveTimeout old = KeepAliveTimeout new.
Proof.
  rewrite <- clear_hot_fields_eq. split.
  - intros H. by injection H.
  - intros (? & ? & ? & ? & ?). unfold clear_hot_fields. congruence.
Qed.

(** C3.  With [old] the current spec, [needRestartServer new] is false
    exactly when [old] and [new] differ at most in the six hot-reloadable
    fields, and true otherwise; a difference in the port, in either
    protocol flag or in either keep-alive setting makes it true. *)
Theorem needRestartServer_hot_fields r old new :
  spec r = Some old ->
  (needRestartServer r (Some new) = Some false <-> differ_only_in_hot_fields old new) /\
  (needRestartServer r (Some new) = Some true <-> ~ differ_only_in_hot_fields old new) /\
  (Port old <> Port new \/ HTTPS old <> HTTPS new \/ HTTP3 old <> HTTP3 new \/
   KeepAlive old <> KeepAlive new \/ KeepAliveTimeout old <> KeepAliveTimeout new ->
   needRestartServer r (Some new) = Some true).
Proof.
  intros Hold. unfold needRestartServer. rewrite Hold.
  rewrite <- clear_hot_fields_eq, <- DeepEqual_eq.
  destruct (DeepEqual _ _) eqn:Heq; cbn.
  - repeat split; try done.
    apply DeepEqual_eq, clear_hot_fields_eq, differ_only_in_hot_fields_cold in Heq.
    intros Hne. destruct_and!. destruct_or!; done.
  - repeat split; done.
Qed.

(** *** The event loop *)

Lemma fsm_no_close E events : forall r,
  state r <> stateClosed ->
  Forall (fun e : event => is_close e = false) events ->
  match fsm E r events with
  | Waiting r' => state r' <> stateClosed
  | Exited _ _ => False
  | Crashed => True
  end.
Proof.
  induction events as [|e rest IH]; intros r Hr Hev; [done|].
  apply Forall_cons in Hev as [He Hrest]. destruct e; cbn.
  - destruct (handleEventCheckFailed E r) as [r'|] eqn:Hh; [|done].
    apply IH; [|done]. by eapply handleEventCheckFailed_not_closed.
  - apply IH; [|done]. by apply handleEventServeFailed_not_closed.
  - destruct (handleEventReload E r _ _) as [r'|] eqn:Hh; [|done].
    apply IH; [|done]. by eapply handleEventReload_not_closed.
  - done.
  - by apply IH.
Qed.

Lemma fsm_until_close E pre done post : forall r,
  Forall (fun e : event => is_close e = false) pre ->
  fsm E r (pre ++ eventClose done :: post) = Crashed \/
  exists r', fsm E r pre = Waiting r' /\
    fsm E r (pre ++ eventClose done :: post) = Exited (handleEventClose r' done) post.
Proof.
  induction pre as [|e rest IH]; intros r Hev.
  - right. by exists r.
  - apply Forall_cons in Hev as [He Hrest]. destruct e; cbn.
    + destruct (handleEventCheckFailed E r); [by apply IH | by left].
    + by apply IH.
    + destruct (handleEventReload E r _ _); [by apply IH | by left].
    + done.
    + by apply IH.
Qed.

(** The loop on [pre ++ rest] goes on from where it stands after [pre]. *)
Lemma fsm_app E pre rest : forall r,
  fsm E r (pre ++ rest) =
  match fsm E r pre with
  | Waiting r' => fsm E r' rest
  | Exited r' unread => Exited r' (unread ++ rest)
  | Crashed => Crashed
  end.
Proof.
  induction pre as [|e pre IH]; intros r; [done|].
  destruct e; cbn.
  - by destruct (handleEventCheckFailed E r).
  - apply IH.
  - by destruct (handleEventReload E r _ _).
  - done.
  - apply IH.
Qed.

(** The loop returns only at a close event that it reaches waiting. *)
Lemma fsm_exited E events : forall r r' unread,
  fsm E r events = Exited r' unread ->
  exists pre done r0,
    events = pre ++ eventClose done :: unread /\
    Forall (fun e : event => is_close e = false) pre /\
    fsm E r pre = Waiting r0 /\ r' = handleEventClose r0 done.
Proof.
  induction events as [|e rest IH]; intros r r' unread; [done|].
  destruct e; cbn.
  - destruct (handleEventCheckFailed E r) as [r1|] eqn:Hh; [|done].
    intros (pre & done & r0 & -> & Hpre & Hw & ->)%IH.
    exists (eventCheckFailed :: pre), done, r0. cbn. rewrite Hh.
    by repeat split; [constructor|..].
  - intros (pre & done & r0 & -> & Hpre & Hw & ->)%IH.
    eexists (eventServeFailed _ _ :: pre), done, r0. cbn. by repeat split; [constructor|..].
  - destruct (handleEventReload E r _ _) as [r1|] eqn:Hh; [|done].
    intros (pre & done & r0 & -> & Hpre & Hw & ->)%IH.
    eexists (eventReload _ _ :: pre), done, r0. cbn. rewrite Hh.
    by repeat split; [constructor|..].
  - intros [= <- <-]. by exists [], done, r.
  - intros (pre & done & r0 & -> & Hpre & Hw & ->)%IH.
    exists (eventOther :: pre), done, r0. cbn. by repeat split; [constructor|..].
Qed.

(** The loop panics only in the handler of a check or of a reload, reached
    waiting. *)
Lemma fsm_crashed E events : forall r,
  fsm E r events = Crashed ->
  exists pre e post r0,
    events = pre ++ e :: post /\ fsm E r pre = Waiting r0 /\
    match e with
    | eventCheckFailed => handleEventCheckFailed E r0 = None
    | eventReload ss mm => handleEventReload E r0 ss mm = None
    | _ => False
    end.
Proof.
  induction events as [|e rest IH]; intros r; [done|].
  destruct e; cbn.
  - destruct (handleEventCheckFailed E r) as [r1|] eqn:Hh.
    + intros (pre & e & post & r0 & -> & Hw & He)%IH.
      exists (eventCheckFailed :: pre), e, post, r0. cbn. by rewrite Hh.
    + intros _. by exists [], eventCheckFailed, rest, r.
  - intros (pre & e & post & r0 & -> & Hw & He)%IH.
    by eexists (eventServeFailed _ _ :: pre), e, post, r0.
  - destruct (handleEventReload E r _ _) as [r1|] eqn:Hh.
    + intros (pre & e & post & r0 & -> & Hw & He)%IH.
      eexists (eventReload _ _ :: pre), e, post, r0. cbn. by rewrite Hh.
    + intros _. by eexists [], (eventReload _ _), rest, r.
  - done.
  - intros (pre & e & post & r0 & -> & Hw & He)%IH.
    by exists (eventOther :: pre), e, post, r0.
Qed.

(** C8.  From a state other than closed, events without a close event
    never make the state closed, whatever prefix of them has been handled.
    At the first close event the loop, unless a handler before it has
    panicked, sets the state to closed and returns, the events behind the
    close staying unread; it panics there only if it had panicked before
    the close.  Conversely the loop returns only at a close event, and
    with the state closed; and it panics only in the handler of a check
    or of a reload. *)
Theorem fsm_closed_only_by_close E r (events : list event) :
  state r <> stateClosed ->
  (Forall (fun e => is_close e = false) events ->
   forall pre, pre `prefix_of` events ->
     match fsm E r pre with
     | Waiting r' => state r' <> stateClosed
     | Exited _ _ => False
     | Crashed => True
     end) /\
  (forall pre done post,
     events = pre ++ eventClose done :: post ->
     Forall (fun e => is_close e = false) pre ->
     match fsm E r pre with
     | Waiting r' =>
         state r' <> stateClosed /\
         fsm E r events = Exited (handleEventClose r' done) post /\
         state (handleEventClose r' done) = stateClosed
     | Exited _ _ => False
     | Crashed => fsm E r events = Crashed
     end) /\
  (forall r' unread,
     fsm E r events = Exited r' unread ->
     state r' = stateClosed /\
     exists pre done,
       events = pre ++ eventClose done :: unread /\
       Forall (fun e => is_close e = false) pre) /\
  (fsm E r events = Crashed ->
   exists pre e post r0,
     events = pre ++ e :: post /\ fsm E r pre = Waiting r0 /\
     match e with
     | eventCheckFailed => handleEventCheckFailed E r0 = None
     | eventReload ss mm => handleEventReload E r0 ss mm = None
     | _ => False
     end).
Proof.
  intros Hr. split; [|split; [|split]].
  - intros Hev pre [suf ->]. apply fsm_no_close; [done|].
    by apply Forall_app in Hev as [? _].
  - intros pre done post -> Hpre. rewrite fsm_app.
    pose proof (fsm_no_close E pre r Hr Hpre) as Hno.
    destruct (fsm E r pre) as [r'| |]; [|done..].
    split; [done|]. split; [done|]. apply state_handleEventClose.
  - intros r' unread (pre & done & r0 & -> & Hpre & _ & ->)%fsm_exited.
    split; [apply state_handleEventClose|]. by exists pre, done.
  - apply fsm_crashed.
Qed.

End WithSpecTypes.

Import HTTPServerSamples.

(** In round 3, a failure of round 2 is ignored and one of round 3 is
    recorded. *)
Lemma handleEventServeFailed_round_witness :
  handleEventServeFailed round3 2 bind_failed = round3 /\
  getState (handleEventServeFailed round3 3 bind_failed) = stateFailed /\
  getError (handleEventServeFailed round3 3 bind_failed) = bind_failed.
Proof.
  split.
  - apply (proj1 (handleEventServeFailed_round round3 2 bind_failed)). reflexivity.
  - destruct (proj2 (handleEventServeFailed_round round3 3 bind_failed) eq_refl)
      as (Hst & Hmsg & _).
    split; [exact Hst | apply Hmsg; reflexivity].
Defined.

(** New rules and a new connection limit on port 80 need no restart;
    moving to port 81 does. *)
Lemma needRestartServer_hot_fields_witness :
  needRestartServer round3 (Some spec80_rules) = Some false /\
  needRestartServer round3 (Some spec81) = Some true.
Proof.
  split.
  - apply (proj1 (needRestartServer_hot_fields round3 spec80 spec80_rules eq_refl)).
    unfold differ_only_in_hot_fields, spec80_rules. eauto 10.
  - apply (proj2 (proj2 (needRestartServer_hot_fields round3 spec80 spec81 eq_refl))).
    left. discriminate.
Defined.

(** A reload, a failure of the current round and a retry leave the loop
    waiting in a state other than closed.  After a reload the loop waits
    with the server running; a close event then closes it and ends the
    loop, and the check behind the close stays unread. *)
Lemma fsm_closed_only_by_close_witness :
  (exists r',
     fsm listen_ok (newRuntime super80 0%nat)
       [eventReload super80 0%nat; eventServeFailed 1 bind_failed; eventCheckFailed]
     = Waiting r' /\ state r' <> stateClosed) /\
  (exists r',
     fsm listen_ok (newRuntime super80 0%nat) [eventReload super80 0%nat] = Waiting r' /\
     state r' = stateRunning /\
     fsm listen_ok (newRuntime super80 0%nat)
       [eventReload super80 0%nat; eventClose 7%nat; eventCheckFailed]
     = Exited (handleEventClose r' 7%nat) [eventCheckFailed] /\
     state (handleEventClose r' 7%nat) = stateClosed).
Proof.
  split.
  - pose proof (proj1 (fsm_closed_only_by_close listen_ok (newRuntime super80 0%nat)
             [eventReload super80 0%nat; eventServeFailed 1 bind_failed; eventCheckFailed]
             ltac:(discriminate)) ltac:(repeat constructor) _ (reflexivity _)) as H.
    destruct (fsm listen_ok (newRuntime super80 0%nat)
                [eventReload super80 0%nat; eventServeFailed 1 bind_failed; eventCheckFailed])
      as [r'| |] eqn:Hall.
    + exists r'. split; [reflexivity | exact H].
    + destruct H.
    + vm_compute in Hall. discriminate Hall.
  - pose proof (proj1 (proj2 (fsm_closed_only_by_close listen_ok (newRuntime super80 0%nat)
             [eventReload super80 0%nat; eventClose 7%nat; eventCheckFailed]
             ltac:(discriminate))) [eventReload super80 0%nat] 7%nat [eventCheckFailed]
             eq_refl ltac:(repeat constructor)) as H.
    destruct (fsm listen_ok (newRuntime super80 0%nat) [eventReload super80 0%nat])
      as [r'| |] eqn:Hpre.
    + exists r'. destruct H as (_ & Hex & Hst). split; [reflexivity|].
      split; [|split; [exact Hex | exact Hst]].
      vm_compute in Hpre. injection Hpre as <-. vm_compute. reflexivity.
    + destruct H.
    + vm_compute in Hpre. discriminate Hpre.
Defined.

End HTTPServerProofs.

(** ** The HTTP server runtime: invariants of the event loop *)

Module RuntimeProofs.
Import GoInt HTTPServer HTTPServerProofs.
Local Open Scope Z_scope.

Section WithSpecTypes.
Context {TracingSpec IPFilterSpec Rule : Type}.
Context `{!EqDecision TracingSpec, !EqDecision IPFilterSpec, !EqDecision Rule}.

Abbreviation Spec := (Spec TracingSpec IPFilterSpec Rule).
Abbreviation SuperSpec := (SuperSpec TracingSpec IPFilterSpec Rule).
Abbreviation runtime := (runtime TracingSpec IPFilterSpec Rule).
Abbreviation event := (event TracingSpec IPFilterSpec Rule).

(** *** Invariants of the event loop *)

Lemma kept_reload E I ss mm (r r' : runtime) :
  kept E I -> I r -> reload E ss mm r = Some r' -> I r'.
Proof.
  intros K Hr. unfold reload.
  set (r1 := with_mux _ (with_superSpec ss r)).
  assert (H1 : I r1) by (by apply K, K).
  set (r2 := match ObjectSpec ss, limitListener r1 with
             | Some ns, Some _ => with_limitListener (Some (MaxConnections ns)) r1
             | _, _ => r1
             end).
  assert (H2 : I r2).
  { subst r2. destruct (ObjectSpec ss), (limitListener r1); try done. by apply K. }
  clearbody r2. clear r1 H1.
  destruct (spec r2) as [old|], (ObjectSpec ss) as [ns|].
  - destruct (needRestartServer r2 (Some ns)) as [[]|]; [| |done].
    + intros Hs. eapply (kept_startServer E I K); [|exact Hs]. by apply K, K.
    + intros [= <-]. by apply K.
  - intros [= <-]. by apply K, K.
  - intros Hs. eapply (kept_startServer E I K); [|exact Hs]. by apply K.
  - by intros [= <-].
Qed.

(** The loop, as long as it has not read a close event, leaves a runtime
    with the property; when it has exited, the close event was handled on
    a runtime with the property. *)
Lemma kept_fsm E I (events : list event) : forall r : runtime,
  kept E I -> I r ->
  match fsm E r events with
  | Waiting r' => I r'
  | Exited r' unread =>
      exists r0 done pre,
        I r0 /\ r' = handleEventClose r0 done /\
        events = pre ++ eventClose done :: unread /\
        Forall (fun e : event => is_close e = false) pre
  | Crashed => True
  end.
Proof.
  induction events as [|e rest IH]; intros r K Hr; [done|].
  assert (Hstep : forall r1 : runtime, I r1 -> is_close e = false ->
    match fsm E r1 rest with
    | Waiting r' => I r'
    | Exited r' unread =>
        exists r0 done pre,
          I r0 /\ r' = handleEventClose r0 done /\
          e :: rest = pre ++ eventClose done :: unread /\
          Forall (fun e : event => is_close e = false) pre
    | Crashed => True
    end).
  { intros r1 H1 He. specialize (IH r1 K H1).
    destruct (fsm E r1 rest) as [r'|r' unread|]; [done| |done].
    destruct IH as (r0 & done & pre & H0 & -> & -> & Hpre).
    exists r0, done, (e :: pre). repeat split; [done|]. by constructor. }
  destruct e; cbn [fsm].
  - unfold handleEventCheckFailed. case_decide.
    + destruct (startServer E r) as [r'|] eqn:Hs; [|done].
      apply Hstep; [|done]. by eapply (kept_startServer E I K).
    + by apply Hstep.
  - apply Hstep; [|done]. by apply K.
  - unfold handleEventReload. destruct (reload E _ _ r) as [r'|] eqn:Hs; [|done].
    apply Hstep; [|done]. by eapply kept_reload.
  - exists r, done, []. by repeat split.
  - by apply Hstep.
Qed.

Lemma startServer_eq E (r : runtime) :
  startServer E r =
    match spec r with
    | None => None
    | Some sp =>
        let r1 := setError None
                    (setState stateRunning (with_roundNum (wrap_uint64 (roundNum r + 1)) r)) in
        if HTTP3 sp then Some (startHTTP3Server sp r1)
        else Some (startHTTP1And2Server E sp r1)
    end.
Proof. done. Qed.

Lemma status_ok_kept E : kept E (status_ok (TracingSpec:=TracingSpec)
                                   (IPFilterSpec:=IPFilterSpec) (Rule:=Rule)).
Proof.
  split; try (intros r **; by destruct r).
  - intros r (He & Hrun & Hh). unfold closeServer.
    destruct (server3 r); [by destruct r|]. destruct (server r); by destruct r.
  - intros r r' _. rewrite startServer_eq. destruct (spec r) as [sp|]; [|done].
    cbv zeta. destruct (HTTP3 sp); intros [= <-]; [done|].
    unfold startHTTP1And2Server. cbn. by destruct (listen E (listens r)).
  - intros r n e (He & Hrun & Hh). unfold handleEventServeFailed.
    destruct (roundNum r >? n); [done|]. by destruct e.
Qed.

Lemma status_ok_close (r : runtime) done :
  status_ok r -> status_ok (handleEventClose r done).
Proof.
  intros (He & Hrun & Hh). unfold handleEventClose, closeServer. cbn.
  destruct (server3 r); [done|]. by destruct (server r).
Qed.

Lemma status_ok_new ss mm : status_ok (newRuntime ss mm : runtime).
Proof. done. Qed.

Lemma status_ok_fsm E ss mm (events : list event) :
  match runtime_of (fsm E (newRuntime ss mm) events) with
  | Some r => status_ok r
  | None => True
  end.
Proof.
  pose proof (kept_fsm E status_ok events (newRuntime ss mm)
                (status_ok_kept E) (status_ok_new ss mm)) as H.
  destruct (fsm E _ events) as [r|r unread|]; [done| |done].
  destruct H as (r0 & done & pre & H0 & -> & _). by apply status_ok_close.
Qed.

(** Whatever events the loop has handled since [newRuntime], [Status]
    does not panic; the health it reports is the message of the stored
    error, and that message is empty while the state is running. *)
Lemma Status_after_events E ss mm (events : list event) :
  match runtime_of (fsm E (newRuntime ss mm) events) with
  | Some r =>
      exists s, runtime_Status r = Some s /\
        st_Name s = Name (superSpec r) /\ st_State s = getState r /\
        st_Health s = st_Error s /\ getError r = Some (st_Error s) /\
        (st_State s = stateRunning -> st_Error s = ""%string)
  | None => True
  end.
Proof.
  pose proof (status_ok_fsm E ss mm events) as H.
  destruct (runtime_of _) as [r|]; [|done].
  destruct H as (He & Hrun & _). unfold runtime_Status, getError, getState.
  destruct (err r) as [msg|] eqn:Hmsg; [|done].
  eexists. split; [done|]. cbn. repeat split; [].
  intros Hst. specialize (Hrun Hst). by injection Hrun.
Qed.

(** Whatever events the loop has handled since [newRuntime], the health
    gauge is 1 when the state is running and 0 in every other state. *)
Lemma health_follows_state E ss mm (events : list event) :
  match runtime_of (fsm E (newRuntime ss mm) events) with
  | Some r =>
      (health r = 1 <-> getState r = stateRunning) /\
      (health r = 0 <-> getState r <> stateRunning)
  | None => True
  end.
Proof.
  pose proof (status_ok_fsm E ss mm events) as H.
  destruct (runtime_of _) as [r|]; [|done].
  destruct H as (_ & _ & Hh). unfold getState. rewrite Hh.
  case_decide; split; split; done.
Qed.

(** *** Reloading *)

Lemma needRestartServer_false (r : runtime) old new :
  spec r = Some old -> differ_only_in_hot_fields old new ->
  needRestartServer r (Some new) = Some false.
Proof.
  intros Hold Hd. unfold needRestartServer. rewrite Hold.
  apply clear_hot_fields_eq, DeepEqual_eq in Hd. by rewrite Hd.
Qed.

Lemma needRestartServer_true (r : runtime) old new :
  spec r = Some old -> ~ differ_only_in_hot_fields old new ->
  needRestartServer r (Some new) = Some true.
Proof.
  intros Hold Hd. unfold needRestartServer. rewrite Hold.
  destruct (DeepEqual _ _) eqn:Heq; [|done].
  by apply DeepEqual_eq, clear_hot_fields_eq in Heq.
Qed.

(** A reload whose specification differs from the current one only in
    the connection limit, the cache size, the forwarding flag, tracing, the
    IP filter and the rules leaves the servers, the round, the state and
    the error as they are and binds no port; it installs the new
    specification, hands it to the mux, and moves the limit of the
    listener, if there is one, to the new maximum. *)
Lemma reload_hot E (r : runtime) ss mm old new :
  spec r = Some old -> ObjectSpec ss = Some new ->
  differ_only_in_hot_fields old new ->
  exists r',
    reload E ss mm r = Some r' /\
    spec r' = Some new /\ superSpec r' = ss /\
    mux_superSpec (mux r') = Some ss /\ mux_mapper (mux r') = mm /\
    limitListener r' = (fun _ => MaxConnections new) <$> limitListener r /\
    server r' = server r /\ server3 r' = server3 r /\
    roundNum r' = roundNum r /\ listens r' = listens r /\
    state r' = state r /\ err r' = err r /\ health r' = health r /\
    doneClosed r' = doneClosed r.
Proof.
  intros Hold Hnew Hd.
  apply clear_hot_fields_eq, DeepEqual_eq in Hd.
  destruct r as [ss0 sp0 srv srv3 mx rn st er ll hl ls dc]. cbn in Hold. subst sp0.
  unfold reload. rewrite Hnew.
  destruct ll as [lim|]; cbn; rewrite Hd; cbn; eexists; (split; [done|]); done.
Qed.

(** *** Rounds *)

Lemma roundNum_startServer E (r r' : runtime) :
  startServer E r = Some r' -> roundNum r' = wrap_uint64 (roundNum r + 1).
Proof.
  rewrite startServer_eq. destruct (spec r) as [sp|]; [|done]. cbv zeta.
  destruct (HTTP3 sp); intros [= <-]; [done|].
  unfold startHTTP1And2Server. cbn. by destruct (listen E (listens r)).
Qed.

Lemma stale_after_startServer E (r r' : runtime) n e :
  0 <= roundNum r < 2 ^ 64 - 1 -> n <= roundNum r ->
  startServer E r = Some r' -> handleEventServeFailed r' n e = r'.
Proof.
  intros Hr Hn Hs%roundNum_startServer. unfold handleEventServeFailed.
  assert (roundNum r' = roundNum r + 1) as ->
    by (rewrite Hs; unfold wrap_uint64; apply Z.mod_small; lia).
  destruct (Z.gtb_spec (roundNum r + 1) n); [done|lia].
Qed.

(** Once the server has been started again, by a retry after a failure or
    by a reload that needs a restart, a serve-failed event that carries the
    round of an earlier server is ignored: the loop goes on as if the
    event had not been sent. *)
Lemma restart_discards_stale_failure E (r : runtime) n e (rest : list event) :
  0 <= roundNum r < 2 ^ 64 - 1 -> n <= roundNum r ->
  (forall r', startServer E r = Some r' -> handleEventServeFailed r' n e = r') /\
  (state r = stateFailed ->
     fsm E r (eventCheckFailed :: eventServeFailed n e :: rest)
     = fsm E r (eventCheckFailed :: rest)) /\
  (forall ss mm old new,
     spec r = Some old -> ObjectSpec ss = Some new ->
     ~ differ_only_in_hot_fields old new ->
     fsm E r (eventReload ss mm :: eventServeFailed n e :: rest)
     = fsm E r (eventReload ss mm :: rest)).
Proof.
  intros Hr Hn. split; [|split].
  - intros r'. by apply stale_after_startServer.
  - intros Hst. cbn [fsm]. unfold handleEventCheckFailed, getState.
    rewrite decide_True by done.
    destruct (startServer E r) as [r'|] eqn:Hs; [|done].
    by rewrite (stale_after_startServer E r r' n e).
  - intros ss mm old new Hold Hnew Hd. cbn [fsm]. unfold handleEventReload.
    destruct (reload E ss mm r) as [r'|] eqn:Hrel; [|done].
    enough (handleEventServeFailed r' n e = r') as -> by done.
    revert Hrel. destruct (DeepEqual (clear_hot_fields old) (clear_hot_fields new)) eqn:Heq.
    { by apply DeepEqual_eq, clear_hot_fields_eq in Heq. }
    destruct r as [ss0 sp0 srv srv3 mx rn st er ll hl ls dc]. cbn in Hold, Hr, Hn. subst sp0.
    unfold reload. rewrite Hnew.
    destruct ll as [lim|]; cbn; rewrite Heq; cbn;
      intros Hs; (eapply stale_after_startServer; [| |exact Hs]);
      unfold closeServer; cbn; destruct srv3; cbn; try lia; destruct srv; cbn; lia.
Qed.

(** A check event in the failed state starts the HTTP/1 server again in a
    new round: when the port can be bound the state is running, the error
    is cleared and the listener limits the connections as specified; when
    it cannot, the state is failed again with the error of the bind.  In
    any other state the check event changes nothing. *)
Lemma retry_after_failure E (r : runtime) sp :
  spec r = Some sp -> HTTP3 sp = false ->
  (getState r <> stateFailed -> handleEventCheckFailed E r = Some r) /\
  (getState r = stateFailed ->
     exists r',
       handleEventCheckFailed E r = Some r' /\
       roundNum r' = wrap_uint64 (roundNum r + 1) /\
       listens r' = S (listens r) /\
       server r' = Some {| srv_port := Port sp; srv_keepAlive := KeepAlive sp;
                           srv_idleTimeout := keepAliveTimeout_of sp;
                           srv_shutdown := false |} /\
       match listen E (listens r) with
       | None =>
           getState r' = stateRunning /\ getError r' = errNil /\ health r' = 1 /\
           limitListener r' = Some (MaxConnections sp)
       | Some msg =>
           getState r' = stateFailed /\ getError r' = Some msg /\ health r' = 0 /\
           limitListener r' = limitListener r
       end).
Proof.
  intros Hsp Hh3. unfold handleEventCheckFailed. split.
  - intros Hst. by rewrite decide_False.
  - intros Hst. rewrite decide_True by done.
    rewrite startServer_eq, Hsp, Hh3. cbv zeta. eexists. split; [done|].
    unfold startHTTP1And2Server. cbn. by destruct (listen E (listens r)).
Qed.

(** *** Edge cases *)

(** Once an HTTP/3 server has been created, [closeServer] closes it and
    returns: whatever events follow, a restart as HTTP/1 and a close
    included, [Shutdown] is never called on the HTTP/1 server. *)
Lemma closeServer_skips_http1_after_http3 E (r : runtime) (events : list event) :
  server3 r <> None ->
  (forall s, server r = Some s -> srv_shutdown s = false) ->
  server (closeServer r) = server r /\
  match runtime_of (fsm E r events) with
  | Some r' => server3 r' <> None /\ forall s, server r' = Some s -> srv_shutdown s = false
  | None => True
  end.
Proof.
  intros H3 H1.
  assert (Hclose : forall r0 : runtime, h3_shadows r0 -> h3_shadows (closeServer r0)).
  { intros r0 [Ha Hb]. unfold closeServer. by destruct (server3 r0). }
  assert (K : kept E (h3_shadows (TracingSpec:=TracingSpec)
                        (IPFilterSpec:=IPFilterSpec) (Rule:=Rule))).
  { split; try (intros r0 **; by destruct r0); [done|..].
    - intros r0 r' [Ha Hb]. rewrite startServer_eq.
      destruct (spec r0) as [sp|]; [|done]. cbv zeta.
      destruct (HTTP3 sp); intros [= <-]; [done|].
      unfold startHTTP1And2Server. cbn.
      destruct (listen E (listens r0)); split; cbn; try done; by intros ? [= <-].
    - intros r0 n e [Ha Hb]. unfold handleEventServeFailed.
      destruct (roundNum r0 >? n); [done|]. by destruct e. }
  split; [unfold closeServer; by destruct (server3 r)|].
  pose proof (kept_fsm E h3_shadows events r K (conj H3 H1)) as H.
  destruct (fsm E r events) as [r'|r' unread|]; [done| |done].
  destruct H as (r0 & done & pre & H0 & -> & _). cbn.
  apply (Hclose (setState stateClosed r0)). destruct H0 as [Ha Hb]. by destruct r0.
Qed.

(** A reload whose specification is [nil] closes the server and clears
    [r.spec] without touching the state: in the failed state the next
    check event calls [startServer], which reads through the [nil]
    specification and panics. *)
Lemma nil_spec_then_retry_panics E (r : runtime) ss mm (rest : list event) :
  getState r = stateFailed -> ObjectSpec ss = None ->
  (exists r', reload E ss mm r = Some r' /\ spec r' = None /\ state r' = stateFailed) /\
  fsm E r (eventReload ss mm :: eventCheckFailed :: rest) = Crashed.
Proof.
  intros Hst Hnil. unfold getState in Hst.
  assert (Hrel : exists r', reload E ss mm r = Some r' /\ spec r' = None /\
                            state r' = stateFailed).
  { destruct r as [ss0 sp0 srv srv3 mx rn st er ll hl ls dc]. cbn in Hst. subst st.
    unfold reload. rewrite Hnil. cbn.
    destruct sp0; cbn; [|by eexists].
    unfold closeServer. cbn. destruct srv3; [by eexists|]. destruct srv; by eexists. }
  split; [done|]. destruct Hrel as (r' & Hrel & Hsp & Hst').
  cbn [fsm]. unfold handleEventReload. rewrite Hrel.
  unfold handleEventCheckFailed, getState. rewrite decide_True by done.
  by rewrite startServer_eq, Hsp.
Qed.

(** The loop returns at the first close event and closes the [done]
    channel of that event only: the [done] channel of a close event sent
    later is never closed, so a second [Close] does not return. *)
Lemma second_Close_never_returns E ss mm (pre post : list event) done :
  Forall (fun e : event => is_close e = false) pre ->
  match fsm E (newRuntime ss mm) (pre ++ eventClose done :: post) with
  | Waiting _ => False
  | Exited r unread =>
      unread = post /\ doneClosed r = [done] /\ mux_closed (mux r) = true /\
      forall done', eventClose done' ∈ post -> done' <> done -> done' ∉ doneClosed r
  | Crashed => True
  end.
Proof.
  intros Hpre.
  set (I := fun r : runtime => doneClosed r = []).
  assert (K : kept E I).
  { subst I. split; try (intros r0 **; by destruct r0).
    - intros r0 Hd. unfold closeServer. destruct (server3 r0); [done|].
      by destruct (server r0).
    - intros r0 r' Hd. rewrite startServer_eq.
      destruct (spec r0) as [sp|]; [|done]. cbv zeta.
      destruct (HTTP3 sp); intros [= <-]; [done|].
      unfold startHTTP1And2Server. cbn. by destruct (listen E (listens r0)).
    - intros r0 n e Hd. unfold handleEventServeFailed.
      destruct (roundNum r0 >? n); [done|]. by destruct e. }
  destruct (fsm_until_close E pre done post (newRuntime ss mm) Hpre)
    as [->|(r' & Hw & ->)]; [done|].
  pose proof (kept_fsm E I pre (newRuntime ss mm) K eq_refl) as H.
  rewrite Hw in H. subst I. cbn beta in H.
  assert (Hdone : doneClosed (handleEventClose r' done) = [done]).
  { unfold handleEventClose, closeServer. cbn. rewrite <- H.
    destruct (server3 r'); [done|]. by destruct (server r'). }
  split; [done|]. split; [done|]. split.
  - unfold handleEventClose. done.
  - intros done' _ Hne. rewrite Hdone. by intros ->%list_elem_of_singleton.
Qed.

(** *** The first reload *)

Lemma newRuntime_eq (ss : SuperSpec) mm :
  newRuntime ss mm =
    {| superSpec := ss; spec := None; server := None; server3 := None;
       mux := {| mux_superSpec := None; mux_mapper := mm; mux_closed := false |};
       roundNum := 0; state := stateNil; err := errNil; limitListener := None;
       health := 0; listens := 0; doneClosed := [] |}.
Proof. reflexivity. Qed.

Lemma reload_first E (ss0 ss : SuperSpec) mm0 mm (sp : Spec) :
  ObjectSpec ss = Some sp ->
  reload E ss mm (newRuntime ss0 mm0) =
    startServer E
      {| superSpec := ss; spec := Some sp; server := None; server3 := None;
         mux := {| mux_superSpec := Some ss; mux_mapper := mm; mux_closed := false |};
         roundNum := 0; state := stateNil; err := errNil; limitListener := None;
         health := 0; listens := 0; doneClosed := [] |}.
Proof. intros Hsp. rewrite newRuntime_eq. unfold reload. rewrite Hsp. reflexivity. Qed.

(** The first reload after [newRuntime] starts the server in round 1.
    Over HTTP/3 no port is bound in the loop and no listener limits the
    connections: the state is running whatever happens to the server
    later.  Over HTTP/1 the port is bound once: the state is running, with
    the limit of the specification on the listener, when that succeeds,
    and failed with the error of the bind when it does not. *)
Lemma first_reload_starts_server E (ss0 ss : SuperSpec) mm0 mm (sp : Spec) :
  ObjectSpec ss = Some sp ->
  exists r' : runtime,
    fsm E (newRuntime ss0 mm0) [eventReload ss mm] = Waiting r' /\
    superSpec r' = ss /\ spec r' = Some sp /\ roundNum r' = 1 /\
    mux_superSpec (mux r') = Some ss /\ mux_mapper (mux r') = mm /\
    if HTTP3 sp then
      getState r' = stateRunning /\ getError r' = errNil /\ health r' = 1 /\
      listens r' = 0%nat /\ limitListener r' = None /\ server r' = None /\
      server3 r' = Some {| srv3_port := Port sp;
                           srv3_maxIdleTimeout := keepAliveTimeout_of sp;
                           srv3_keepAlivePeriod :=
                             if KeepAlive sp then Some (keepAliveTimeout_of sp) else None;
                           srv3_closed := false |}
    else
      listens r' = 1%nat /\ server3 r' = None /\
      server r' = Some {| srv_port := Port sp; srv_keepAlive := KeepAlive sp;
                          srv_idleTimeout := keepAliveTimeout_of sp;
                          srv_shutdown := false |} /\
      match listen E 0%nat with
      | None =>
          getState r' = stateRunning /\ getError r' = errNil /\ health r' = 1 /\
          limitListener r' = Some (MaxConnections sp)
      | Some msg =>
          getState r' = stateFailed /\ getError r' = Some msg /\ health r' = 0 /\
          limitListener r' = None
      end.
Proof.
  intros Hsp. cbn [fsm]. unfold handleEventReload.
  rewrite (reload_first E ss0 ss mm0 mm sp Hsp), startServer_eq. cbn [spec]. cbv zeta.
  destruct (HTTP3 sp) eqn:Hh3.
  - eexists. split; [reflexivity|]. repeat split; vm_compute; reflexivity.
  - unfold startHTTP1And2Server. cbn [listens with_server setError setState with_err
      with_state exportState with_health with_roundNum].
    destruct (listen E 0%nat) eqn:Hl; eexists; (split; [reflexivity|]);
      repeat split; vm_compute; reflexivity.
Qed.

End WithSpecTypes.

Import HTTPServerSamples.

(** *** Instances *)

(** New rules and a new connection limit on port 80: the server of round
    3 stays, the listener now allows 200 connections. *)
Lemma reload_hot_witness :
  exists r',
    reload listen_ok super80_rules 1%nat round3 = Some r' /\
    spec r' = Some spec80_rules /\ superSpec r' = super80_rules /\
    mux_superSpec (mux r') = Some super80_rules /\ mux_mapper (mux r') = 1%nat /\
    limitListener r' = (fun _ => MaxConnections spec80_rules) <$> limitListener round3 /\
    server r' = server round3 /\ server3 r' = server3 round3 /\
    roundNum r' = roundNum round3 /\ listens r' = listens round3 /\
    state r' = state round3 /\ err r' = err round3 /\ health r' = health round3 /\
    doneClosed r' = doneClosed round3.
Proof.
  apply (reload_hot listen_ok round3 super80_rules 1%nat spec80 spec80_rules);
    [reflexivity|reflexivity|].
  unfold differ_only_in_hot_fields, spec80_rules. eauto 10.
Defined.

(** The move to port 81 starts round 4: the failure of round 3 that
    arrives afterwards is ignored. *)
Lemma restart_discards_stale_failure_witness :
  fsm listen_ok round3 [eventReload super81 0%nat; eventServeFailed 3 bind_failed]
  = fsm listen_ok round3 [eventReload super81 0%nat].
Proof.
  apply (proj2 (proj2 (restart_discards_stale_failure listen_ok round3 3 bind_failed []
           ltac:(cbn; lia) ltac:(cbn; lia)))
         super81 0%nat spec80 spec81); [reflexivity|reflexivity|].
  intros Hd. apply differ_only_in_hot_fields_cold in Hd as [Hp _]. discriminate Hp.
Defined.

(** The failed server of round 3 is started again in round 4 and runs. *)
Lemma retry_after_failure_witness :
  exists r',
    handleEventCheckFailed listen_ok failed3 = Some r' /\
    roundNum r' = 4 /\ listens r' = 4%nat /\
    getState r' = stateRunning /\ getError r' = errNil /\ health r' = 1 /\
    limitListener r' = Some 100.
Proof.
  destruct (proj2 (retry_after_failure listen_ok failed3 spec80 eq_refl eq_refl) eq_refl)
    as (r' & Hh & Hr & Hl & _ & Hst & He & Hhl & Hlim).
  exists r'. repeat split; assumption.
Defined.

(** The HTTP/3 server of round 1 is replaced by an HTTP/1 server on port
    81, then the runtime is closed: the HTTP/1 server is not shut down. *)
Lemma closeServer_skips_http1_after_http3_witness :
  server (closeServer round1_h3) = server round1_h3 /\
  match runtime_of (fsm listen_ok round1_h3 [eventReload super81 0%nat; eventClose 7%nat]) with
  | Some r' => server3 r' <> None /\ forall s, server r' = Some s -> srv_shutdown s = false
  | None => True
  end.
Proof.
  apply (closeServer_skips_http1_after_http3 listen_ok round1_h3
           [eventReload super81 0%nat; eventClose 7%nat]).
  - discriminate.
  - intros s Hs. discriminate Hs.
Defined.

Lemma nil_spec_then_retry_panics_witness :
  (exists r', reload listen_ok super_nil 0%nat failed3 = Some r' /\ spec r' = None /\
              state r' = stateFailed) /\
  fsm listen_ok failed3 [eventReload super_nil 0%nat; eventCheckFailed] = Crashed.
Proof.
  apply (nil_spec_then_retry_panics listen_ok failed3 super_nil 0%nat []); reflexivity.
Defined.

Lemma second_Close_never_returns_witness :
  match fsm listen_ok (newRuntime super80 0%nat)
          ([eventReload super80 0%nat] ++ eventClose 7%nat :: [eventClose 8%nat]) with
  | Waiting _ => False
  | Exited r unread =>
      unread = [eventClose 8%nat] /\ doneClosed r = [7%nat] /\ mux_closed (mux r) = true /\
      forall done', eventClose done' ∈ [eventClose (TracingSpec:=unit) (IPFilterSpec:=unit)
                                          (Rule:=unit) 8%nat] ->
        done' <> 7%nat -> done' ∉ doneClosed r
  | Crashed => True
  end.
Proof.
  apply (second_Close_never_returns listen_ok super80 0%nat
           [eventReload super80 0%nat] [eventClose 8%nat] 7%nat).
  repeat constructor.
Defined.

(** The first reload with the specification of port 80 binds the port
    and leaves the server running behind a listener of 100 connections. *)
Lemma first_reload_starts_server_witness :
  exists r',
    fsm listen_ok (newRuntime super80 0%nat) [eventReload super80 1%nat] = Waiting r' /\
    superSpec r' = super80 /\ spec r' = Some spec80 /\ roundNum r' = 1 /\
    getState r' = stateRunning /\ limitListener r' = Some 100.
Proof.
  destruct (first_reload_starts_server listen_ok super80 super80 0%nat 1%nat spec80 eq_refl)
    as (r' & Hf & Hss & Hsp & Hr & _ & _ & _ & _ & _ & Hst & _ & _ & Hl).
  exists r'. repeat split; assumption.
Defined.

(** The switch from HTTP/3 to HTTP/1 followed by a close, evaluated. *)
Example http1_server_left_running :
  exists r s,
    fsm listen_ok round1_h3 [eventReload super81 0%nat; eventClose 7%nat] = Exited r [] /\
    state r = stateClosed /\ server r = Some s /\ srv_port s = 81 /\
    srv_shutdown s = false.
Proof. do 2 eexists. split; [vm_compute; reflexivity|]. repeat split. Qed.

End RuntimeProofs.

(** ** The gateway cluster *)

Module GatewayProofs.
Import Gateway GatewaySamples.

(** *** The dispatcher *)

Lemma responded_dispatch_request mode ev : responded (dispatch_request mode ev) = [].
Proof.
  unfold dispatch_request. destruct (RequestPayload ev) as [|b ?]; [done|].
  destruct (Closed ev); [done|]. cbv zeta.
  repeat (match goal with |- context [if ?c then _ else _] => destruct c end; try done).
Qed.

Lemma handler_of_none t :
  handler_of t = None ->
  t <> 1%N /\ t <> 2%N /\ t <> 3%N /\ t <> 4%N /\ t <> 5%N /\ t <> 6%N /\
  t <> 7%N /\ t <> 8%N /\ t <> 9%N /\ t <> 10%N /\ t <> 11%N.
Proof. intros H. repeat split; intros ->; discriminate. Qed.

(** C4.  [dispatch] never responds by itself.  It starts no handler for a
    request with an empty payload, for one marked closed, for a first byte
    that is none of the eleven message types, for a writer-only type
    (Operation, Retrieve) unless the mode is Write, and for a reader-only
    type (OperationRelay, RetrieveRelay) unless the mode is Read; in every
    other case it starts exactly the handler of the message type, on the
    event. *)
Theorem dispatch_request_rules (mode : Mode) (ev : RequestEvent) :
  responded (dispatch_request mode ev) = [] /\
  spawned (dispatch_request mode ev) =
    match RequestPayload ev with
    | [] => []
    | b :: _ =>
        if Closed ev then []
        else
          match handler_of (Byte.to_N b) with
          | Some h => if accepts mode (Byte.to_N b) then [(h, ev)] else []
          | None => []
          end
    end.
Proof.
  split; [apply responded_dispatch_request|].
  unfold dispatch_request. destruct (RequestPayload ev) as [|b ?]; [done|].
  destruct (Closed ev); [done|]. cbv zeta.
  generalize (Byte.to_N b). intros t.
  destruct (handler_of t) as [h|] eqn:Hh.
  - unfold handler_of in Hh.
    repeat (match type of Hh with
            | match ?t with _ => _ end = _ => destruct t; try discriminate Hh
            end);
      injection Hh as <-; unfold accepts; cbn;
      repeat case_decide; repeat case_bool_decide; done.
  - apply handler_of_none in Hh. destruct_and!.
    repeat (match goal with
            | |- context [N.eqb t ?k] => destruct (N.eqb_spec t k); [done|]
            end).
    done.
Qed.

(** A request whose first byte, 200, is none of the message types: the
    payload is not empty, the event is not closed, the type is neither
    writer-only nor reader-only, and still no handler is started. *)
Lemma dispatch_unknown_type_starts_nothing :
  RequestPayload unknown_request <> [] /\
  Closed unknown_request = false /\
  Byte.to_N <$> head (RequestPayload unknown_request) = Some 200%N /\
  handler_of 200%N = None /\ writer_only 200%N = false /\ reader_only 200%N = false /\
  dispatch_request WriteMode unknown_request = [] /\
  spawned (dispatch_request WriteMode unknown_request) = [].
Proof. repeat split; done. Qed.

(** A node whose mode is neither Read nor Write drops an Operation request
    with an error in the log, although its mode is not Read. *)
Lemma dispatch_nil_mode_drops_operation :
  RequestPayload operation_request <> [] /\
  Closed operation_request = false /\
  handler_of 5%N = Some handleOperation /\
  NilMode <> ReadMode /\
  dispatch_request NilMode operation_request = [Log Error] /\
  spawned (dispatch_request NilMode operation_request) = [].
Proof. repeat split; done. Qed.

(** *** Groups *)

Lemma groups_fold_spec (ms : list Member) : forall groups (book : gset string),
  NoDup groups -> (forall g, g ∈ book <-> g ∈ groups) ->
  let '(groups', book') := foldl groups_step (groups, book) ms in
  NoDup groups' /\ (forall g, g ∈ book' <-> g ∈ groups') /\
  (forall g, g ∈ groups' <->
     g ∈ groups \/ exists m, m ∈ ms /\ tag (NodeTags m) groupTagKey = g).
Proof.
  induction ms as [|m ms IH]; intros groups book Hnd Hbook; cbn.
  - split; [done|]. split; [done|]. intros g. split; [auto|].
    intros [?|(m & Hm & _)]; [done|]. by apply elem_of_nil in Hm.
  - case_decide as Hin.
    + specialize (IH groups book Hnd Hbook).
      destruct (foldl groups_step (groups, book) ms) as [groups' book'].
      destruct IH as (Hnd' & Hbook' & Hel).
      split; [done|]. split; [done|]. intros g. rewrite Hel. split.
      * intros [Hg|(m' & Hm' & Hg)]; [by left|]. right. exists m'. split; [by right|done].
      * intros [Hg|(m' & [->|Hm']%elem_of_cons & Hg)].
        -- by left.
        -- left. subst g. by apply Hbook.
        -- right. eauto.
    + set (group := tag (NodeTags m) groupTagKey) in *.
      assert (Hnd1 : NoDup (groups ++ [group])).
      { apply NoDup_app. split; [done|]. split; [|apply NoDup_singleton].
        intros g Hg Hg'%list_elem_of_singleton. subst g. by apply Hin, Hbook. }
      assert (Hbook1 : forall g, g ∈ ({[group]} ∪ book : gset string) <-> g ∈ groups ++ [group]).
      { intros g. rewrite elem_of_app, elem_of_union, elem_of_singleton,
          list_elem_of_singleton, Hbook. tauto. }
      specialize (IH _ _ Hnd1 Hbook1).
      destruct (foldl groups_step (groups ++ [group], {[group]} ∪ book) ms)
        as [groups' book'].
      destruct IH as (Hnd' & Hbook' & Hel).
      split; [done|]. split; [done|]. intros g. rewrite Hel. split.
      * intros [Hg|(m' & Hm' & Hg)].
        -- apply elem_of_app in Hg as [?|Hg%list_elem_of_singleton]; [by left|].
           right. exists m. split; [by left|done].
        -- right. exists m'. split; [by right|done].
      * intros [Hg|(m' & [->|Hm']%elem_of_cons & Hg)].
        -- left. apply elem_of_app. by left.
        -- left. apply elem_of_app. right. by apply list_elem_of_singleton.
        -- right. eauto.
Qed.

(** [groupsInCluster] returns, ascending and without duplicates, the group
    tag of every member of the snapshot, whatever the member's status. *)
Lemma groupsInCluster_spec (ms : list Member) :
  StronglySorted String.le (groupsInCluster ms) /\
  NoDup (groupsInCluster ms) /\
  (forall g, g ∈ groupsInCluster ms <->
     exists m, m ∈ ms /\ tag (NodeTags m) groupTagKey = g).
Proof.
  unfold groupsInCluster.
  pose proof (groups_fold_spec ms [] ∅ (NoDup_nil_2) ltac:(set_solver)) as H.
  destruct (foldl groups_step ([], ∅) ms) as [groups book].
  destruct H as (Hnd & _ & Hel). unfold sort_Strings.
  split; [apply StronglySorted_merge_sort; apply _|].
  split; [by rewrite merge_sort_Permutation|].
  intros g. rewrite merge_sort_Permutation, Hel. split; [|auto].
  intros [Hg|?]; [|done]. by apply elem_of_nil in Hg.
Qed.

(** C5.  A group whose only member has failed is returned all the same. *)
Theorem groupsInCluster_keeps_dead_group :
  groupsInCluster [failed_member] = ["g1"%string] /\
  Forall (fun m => Status m <> MemberAlive) [failed_member] /\
  aliveNodesInCluster "" [failed_member] NilMode "" = [].
Proof. repeat split. repeat constructor. done. Qed.

(** *** Scatter-gather *)

(** The loop counts a receive whether or not it fills a slot: when it has
    returned without a stop, it has taken as many receives as the book has
    entries. *)
Lemma recordResp_loop_returned sel : forall n book book',
  recordResp_loop sel n book = Returned book' ->
  size book' = size book /\
  (stop_seen sel \/ size book <= n + length sel).
Proof.
  unfold stop_seen.
  induction sel as [|c sel IH]; intros n book book'; cbn; case_decide as Hn.
  - done.
  - intros [= <-]. split; [done|]. right. lia.
  - destruct c as [[resp|]|].
    + destruct (book !! ResponseNodeName resp) as [[p|]|] eqn:Hk.
      * intros [Hs [?|?]]%IH; (split; [done|]); [left; by right | right; lia].
      * assert (size (<[ResponseNodeName resp := match Payload resp with
               | Some bytes => Some bytes | None => Some [] end]> book) = size book)
          as Hsz by (apply map_size_insert_Some; eauto).
        intros [Hs [?|?]]%IH; rewrite Hsz in *; (split; [done|]);
          [left; by right | right; lia].
      * intros [Hs [?|?]]%IH; (split; [done|]); [left; by right | right; lia].
    + intros [Hs [?|?]]%IH; (split; [done|]); [left; by right | right; lia].
    + intros [= <-]. split; [done|]. left. by left.
  - intros [= <-]. split; [done|]. right. lia.
Qed.

Lemma recordResp_loop_returned_witness :
  size (<["A"%string := Some bytesA]> (new_book ["A"; "B"]%string))
  = size (new_book ["A"; "B"]%string) /\
  (stop_seen A_twice \/ size (new_book ["A"; "B"]%string) <= 0 + length A_twice).
Proof.
  apply (recordResp_loop_returned A_twice 0 (new_book ["A"; "B"]%string)
           (<["A"%string := Some bytesA]> (new_book ["A"; "B"]%string))).
  reflexivity.
Defined.

(** C1.  With A and B expected, two responses of A make [recordResp]
    return while the slot of B is still [nil], although the future has not
    timed out and no shutdown was signalled. *)
Theorem recordResp_returns_with_pending_slot :
  exists book,
    recordResp A_twice (new_book ["A"; "B"]%string) = Returned book /\
    book !! "A"%string = Some (Some bytesA) /\
    book !! "B"%string = Some None /\
    ~ timeout_seen A_twice /\ ~ stop_seen A_twice.
Proof.
  eexists. split; [reflexivity|]. split; [reflexivity|]. split; [reflexivity|].
  unfold timeout_seen, stop_seen, A_twice.
  split; intros H; repeat (apply elem_of_cons in H as [H|H]; [discriminate H|]);
    by apply elem_of_nil in H.
Qed.

(** *** Shutdown *)

(** After a [Stop] that returned [nil], every further [Stop] returns
    "already stopped" and does nothing. *)
Lemma Stop_after_Stop W W' gc gc' effs :
  Stop W gc = (gc', effs, Returns None) ->
  Stop W' gc' = (gc', [], Returns (Some "already stopped"%string)).
Proof.
  unfold Stop, internalStop, close_log.
  destruct (stopped gc) eqn:Hs; [intros [= <- <-]; discriminate|].
  destruct (stopChanClosed gc); [discriminate|].
  destruct (Leave_result W); [discriminate|].
  destruct (polls W); [|discriminate].
  destruct (Stop_result W); [discriminate|].
  destruct (Close_result W); [discriminate|].
  by intros [= <- <-].
Qed.

Lemma internalStop_closed_channel W b gc :
  stopped gc = false ->
  internalStop W b (with_stopChanClosed gc) = (with_stopChanClosed gc, [], Panics).
Proof. intros Hs. unfold internalStop. cbn. by rewrite Hs. Qed.

Lemma Stop_after_Stop_witness :
  Stop leave_fails (with_stopped (with_stopChanClosed cluster0)) =
    (with_stopped (with_stopChanClosed cluster0), [],
     Returns (Some "already stopped"%string)).
Proof.
  apply (Stop_after_Stop stop_ok leave_fails cluster0
           (with_stopped (with_stopChanClosed cluster0))
           ([CloseStopChan; ClusterLeave] ++ replicate 2 Sleep ++ [ClusterStop]
            ++ [OPLogClose])).
  reflexivity.
Defined.

(** After a [Stop] that returned an error of the cluster or of the log, the
    stop channel is closed and the flag is not set: the next [Stop] closes
    the channel again, which panics. *)
Lemma Stop_after_failed_Stop W W' gc gc' effs e :
  stopped gc = false -> stopChanClosed gc = false ->
  Stop W gc = (gc', effs, Returns (Some e)) ->
  Stop W' gc' = (gc', [], Panics).
Proof.
  unfold Stop. intros Hs Hc.
  pose proof (internalStop_closed_channel W' true gc Hs) as Hnext.
  unfold internalStop at 1, close_log. rewrite Hs, Hc.
  destruct (Leave_result W); [by intros [= <- <- <-]|].
  destruct (polls W); [|discriminate].
  destruct (Stop_result W); [by intros [= <- <- <-]|].
  destruct (Close_result W); [by intros [= <- <- <-]|discriminate].
Qed.

(** C6.  When [gc.cluster.Leave()] fails, the first [Stop] returns that
    error with the stop channel closed and [stopped] still false; the
    second [Stop] then panics instead of returning "already stopped". *)
Theorem Stop_twice_panics :
  Stop leave_fails cluster0 =
    (with_stopChanClosed cluster0, [CloseStopChan; ClusterLeave],
     Returns (Some "leave timeout"%string)) /\
  Stopped (with_stopChanClosed cluster0) = false /\
  Stop stop_ok (with_stopChanClosed cluster0) =
    (with_stopChanClosed cluster0, [], Panics).
Proof. repeat split. Qed.

(** *** Construction *)

Lemma StrInSlice_elem_of s l : StrInSlice s l = true <-> s ∈ l.
Proof.
  unfold StrInSlice. rewrite existsb_exists. setoid_rewrite String.eqb_eq.
  setoid_rewrite <- list_elem_of_In. split; [by intros (x & Hx & ->)|eauto].
Qed.

(** C7.  When [ClusterHost] is one of ["127.0.0.1"], ["localhost"] and
    ["0.0.0.0"], [NewGatewayCluster] returns no cluster and an error, and
    starts nothing. *)
Theorem NewGatewayCluster_rejects_listed_hosts O W conf mod_is_nil :
  ClusterHost O ∈ ["127.0.0.1"; "localhost"; "0.0.0.0"]%string ->
  exists e, NewGatewayCluster O W conf mod_is_nil = (None, Some e, []).
Proof.
  intros Hhost%StrInSlice_elem_of. unfold NewGatewayCluster.
  cbn [AdvertiseAddress]. rewrite Hhost.
  repeat (match goal with
          | |- context [if ?c then (None, _, _) else _] => destruct c; [by eexists|]
          end).
  by eexists.
Qed.

Lemma NewGatewayCluster_rejects_listed_hosts_witness :
  exists e, NewGatewayCluster (options "localhost") create_ok config false = (None, Some e, []).
Proof.
  apply (NewGatewayCluster_rejects_listed_hosts (options "localhost") create_ok config false).
  apply elem_of_cons. right. apply elem_of_cons. left. reflexivity.
Defined.

(** The three hosts of the list are loopback or unspecified addresses. *)
Lemma listed_hosts_unreachable :
  Forall (fun h => is_loopback h || is_unspecified h = true)
    ["127.0.0.1"; "localhost"; "0.0.0.0"]%string.
Proof. repeat constructor. Qed.

(** The loopback address 127.0.0.2 passes the check: with a valid
    configuration and a working substrate the cluster is constructed. *)
Lemma NewGatewayCluster_accepts_loopback :
  is_loopback "127.0.0.2" = true /\
  exists gc,
    NewGatewayCluster (options "127.0.0.2") create_ok config false
    = (Some gc, None, [WatchBasis; Dispatch]) /\
    AdvertiseAddress (clusterConf gc) = "127.0.0.2"%string.
Proof. split; [reflexivity|]. eexists. split; reflexivity. Qed.

End GatewayProofs.

(** ** The gateway cluster: queries, dispatch loop and shutdown *)

Module ClusterProofs.
Import Gateway GatewaySamples GatewayProofs.

(** *** Alive nodes *)

Lemma alive_fold_spec noneGroup mode group (ms : list Member) :
  forall nodes (book : gset string),
  NoDup nodes -> (forall n, n ∈ book <-> n ∈ nodes) ->
  let '(nodes', book') := foldl (alive_step noneGroup mode group) (nodes, book) ms in
  NoDup nodes' /\ (forall n, n ∈ book' <-> n ∈ nodes') /\
  (forall n, n ∈ nodes' <->
     n ∈ nodes \/
     exists m, m ∈ ms /\ alive_match noneGroup mode group m = true /\ NodeName m = n).
Proof.
  induction ms as [|m ms IH]; intros nodes book Hnd Hbook; cbn [foldl].
  - split; [done|]. split; [done|]. intros n. split; [auto|].
    intros [?|(m & Hm & _)]; [done|]. by apply elem_of_nil in Hm.
  - unfold alive_step at 2. fold (alive_match noneGroup mode group m).
    destruct (alive_match noneGroup mode group m) eqn:Hsel.
    + case_decide as Hin.
      * specialize (IH nodes book Hnd Hbook).
        destruct (foldl _ (nodes, book) ms) as [nodes' book'].
        destruct IH as (Hnd' & Hbook' & Hel).
        split; [done|]. split; [done|]. intros n. rewrite Hel. split.
        -- intros [Hn|(m' & Hm' & Hs & Hn)]; [by left|].
           right. exists m'. split; [by right|done].
        -- intros [Hn|(m' & [->|Hm']%elem_of_cons & Hs & Hn)].
           ++ by left.
           ++ left. subst n. by apply Hbook.
           ++ right. eauto.
      * set (name := NodeName m) in *.
        assert (Hnd1 : NoDup (nodes ++ [name])).
        { apply NoDup_app. split; [done|]. split; [|apply NoDup_singleton].
          intros n Hn Hn'%list_elem_of_singleton. subst n. by apply Hin, Hbook. }
        assert (Hbook1 : forall n,
                  n ∈ ({[name]} ∪ book : gset string) <-> n ∈ nodes ++ [name]).
        { intros n. rewrite elem_of_app, elem_of_union, elem_of_singleton,
            list_elem_of_singleton, Hbook. tauto. }
        specialize (IH _ _ Hnd1 Hbook1).
        destruct (foldl _ (nodes ++ [name], {[name]} ∪ book) ms) as [nodes' book'].
        destruct IH as (Hnd' & Hbook' & Hel).
        split; [done|]. split; [done|]. intros n. rewrite Hel. split.
        -- intros [Hn|(m' & Hm' & Hs & Hn)].
           ++ apply elem_of_app in Hn as [?|Hn%list_elem_of_singleton]; [by left|].
              right. exists m. split; [by left|done].
           ++ right. exists m'. split; [by right|done].
        -- intros [Hn|(m' & [->|Hm']%elem_of_cons & Hs & Hn)].
           ++ left. apply elem_of_app. by left.
           ++ left. apply elem_of_app. right. by apply list_elem_of_singleton.
           ++ right. eauto.
    + specialize (IH nodes book Hnd Hbook).
      destruct (foldl _ (nodes, book) ms) as [nodes' book'].
      destruct IH as (Hnd' & Hbook' & Hel).
      split; [done|]. split; [done|]. intros n. rewrite Hel. split.
      * intros [Hn|(m' & Hm' & Hs & Hn)]; [by left|].
        right. exists m'. split; [by right|done].
      * intros [Hn|(m' & [->|Hm']%elem_of_cons & Hs & Hn)]; [by left| congruence |].
        right. eauto.
Qed.

(** [aliveNodesInCluster] returns, ascending and without duplicates, the
    names of the members that are alive, are in mode [mode] unless [mode]
    is [NilMode], and are in group [group] unless [group] is [NoneGroup]. *)
Lemma aliveNodesInCluster_spec noneGroup (ms : list Member) mode group :
  StronglySorted String.le (aliveNodesInCluster noneGroup ms mode group) /\
  NoDup (aliveNodesInCluster noneGroup ms mode group) /\
  (forall n, n ∈ aliveNodesInCluster noneGroup ms mode group <->
     exists m, m ∈ ms /\ Status m = MemberAlive /\
       (mode = NilMode \/ mode = tag (NodeTags m) modeTagKey) /\
       (group = noneGroup \/ group = tag (NodeTags m) groupTagKey) /\
       NodeName m = n).
Proof.
  unfold aliveNodesInCluster.
  pose proof (alive_fold_spec noneGroup mode group ms [] ∅
                (NoDup_nil_2) ltac:(set_solver)) as H.
  destruct (foldl _ ([], ∅) ms) as [nodes book].
  destruct H as (Hnd & _ & Hel). unfold sort_Strings.
  split; [apply StronglySorted_merge_sort; apply _|].
  split; [by rewrite merge_sort_Permutation|].
  intros n. rewrite merge_sort_Permutation, Hel. unfold alive_match. split.
  - intros [Hn|(m & Hm & Hs & Hn)]; [by apply elem_of_nil in Hn|].
    exists m. split; [done|].
    apply andb_prop in Hs as [[Ha%bool_decide_eq_true Hmo]%andb_prop Hg].
    apply orb_prop in Hmo, Hg.
    repeat split; [done| | |done].
    + destruct Hmo as [?%bool_decide_eq_true|?%bool_decide_eq_true]; auto.
    + destruct Hg as [?%bool_decide_eq_true|?%bool_decide_eq_true]; auto.
  - intros (m & Hm & Ha & Hmo & Hg & Hn). right. exists m. split; [done|].
    split; [|done]. rewrite !andb_true_iff, !orb_true_iff, !bool_decide_eq_true.
    done.
Qed.

Lemma groupsInCluster_elem (ms : list Member) g :
  g ∈ groupsInCluster ms <-> exists m, m ∈ ms /\ tag (NodeTags m) groupTagKey = g.
Proof.
  unfold groupsInCluster.
  pose proof (groups_fold_spec ms [] ∅ (NoDup_nil_2) ltac:(set_solver)) as H.
  destruct (foldl groups_step ([], ∅) ms) as [groups book].
  destruct H as (_ & _ & Hel). unfold sort_Strings.
  rewrite merge_sort_Permutation, Hel. split; [|auto].
  intros [Hg|?]; [|done]. by apply elem_of_nil in Hg.
Qed.

(** [groupExistInCluster] holds of exactly the group tags that occur in the
    snapshot, on members of any status; a group with no member, and the
    group of every member, are told apart even when the member is dead. *)
Lemma groupExistInCluster_spec (ms : list Member) (group : string) :
  (groupExistInCluster ms group = true <->
     exists m, m ∈ ms /\ tag (NodeTags m) groupTagKey = group) /\
  (groupExistInCluster ms group = true <-> group ∈ groupsInCluster ms) /\
  groupExistInCluster [] group = false.
Proof.
  assert (H : groupExistInCluster ms group = true <-> group ∈ groupsInCluster ms).
  { unfold groupExistInCluster. rewrite existsb_exists. split.
    - intros (name & Hin & ->%bool_decide_eq_true). by apply list_elem_of_In.
    - intros Hin. exists group. split; [by apply list_elem_of_In|].
      by apply bool_decide_eq_true. }
  split; [|split; [done|done]].
  by rewrite H, groupsInCluster_elem.
Qed.

(** *** Writers and peers *)

Lemma alive_writer_in_spec g m :
  alive_writer_in g m = true <->
  Status m = MemberAlive /\ tag (NodeTags m) groupTagKey = g /\
  tag (NodeTags m) modeTagKey = WriteMode.
Proof.
  unfold alive_writer_in, alive_in.
  rewrite !andb_true_iff, !bool_decide_eq_true. tauto.
Qed.

Lemma writerInGroup_cons m ms g :
  writerInGroup (m :: ms) g =
    if alive_writer_in g m then (NodeName m, None) else writerInGroup ms g.
Proof.
  cbn [writerInGroup]. unfold alive_writer_in, alive_in.
  destruct (bool_decide (Status m = MemberAlive)); [|done].
  destruct (bool_decide (tag (NodeTags m) modeTagKey = WriteMode)),
    (bool_decide (tag (NodeTags m) groupTagKey = g)); done.
Qed.

(** [writerInGroup] returns the name of the first alive member of the
    group that is in write mode, and an error, with the empty name, exactly
    when the snapshot has no such member. *)
Lemma writerInGroup_spec (ms : list Member) (g : string) :
  match writerInGroup ms g with
  | (name, None) =>
      exists pre m post, ms = pre ++ m :: post /\
        Forall (fun m' => alive_writer_in g m' = false) pre /\
        Status m = MemberAlive /\ tag (NodeTags m) groupTagKey = g /\
        tag (NodeTags m) modeTagKey = WriteMode /\ name = NodeName m
  | (name, Some e) =>
      name = ""%string /\
      e = ("writer doesn't exist in group: " +:+ g)%string /\
      Forall (fun m => alive_writer_in g m = false) ms
  end.
Proof.
  induction ms as [|m ms IH].
  - cbn. by repeat split.
  - rewrite writerInGroup_cons. destruct (alive_writer_in g m) eqn:Hm.
    + apply alive_writer_in_spec in Hm as (? & ? & ?).
      exists [], m, ms. by repeat split.
    + destruct (writerInGroup ms g) as [name [e|]].
      * destruct IH as (-> & -> & Hall). repeat split; [done..|]. by constructor.
      * destruct IH as (pre & m' & post & -> & Hpre & ?).
        exists (m :: pre), m', post. split; [done|]. split; [by constructor|done].
Qed.

Lemma choosePeer_loop_cons m ms g candidate :
  choosePeer_loop (m :: ms) g candidate =
    if alive_writer_in g m then inl (NodeName m)
    else if alive_in g m then choosePeer_loop ms g (NodeName m)
    else choosePeer_loop ms g candidate.
Proof.
  cbn [choosePeer_loop]. unfold alive_writer_in, alive_in.
  destruct (bool_decide (Status m = MemberAlive)); [|done].
  destruct (bool_decide (tag (NodeTags m) modeTagKey = WriteMode)),
    (bool_decide (tag (NodeTags m) groupTagKey = g)); done.
Qed.

Lemma choosePeer_loop_spec (ms : list Member) g : forall candidate,
  choosePeer_loop ms g candidate =
    match writerInGroup ms g with
    | (name, None) => inl name
    | _ => inr (default candidate (NodeName <$> last (filter (fun m => alive_in g m = true) ms)))
    end.
Proof.
  induction ms as [|m ms IH]; intros candidate; [done|].
  rewrite choosePeer_loop_cons, writerInGroup_cons.
  destruct (alive_writer_in g m) eqn:Hw; [done|].
  destruct (alive_in g m) eqn:Ha.
  - rewrite IH. destruct (writerInGroup ms g) as [name [e|]]; [|done].
    rewrite filter_cons_True by done.
    destruct (filter _ ms) as [|m' l'] eqn:Hf; [done|].
    rewrite last_cons_cons. destruct (last (m' :: l')) eqn:Hl; [done|].
    by apply last_None in Hl.
  - rewrite IH. destruct (writerInGroup ms g) as [name [e|]]; [|done].
    rewrite filter_cons_False; [done|]. by rewrite Ha.
Qed.

(** [choosePeerForGroup] returns the writer [writerInGroup] finds when
    there is one; otherwise the last alive member of the group in the
    snapshot, and an error when there is none or when that member's name
    is empty. *)
Lemma choosePeerForGroup_spec (ms : list Member) (g : string) :
  choosePeerForGroup ms g =
    match writerInGroup ms g with
    | (name, None) => (name, None)
    | _ =>
        match last (filter (fun m => alive_in g m = true) ms) with
        | Some m =>
            if bool_decide (NodeName m = ""%string)
            then (""%string, Some ("group " +:+ g +:+ " doesn't has any peer")%string)
            else (NodeName m, None)
        | None => (""%string, Some ("group " +:+ g +:+ " doesn't has any peer")%string)
        end
    end.
Proof.
  unfold choosePeerForGroup. rewrite choosePeer_loop_spec.
  destruct (writerInGroup ms g) as [name [e|]]; [|done].
  by destruct (last _) as [m|].
Qed.

Lemma alive_in_spec g m :
  alive_in g m = true <-> Status m = MemberAlive /\ tag (NodeTags m) groupTagKey = g.
Proof. unfold alive_in. by rewrite andb_true_iff, !bool_decide_eq_true. Qed.

Lemma writers_step_eq wb gb m :
  writers_step (wb, gb) m =
    if bool_decide (Status m = MemberAlive) then
      (if bool_decide (tag (NodeTags m) modeTagKey = WriteMode)
       then <[tag (NodeTags m) groupTagKey := NodeName m]> wb else wb,
       {[tag (NodeTags m) groupTagKey]} ∪ gb)
    else (wb, gb).
Proof. unfold writers_step. by repeat case_bool_decide. Qed.

Lemma last_filter_cons (P : Member -> bool) m ms :
  last (filter (fun m => P m = true) (m :: ms)) =
    match last (filter (fun m => P m = true) ms) with
    | Some m' => Some m'
    | None => if P m then Some m else None
    end.
Proof.
  destruct (P m) eqn:Hm.
  - rewrite filter_cons_True by done.
    destruct (filter _ ms) as [|m' l'] eqn:Hf; [done|].
    rewrite last_cons_cons. destruct (last (m' :: l')) eqn:Hl; [done|].
    by apply last_None in Hl.
  - rewrite filter_cons_False by (by rewrite Hm). by destruct (last _).
Qed.

Lemma writers_fold_spec (ms : list Member) : forall wb gb,
  let '(wb', gb') := foldl writers_step (wb, gb) ms in
  (forall g, g ∈ gb' <-> g ∈ gb \/ exists m, m ∈ ms /\ alive_in g m = true) /\
  (forall g, wb' !! g =
     match last (filter (fun m => alive_writer_in g m = true) ms) with
     | Some m => Some (NodeName m)
     | None => wb !! g
     end).
Proof.
  induction ms as [|m ms IH]; intros wb gb; cbn [foldl].
  - split; [|done]. intros g. split; [auto|].
    intros [?|(m & Hm & _)]; [done|]. by apply elem_of_nil in Hm.
  - rewrite writers_step_eq.
    destruct (bool_decide (Status m = MemberAlive)) eqn:Ha.
    + match goal with |- context [foldl writers_step (?w, ?b) ms] =>
        specialize (IH w b); destruct (foldl writers_step (w, b) ms) as [wb' gb'] end.
      destruct IH as [Hgb Hwb]. apply bool_decide_eq_true in Ha. split.
      * intros g. rewrite Hgb, elem_of_union, elem_of_singleton. split.
        -- intros [[->|?]|(m' & Hm' & Hal)]; [|by left|].
           ++ right. exists m. split; [by left|]. by apply alive_in_spec.
           ++ right. exists m'. split; [by right|done].
        -- intros [?|(m' & [->|Hm']%elem_of_cons & Hal)]; [by left; right| |].
           ++ left; left. by apply alive_in_spec in Hal as [_ <-].
           ++ right. eauto.
      * intros g. rewrite Hwb, last_filter_cons.
        destruct (last (filter _ ms)); [done|].
        unfold alive_writer_in, alive_in.
        rewrite (bool_decide_eq_true_2 (Status m = MemberAlive)) by done. cbn.
        destruct (bool_decide (tag (NodeTags m) modeTagKey = WriteMode)) eqn:Hw.
        -- destruct (bool_decide (tag (NodeTags m) groupTagKey = g)) eqn:Hg; cbn.
           ++ apply bool_decide_eq_true in Hg. subst g. by simplify_map_eq.
           ++ apply bool_decide_eq_false in Hg. by simplify_map_eq.
        -- by rewrite andb_false_r.
    + specialize (IH wb gb). destruct (foldl writers_step (wb, gb) ms) as [wb' gb'].
      destruct IH as [Hgb Hwb]. apply bool_decide_eq_false in Ha. split.
      * intros g. rewrite Hgb. split.
        -- intros [?|(m' & Hm' & Hal)]; [by left|]. right. exists m'. split; [by right|done].
        -- intros [?|(m' & [->|Hm']%elem_of_cons & Hal)]; [by left| |right; eauto].
           by apply alive_in_spec in Hal as [? _].
      * intros g. rewrite Hwb, last_filter_cons.
        destruct (last (filter _ ms)); [done|].
        unfold alive_writer_in, alive_in.
        by rewrite (bool_decide_eq_false_2 (Status m = MemberAlive)).
Qed.

Lemma collect_writers_spec wb (order : list string) : forall nodes,
  match collect_writers wb order nodes with
  | (Some nodes', None) =>
      Forall2 (fun g n => wb !! g = Some n) order (drop (length nodes) nodes') /\
      take (length nodes) nodes' = nodes
  | (None, Some e) =>
      exists g, g ∈ order /\ wb !! g = None /\
        e = ("writer doesn't exist in group: " +:+ g)%string
  | _ => False
  end.
Proof.
  induction order as [|g order IH]; intros nodes; cbn.
  - rewrite drop_all, take_ge by done. by split.
  - destruct (wb !! g) as [writer|] eqn:Hg.
    + specialize (IH (nodes ++ [writer])).
      destruct (collect_writers wb order (nodes ++ [writer])) as [[nodes'|] [e|]];
        try done.
      * destruct IH as [Hall Htake]. rewrite length_app in *. cbn in *.
        assert (Hpre : nodes' = (nodes ++ [writer]) ++ drop (length nodes + 1) nodes').
        { rewrite <- Htake at 1. by rewrite take_drop. }
        split.
        -- rewrite Hpre at 1. rewrite <- app_assoc, drop_app_length. by constructor.
        -- rewrite Hpre. rewrite <- app_assoc. by rewrite take_app_length.
      * destruct IH as (g' & Hin & ?). exists g'. split; [by right|done].
    + exists g. split; [by left|done].
Qed.

(** [writerInEveryGroup], in whatever order the run time enumerates the
    groups: when every group with an alive member has an alive writer, it
    returns one writer per such group, the last one of the group in the
    snapshot; otherwise it returns [nil] and an error that names a group
    with an alive member and no alive writer. *)
Lemma writerInEveryGroup_spec (ms : list Member) (order : list string) :
  order ≡ₚ elements (writers_books ms).2 ->
  NoDup order /\
  (forall g, g ∈ order <-> exists m, m ∈ ms /\ alive_in g m = true) /\
  match writerInEveryGroup ms order with
  | (Some nodes, None) =>
      Forall2 (fun g n =>
        exists m, last (filter (fun m => alive_writer_in g m = true) ms) = Some m /\
                  n = NodeName m) order nodes
  | (None, Some e) =>
      exists g, g ∈ order /\
        Forall (fun m => alive_writer_in g m = false) ms /\
        e = ("writer doesn't exist in group: " +:+ g)%string
  | _ => False
  end.
Proof.
  unfold writerInEveryGroup, writers_books. intros Horder.
  pose proof (writers_fold_spec ms ∅ ∅) as H.
  destruct (foldl writers_step (∅, ∅) ms) as [wb gb]. cbn [fst snd] in *.
  destruct H as [Hgb Hwb].
  split; [rewrite Horder; apply NoDup_elements|].
  split.
  { intros g. rewrite Horder, elem_of_elements, Hgb.
    split; [intros [H0|?]; [by apply elem_of_empty in H0|done] | auto]. }
  pose proof (collect_writers_spec wb order []) as Hc.
  destruct (collect_writers wb order []) as [[nodes|] [e|]]; try done.
  - destruct Hc as [Hall _]. cbn in Hall. rewrite drop_0 in Hall.
    eapply Forall2_impl; [exact Hall|]. intros g n Hg. cbn beta in Hg. rewrite Hwb in Hg.
    destruct (last (filter _ ms)) as [m|]; [|by rewrite lookup_empty in Hg].
    exists m. split; [done|]. congruence.
  - destruct Hc as (g & Hin & Hnone & ->). exists g. split; [done|]. split; [|done].
    rewrite Hwb in Hnone.
    destruct (last (filter _ ms)) as [m|] eqn:Hl; [done|].
    apply last_None in Hl. apply Forall_forall. intros m Hm.
    destruct (alive_writer_in g m) eqn:Hw; [|done].
    assert (m ∈ filter (fun m => alive_writer_in g m = true) ms) as Hf
      by (by apply list_elem_of_filter).
    rewrite Hl in Hf. by apply elem_of_nil in Hf.
Qed.

(** *** The rest of the group *)

Lemma rest_fold_spec gc groupName (ms : list Member) : forall ret members,
  (foldl (rest_step gc groupName) (ret, members) ms).1 =
    match filter (fun m => rest_alive gc groupName m = true) ms with
    | [] => ret
    | l => Some (default [] ret ++ l)
    end.
Proof.
  induction ms as [|m ms IH]; intros ret members; [done|].
  cbn [foldl]. unfold rest_step at 2. rewrite IH.
  destruct (rest_alive gc groupName m) eqn:Hm.
  - rewrite filter_cons_True by done. cbn.
    destruct (filter _ ms); [done|]. by rewrite <- app_assoc.
  - rewrite filter_cons_False by (by rewrite Hm). done.
Qed.

(** [RestAliveMembersInSameGroup] returns, in the order of the snapshot,
    the members that are alive, carry the group tag of the local node and
    have another name than the local node; the result is [nil] exactly
    when there is no such member. *)
Lemma RestAliveMembersInSameGroup_spec gc basisConf (ms : list Member) :
  default [] (RestAliveMembersInSameGroup gc basisConf ms) `sublist_of` ms /\
  (forall m, m ∈ default [] (RestAliveMembersInSameGroup gc basisConf ms) <->
     m ∈ ms /\ tag (NodeTags m) groupTagKey = localGroupName basisConf /\
     Status m = MemberAlive /\ NodeName m <> NodeName_of gc) /\
  (RestAliveMembersInSameGroup gc basisConf ms = None <->
     forall m, m ∈ ms -> tag (NodeTags m) groupTagKey = localGroupName basisConf ->
       Status m = MemberAlive -> NodeName m = NodeName_of gc).
Proof.
  unfold RestAliveMembersInSameGroup. cbv zeta. rewrite rest_fold_spec.
  set (g := localGroupName basisConf).
  assert (Hra : forall m, rest_alive gc g m = true <->
            tag (NodeTags m) groupTagKey = g /\
            Status m = MemberAlive /\ NodeName m <> NodeName_of gc).
  { intros m. unfold rest_alive, NodeName_of.
    rewrite !andb_true_iff, negb_true_iff, !bool_decide_eq_true, bool_decide_eq_false.
    tauto. }
  assert (Hdef : default [] match filter (fun m => rest_alive gc g m = true) ms with
                            | [] => None
                            | l => Some (default [] None ++ l)
                            end = filter (fun m => rest_alive gc g m = true) ms).
  { by destruct (filter _ ms). }
  rewrite Hdef. split; [apply sublist_filter|]. split.
  - intros m. rewrite list_elem_of_filter, Hra. tauto.
  - destruct (filter _ ms) as [|m0 l] eqn:Hf.
    + split; [|done]. intros _ m Hm Hg Ha.
      destruct (decide (NodeName m = NodeName_of gc)) as [|Hne]; [done|].
      assert (m ∈ filter (fun m => rest_alive gc g m = true) ms) as Hin
        by (apply list_elem_of_filter; split; [by apply Hra|done]).
      rewrite Hf in Hin. by apply elem_of_nil in Hin.
    + split; [done|]. intros Hall.
      assert (m0 ∈ filter (fun m => rest_alive gc g m = true) ms) as Hin
        by (rewrite Hf; by left).
      apply list_elem_of_filter in Hin as [(Hg & Ha & Hne)%Hra Hin].
      by specialize (Hall m0 Hin Hg Ha).
Qed.

(** *** The loop of the dispatcher *)

Lemma spawned_dispatch_request mode ev :
  spawned (dispatch_request mode ev) = option_list (started mode ev).
Proof.
  unfold dispatch_request, started. destruct (RequestPayload ev) as [|b ?]; [done|].
  destruct (Closed ev); [done|]. cbv zeta.
  generalize (Byte.to_N b). intros t.
  destruct (handler_of t) as [h|] eqn:Hh.
  - unfold handler_of in Hh.
    repeat (match type of Hh with
            | match ?t with _ => _ end = _ => destruct t; try discriminate Hh
            end);
      injection Hh as <-; unfold accepts; cbn;
      repeat case_decide; repeat case_bool_decide; done.
  - apply handler_of_none in Hh. destruct_and!.
    repeat (match goal with
            | |- context [N.eqb t ?k] => destruct (N.eqb_spec t k); [done|]
            end).
    done.
Qed.

Lemma spawned_app effs1 effs2 : spawned (effs1 ++ effs2) = spawned effs1 ++ spawned effs2.
Proof. apply omap_app. Qed.

Lemma responded_app effs1 effs2 :
  responded (effs1 ++ effs2) = responded effs1 ++ responded effs2.
Proof. apply omap_app. Qed.

(** [dispatch] handles the events in the order of the stream until the
    stop channel is selected and nothing behind it; it starts one handler
    for each request it accepts, in that order, none for a member event,
    and responds to nothing itself. *)
Lemma dispatch_loop_spec (mode : Mode) (sel : list dispatched) :
  dispatch mode sel = concat (dispatch_event mode <$> before_stop sel) /\
  spawned (dispatch mode sel) = omap (started mode) (requests (before_stop sel)) /\
  responded (dispatch mode sel) = [] /\
  (forall post, dispatch mode (sel ++ FromStop :: post) = dispatch mode sel).
Proof.
  split; [|split; [|split]].
  - induction sel as [|[event|] rest IH]; [done| |done]. cbn. by rewrite IH.
  - induction sel as [|[event|] rest IH]; [done| |done].
    cbn [dispatch before_stop]. rewrite spawned_app, IH.
    destruct event as [ev|ev|]; cbn; fold (requests (before_stop rest)).
    + rewrite spawned_dispatch_request. by destruct (started mode ev).
    + unfold dispatch_member. by destruct (Type_ ev).
    + done.
  - induction sel as [|[event|] rest IH]; [done| |done].
    cbn [dispatch]. rewrite responded_app, IH, app_nil_r.
    destruct event as [ev|ev|]; cbn.
    + apply responded_dispatch_request.
    + unfold dispatch_member. by destruct (Type_ ev).
    + done.
  - intros post. induction sel as [|[event|] rest IH]; [done| |done].
    cbn. by rewrite IH.
Qed.

(** *** Construction *)

(** [NewGatewayCluster] returns either a cluster and no error, or an error
    and no cluster with nothing started.  A cluster is returned only for a
    model, a non-empty group, non-zero oplog limits and interval and a
    host outside the list, when [cluster.Create] and [NewOPLog] succeed;
    its node name, group and mode tags and mode are those of the
    configuration, it is not stopped, and the oplog synchronisation is
    started exactly in read mode. *)
Lemma NewGatewayCluster_result O W conf mod_is_nil :
  match NewGatewayCluster O W conf mod_is_nil with
  | (Some gc, None, gos) =>
      mod_is_nil = false /\ ClusterGroup conf <> ""%string /\
      OPLogMaxSeqGapToPull conf <> 0%Z /\ OPLogPullMaxCountOnce conf <> 0%Z /\
      OPLogPullInterval conf <> 0%Z /\
      (ClusterHost O ∉ ["127.0.0.1"; "localhost"; "0.0.0.0"]%string) /\
      Create_result W = None /\ NewOPLog_result W = None /\
      NodeName_of gc = ClusterMemberName conf /\
      localMemberName gc = ClusterMemberName conf /\
      localGroupName (clusterConf gc) = ClusterGroup conf /\
      tag (cc_NodeTags (clusterConf gc)) modeTagKey = Mode_String (ClusterMemberMode conf) /\
      Mode_of gc = ClusterMemberMode conf /\
      AdvertiseAddress (clusterConf gc) = ClusterHost O /\
      BindAddress (clusterConf gc) = ClusterHost O /\
      Stopped gc = false /\ stopChanClosed gc = false /\
      gos = [WatchBasis; Dispatch]
            ++ (if decide (ClusterMemberMode conf = ReadMode) then [SyncOpLogLoop] else [])
  | (None, Some _, gos) => gos = []
  | _ => False
  end.
Proof.
  unfold NewGatewayCluster.
  destruct mod_is_nil; [done|].
  destruct (Nat.eqb_spec (String.length (ClusterGroup conf)) 0) as [|Hg]; [done|].
  destruct (Z.eqb_spec (OPLogMaxSeqGapToPull conf) 0); [done|].
  destruct (Z.eqb_spec (OPLogPullMaxCountOnce conf) 0); [done|].
  destruct (Z.eqb_spec (OPLogPullInterval conf) 0); [done|].
  destruct (PrimFloat.ltb _ _); [done|].
  cbv zeta. cbn [AdvertiseAddress].
  destruct (StrInSlice _ _) eqn:Hhost; [done|].
  destruct (Create_result W); [done|].
  destruct (NewOPLog_result W); [done|].
  repeat split; try done.
  - intros Hempty. rewrite Hempty in Hg. by apply Hg.
  - intros Hin%StrInSlice_elem_of. congruence.
  - unfold localGroupName, tag. cbn. rewrite lookup_insert_ne by done.
    by simplify_map_eq.
  - unfold tag. cbn. by simplify_map_eq.
Qed.

(** *** Scatter-gather: what the book holds *)

Lemma recordResp_loop_book sel : forall n book,
  let book' := book_of (recordResp_loop sel n book) in
  dom book' = dom book /\
  (forall k p, book !! k = Some (Some p) -> book' !! k = Some (Some p)) /\
  (forall k p, book !! k = Some None -> book' !! k = Some (Some p) ->
     exists pre resp post,
       sel = pre ++ FromFuture (Some resp) :: post /\
       ResponseNodeName resp = k /\ recorded resp = Some p /\
       (FromStopChan ∉ pre) /\
       forall resp', FromFuture (Some resp') ∈ pre -> ResponseNodeName resp' <> k).
Proof.
  induction sel as [|c sel IH]; intros n book; cbn [recordResp_loop];
    case_decide as Hn; cbv zeta; cbn [book_of].
  1,2,4: (split; [done|]; split; [done|]; intros k p Hk Hk'; congruence).
  assert (Hext : forall book0,
    (let book' := book_of (recordResp_loop sel (S n) book0) in
     dom book' = dom book0 /\
     (forall k p, book0 !! k = Some (Some p) -> book' !! k = Some (Some p)) /\
     (forall k p, book0 !! k = Some None -> book' !! k = Some (Some p) ->
        exists pre resp post,
          sel = pre ++ FromFuture (Some resp) :: post /\
          ResponseNodeName resp = k /\ recorded resp = Some p /\
          (FromStopChan ∉ pre) /\
          forall resp', FromFuture (Some resp') ∈ pre -> ResponseNodeName resp' <> k)) ->
    forall c0, c0 <> FromStopChan ->
    (forall resp', c0 = FromFuture (Some resp') ->
       book0 = book \/
       (book !! ResponseNodeName resp' = Some None /\
        book0 = <[ResponseNodeName resp' := recorded resp']> book)) ->
    (forall resp', c0 = FromFuture (Some resp') -> book0 = book ->
       book !! ResponseNodeName resp' <> Some None) ->
    (c0 = FromFuture None -> book0 = book) ->
    let book' := book_of (recordResp_loop sel (S n) book0) in
    dom book' = dom book /\
    (forall k p, book !! k = Some (Some p) -> book' !! k = Some (Some p)) /\
    (forall k p, book !! k = Some None -> book' !! k = Some (Some p) ->
       exists pre resp post,
         c0 :: sel = pre ++ FromFuture (Some resp) :: post /\
         ResponseNodeName resp = k /\ recorded resp = Some p /\
         (FromStopChan ∉ pre) /\
         forall resp', FromFuture (Some resp') ∈ pre -> ResponseNodeName resp' <> k)).
  { intros book0 (Hdom & Hkeep & Hnew) c0 Hc0 Hcase Hsame Hnone. cbv zeta.
    assert (Hb0 : book0 = book \/ exists resp', c0 = FromFuture (Some resp') /\
              book !! ResponseNodeName resp' = Some None /\
              book0 = <[ResponseNodeName resp' := recorded resp']> book).
    { destruct c0 as [[resp'|]|]; [|left; by apply Hnone|done].
      destruct (Hcase resp' eq_refl) as [?|[? ?]]; [by left|right; eauto]. }
    destruct Hb0 as [->|(resp0 & -> & Hk0 & ->)].
    - split; [done|]. split; [done|]. intros k p Hk Hk'.
      destruct (Hnew k p Hk Hk') as (pre & resp & post & -> & Hname & Hrec & Hstop & Hfirst).
      exists (c0 :: pre), resp, post. split; [done|]. split; [done|]. split; [done|].
      split.
      + intros [?|?]%elem_of_cons; [by subst c0|done].
      + intros resp' [Heq|Hin]%elem_of_cons; [|by apply Hfirst].
        intros Hname'. subst c0. apply (Hsame resp' eq_refl eq_refl). congruence.
    - split.
      { rewrite Hdom, dom_insert_L. apply elem_of_dom_2 in Hk0.
        apply set_eq. intros x. rewrite elem_of_union, elem_of_singleton.
        split; [intros [->|?]; done | auto]. }
      split.
      { intros k p Hk. apply Hkeep.
        rewrite lookup_insert_ne; [done|]. intros <-. congruence. }
      intros k p Hk Hk'.
      destruct (decide (ResponseNodeName resp0 = k)) as [<-|Hne].
      + exists [], resp0, sel. split; [done|]. split; [done|].
        split; [|split; [by intros ?%elem_of_nil | by intros ? ?%elem_of_nil]].
        assert (Hrec : exists p0, recorded resp0 = Some p0)
          by (unfold recorded; destruct (Payload resp0); eauto).
        destruct Hrec as [p0 Hrec]. rewrite Hrec in *.
        specialize (Hkeep (ResponseNodeName resp0) p0 ltac:(by simplify_map_eq)).
        congruence.
      + assert (Hk0' : <[ResponseNodeName resp0 := recorded resp0]> book !! k = Some None)
          by (by rewrite lookup_insert_ne).
        destruct (Hnew k p Hk0' Hk') as (pre & resp & post & -> & Hname & Hrec & Hstop & Hfirst).
        exists (FromFuture (Some resp0) :: pre), resp, post.
        split; [done|]. split; [done|]. split; [done|]. split.
        * intros [?|?]%elem_of_cons; [done|done].
        * intros resp' [[= <-]|Hin]%elem_of_cons; [done|by apply Hfirst]. }
  destruct c as [[resp|]|].
  - destruct (book !! ResponseNodeName resp) as [[p0|]|] eqn:Hk.
    + apply (Hext book (IH _ _) (FromFuture (Some resp))); try done.
      * intros ? [= <-]. by left.
      * intros ? [= <-] _. congruence.
    + change (match Payload resp with Some bytes => Some bytes | None => Some [] end)
        with (match Payload resp with None => Some [] | Some bytes => Some bytes end).
      fold (recorded resp).
      apply (Hext _ (IH _ _) (FromFuture (Some resp))); try done.
      * intros ? [= <-]. by right.
      * intros ? [= <-] Heq. exfalso.
        apply (f_equal (fun b : gmap string payload => b !! ResponseNodeName resp)) in Heq. cbn beta in Heq.
        rewrite lookup_insert_eq in Heq. pose proof (eq_trans Heq Hk) as Hl.
        by destruct (Payload resp).
    + apply (Hext book (IH _ _) (FromFuture (Some resp))); try done.
      * intros ? [= <-]. by left.
      * intros ? [= <-] _. congruence.
  - apply (Hext book (IH _ _) (FromFuture None)); try done.
  - cbn [book_of]. split; [done|]. split; [done|]. intros k p Hk Hk'. congruence.
Qed.

(** [recordResp] neither adds a node to the book nor removes one, keeps
    every response the book holds already, and fills an empty entry with
    the first response of that node among those it receives, an empty
    slice standing for a [nil] payload: later responses of the node do not
    replace it. *)
Lemma recordResp_first_response_wins (sel : list selected) (book : gmap string payload) :
  dom (book_of (recordResp sel book)) = dom book /\
  (forall k p, book !! k = Some (Some p) ->
     book_of (recordResp sel book) !! k = Some (Some p)) /\
  (forall k p, book !! k = Some None ->
     book_of (recordResp sel book) !! k = Some (Some p) ->
     exists pre resp post,
       sel = pre ++ FromFuture (Some resp) :: post /\
       ResponseNodeName resp = k /\ recorded resp = Some p /\
       (FromStopChan ∉ pre) /\
       forall resp', FromFuture (Some resp') ∈ pre -> ResponseNodeName resp' <> k).
Proof. apply recordResp_loop_book. Qed.

Lemma recordResp_loop_complete (resps : list MemberResponse) rest : forall n book,
  size book = (n + length resps)%nat ->
  NoDup (ResponseNodeName <$> resps) ->
  (forall resp, resp ∈ resps -> book !! ResponseNodeName resp = Some None) ->
  exists book',
    recordResp_loop ((FromFuture ∘ Some <$> resps) ++ rest) n book = Returned book' /\
    dom book' = dom book /\
    (forall resp, resp ∈ resps -> book' !! ResponseNodeName resp = Some (recorded resp)) /\
    (forall k, k ∉ ResponseNodeName <$> resps -> book' !! k = book !! k).
Proof.
  induction resps as [|resp resps IH]; intros n book Hsize Hnd Hnone.
  - exists book. cbn in *. rewrite Nat.add_0_r in Hsize.
    assert (recordResp_loop rest n book = Returned book) as ->.
    { destruct rest; cbn; case_decide; done || lia. }
    split; [done|]. split; [done|]. split; [by intros ? ?%elem_of_nil | done].
  - cbn [fmap list_fmap app] in *. cbn [recordResp_loop]. cbn in Hsize.
    apply NoDup_cons in Hnd as [Hfresh Hnd].
    case_decide; [|lia]. cbn [compose].
    rewrite (Hnone resp) by by left.
    fold (recorded resp).
    destruct (IH (S n) (<[ResponseNodeName resp := recorded resp]> book))
      as (book' & Hret & Hdom & Hall & Hother).
    + rewrite map_size_insert_Some by (rewrite Hnone; [eauto|by left]). lia.
    + done.
    + intros resp' Hin. rewrite lookup_insert_ne; [apply Hnone; by right|].
      intros Heq. apply Hfresh. rewrite Heq. by apply list_elem_of_fmap_2.
    + exists book'. split; [exact Hret|]. split; [|split].
      * rewrite Hdom, dom_insert_L.
        assert (ResponseNodeName resp ∈ dom book)
          by (apply elem_of_dom; rewrite Hnone; [eauto|by left]).
        apply set_eq. intros x. rewrite elem_of_union, elem_of_singleton.
        split; [intros [->|?]; done | auto].
      * intros resp' [->|Hin]%elem_of_cons; [|by apply Hall].
        rewrite Hother by done. apply lookup_insert_eq.
      * intros k Hk. apply not_elem_of_cons in Hk as [Hne Hk].
        rewrite Hother by done. by rewrite lookup_insert_ne.
Qed.

Lemma new_book_cons t (targets : list string) :
  new_book (t :: targets) = <[t := None]> (new_book targets).
Proof. done. Qed.

Lemma new_book_lookup (targets : list string) k :
  new_book targets !! k = if decide (k ∈ targets) then Some None else None.
Proof.
  induction targets as [|t targets IH].
  - unfold new_book. cbn. rewrite lookup_empty.
    by case_decide as H; [apply elem_of_nil in H|].
  - rewrite new_book_cons. destruct (decide (t = k)) as [->|Hne].
    + rewrite lookup_insert_eq. rewrite decide_True; [done|by left].
    + rewrite lookup_insert_ne by done. refine (eq_trans IH _).
      destruct (decide (k ∈ targets)) as [Hin|Hin].
      * rewrite decide_True; [done|by right].
      * rewrite decide_False; [done|].
        by intros [->|?]%elem_of_cons.
Qed.

Lemma size_new_book (targets : list string) :
  NoDup targets -> size (new_book targets) = length targets.
Proof.
  induction 1 as [|t targets Hin Hnd IH]; [done|].
  rewrite new_book_cons, map_size_insert_None; [by rewrite IH|].
  rewrite new_book_lookup. by rewrite decide_False.
Qed.

(** When every expected node answers once, in any order, before the
    future times out or shutdown is signalled, [recordResp] returns with
    every entry of the book filled with the response of its node, whatever
    follows on the channel. *)
Lemma recordResp_complete (targets : list string) (resps : list MemberResponse)
    (rest : list selected) :
  NoDup targets ->
  ResponseNodeName <$> resps ≡ₚ targets ->
  exists book,
    recordResp ((FromFuture ∘ Some <$> resps) ++ rest) (new_book targets) = Returned book /\
    dom book = list_to_set targets /\
    forall resp, resp ∈ resps -> book !! ResponseNodeName resp = Some (recorded resp).
Proof.
  intros Hnd Hperm. unfold recordResp.
  destruct (recordResp_loop_complete resps rest 0 (new_book targets))
    as (book & Hret & Hdom & Hall & _).
  - rewrite size_new_book by done. by rewrite <- Hperm, length_fmap.
  - by rewrite Hperm.
  - intros resp Hin. rewrite new_book_lookup, decide_True; [done|].
    rewrite <- Hperm. by apply list_elem_of_fmap_2.
  - exists book. split; [done|]. split; [|done].
    rewrite Hdom. apply set_eq. intros k.
    rewrite elem_of_dom, new_book_lookup, elem_of_list_to_set.
    case_decide; [|split; [by intros [? ?]|done]]. split; [done|eauto].
Qed.

(** *** Shutdown *)

(** [internalStop] on a cluster that is not stopped and whose stop channel
    is open: it closes the stop channel first, whatever follows; it
    returns [nil] exactly when every call it makes succeeds, and sets
    [stopped] exactly then; without [stopBasis] it touches the log only. *)
Lemma internalStop_outcome W stopBasis gc :
  stopped gc = false -> stopChanClosed gc = false ->
  exists gc' effs out,
    internalStop W stopBasis gc = (gc', CloseStopChan :: effs, out) /\
    stopChanClosed gc' = true /\ out <> Panics /\
    (Stopped gc' = true <-> out = Returns None) /\
    (out = Returns None <->
       (stopBasis = true ->
          Leave_result W = None /\ is_Some (polls W) /\ Stop_result W = None) /\
       Close_result W = None) /\
    (stopBasis = false -> effs = [OPLogClose]) /\
    (OPLogClose ∈ effs ->
       stopBasis = true -> Leave_result W = None /\ Stop_result W = None).
Proof.
  intros Hs Hc. unfold internalStop, close_log, Stopped. rewrite Hs, Hc.
  destruct stopBasis;
    [destruct (Leave_result W) as [e|] eqn:HL;
       [|destruct (polls W) as [n|] eqn:HP;
           [destruct (Stop_result W) as [e|] eqn:HS;
              [|destruct (Close_result W) as [e|] eqn:HC]|]]
    |destruct (Close_result W) as [e|] eqn:HC];
    do 3 eexists; (split; [reflexivity|]); cbn; rewrite ?Hs;
    (split; [done|]); (split; [done|]); (split; [by split|]);
    (split; [split; [try done; by eauto|]|]).
  all: try (intros [Hb Hcl]; first [discriminate Hcl | done
              | destruct (Hb eq_refl) as (HL' & [? HP'] & HS'); discriminate]).
  all: split; [try done|intros Hin Hb; try done].
  all: exfalso; clear Hb.
  all: repeat first
         [ apply elem_of_nil in Hin; exact Hin
         | apply elem_of_cons in Hin as [Hin|Hin]; [discriminate Hin|]
         | apply elem_of_app in Hin as [Hin|Hin];
             [apply elem_of_replicate in Hin as [Hin _]; discriminate Hin|] ].
Qed.

(** *** Instances *)

Lemma writerInEveryGroup_spec_witness :
  NoDup (elements (writers_books two_groups).2) /\
  (forall g, g ∈ elements (writers_books two_groups).2 <->
     exists m, m ∈ two_groups /\ alive_in g m = true) /\
  match writerInEveryGroup two_groups (elements (writers_books two_groups).2) with
  | (Some nodes, None) =>
      Forall2 (fun g n =>
        exists m, last (filter (fun m => alive_writer_in g m = true) two_groups) = Some m /\
                  n = NodeName m) (elements (writers_books two_groups).2) nodes
  | (None, Some e) =>
      exists g, g ∈ elements (writers_books two_groups).2 /\
        Forall (fun m => alive_writer_in g m = false) two_groups /\
        e = ("writer doesn't exist in group: " +:+ g)%string
  | _ => False
  end.
Proof.
  apply (writerInEveryGroup_spec two_groups (elements (writers_books two_groups).2)).
  reflexivity.
Defined.

Lemma recordResp_complete_witness :
  exists book,
    recordResp ((FromFuture ∘ Some <$> B_then_A) ++ [FromStopChan])
      (new_book ["A"; "B"]%string) = Returned book /\
    dom book = list_to_set ["A"; "B"]%string /\
    forall resp, resp ∈ B_then_A -> book !! ResponseNodeName resp = Some (recorded resp).
Proof.
  apply (recordResp_complete ["A"; "B"]%string B_then_A [FromStopChan]).
  - refine (bool_decide_unpack _ _). vm_compute. exact I.
  - apply Permutation_swap.
Defined.

Lemma internalStop_outcome_witness :
  exists gc' effs out,
    internalStop close_fails true cluster0 = (gc', CloseStopChan :: effs, out) /\
    stopChanClosed gc' = true /\ out <> Panics /\
    (Stopped gc' = true <-> out = Returns None) /\
    (out = Returns None <->
       (true = true ->
          Leave_result close_fails = None /\ is_Some (polls close_fails) /\
          Stop_result close_fails = None) /\
       Close_result close_fails = None) /\
    (true = false -> effs = [OPLogClose]) /\
    (OPLogClose ∈ effs ->
       true = true -> Leave_result close_fails = None /\ Stop_result close_fails = None).
Proof.
  apply (internalStop_outcome close_fails true cluster0); reflexivity.
Defined.

Lemma Stop_after_failed_Stop_witness :
  Stop stop_ok (with_stopChanClosed cluster0) = (with_stopChanClosed cluster0, [], Panics).
Proof.
  apply (Stop_after_failed_Stop close_fails stop_ok cluster0 (with_stopChanClosed cluster0)
           ([CloseStopChan; ClusterLeave] ++ replicate 1 Sleep ++ [ClusterStop]
            ++ [OPLogClose]) "close failed"%string); reflexivity.
Defined.

End ClusterProofs.
